(** * Ticket routing and assignment engine

    A shallow embedding of [tickets/classifier/config.py] and of the class
    [TicketClassifier] of [tickets/classifier/classifier.py], followed by the
    properties of the dispatcher: capacity, placement of tickets, the order
    of a queue drain, the specialist rule for urgent tickets, the effect of a
    closure and the independence of routing from the advisory network.

    Python objects are rendered as follows.  A [str] is the [string] of
    its UTF-8 bytes; the literals of the program are ASCII.  The [dict]s of
    [config.py] and
    [agent_tickets], whose iteration order the program observes, are
    association lists kept in insertion order; the ticket store, which is
    only ever indexed, is a [gmap].  A [deque] of ids is a [list].  Methods
    that mutate [self] or raise live in a state-and-exception monad in
    which a raised exception keeps every mutation made before it. *)

From Stdlib Require Import ZArith Ascii String Uint63 PrimFloat.
From stdpp Require Import base decidable option list strings gmap.

Local Open Scope string_scope.
Local Open Scope list_scope.
Local Open Scope nat_scope.

(** ** Python primitives *)

(** [str.lower] on an ASCII character. *)
Definition lower_ascii (c : ascii) : ascii :=
  let n := nat_of_ascii c in
  if (65 <=? n)%nat && (n <=? 90)%nat then ascii_of_nat (n + 32) else c.

(** [str.lower].  The program compares lower-cased text with the ASCII
    keys of [config.py] and with nothing else, so what it can observe of
    [str.lower] is which characters have ASCII text in their lower case.
    These are the letters [A] to [Z]; the Kelvin sign U+212A (bytes 226
    132 170), whose lower case is [k]; and the dotted capital I U+0130
    (bytes 196 176), whose lower case is [i] followed by the combining dot
    U+0307 (bytes 204 135).  The lower case of every other character lies
    outside ASCII, as the character does, and such a character is left as
    it is. *)
Fixpoint lower (s : string) : string :=
  match s with
  | EmptyString => EmptyString
  | String c s' =>
      match s' with
      | String c1 s1 =>
          if Ascii.eqb c "196" && Ascii.eqb c1 "176" then
            String "i" (String "204" (String "135" (lower s1)))
          else
            match s1 with
            | String c2 s2 =>
                if Ascii.eqb c "226" && Ascii.eqb c1 "132" && Ascii.eqb c2 "170"
                then String "k" (lower s2)
                else String (lower_ascii c) (lower s')
            | EmptyString => String (lower_ascii c) (lower s')
            end
      | EmptyString => String (lower_ascii c) (lower s')
      end
  end.

(** Truth value of an [Optional[str]]: [None] and the empty string are
    false. *)
Definition truthy (o : option string) : bool :=
  match o with
  | Some s => negb (bool_decide (s = ""))
  | None => false
  end.

(** [list.remove(x)] and [deque.remove(x)]: drop the first occurrence;
    [None] stands for the [ValueError] raised when there is none. *)
Fixpoint list_remove `{EqDecision A} (x : A) (l : list A) : option (list A) :=
  match l with
  | [] => None
  | y :: l' =>
      if decide (x = y) then Some l'
      else match list_remove x l' with
           | Some r => Some (y :: r)
           | None => None
           end
  end.

(** A [dict] whose iteration order matters: keys in insertion order. *)
Section dict.
Context {K V : Type} `{EqDecision K}.

(** [d.get(k)] *)
Fixpoint dict_get (d : list (K * V)) (k : K) : option V :=
  match d with
  | [] => None
  | (k', v) :: d' => if decide (k = k') then Some v else dict_get d' k
  end.

(** [d[k] = v] *)
Fixpoint dict_set (d : list (K * V)) (k : K) (v : V) : list (K * V) :=
  match d with
  | [] => [(k, v)]
  | (k', v') :: d' =>
      if decide (k = k') then (k, v) :: d' else (k', v') :: dict_set d' k v
  end.

(** [d.keys()] *)
Definition dict_keys (d : list (K * V)) : list K := d.*1.

End dict.

(** ** config.py *)

Definition AGENT_IDS : list (string * string) :=
  [ ("Agent 1", "692479b918668dee67209282");
    ("Agent 2", "692a056cfad7d194cd3f0992");
    ("Agent 3", "69438f79c1af7ec03ff7fed0") ].

Definition AGENT_SPECIALIZATIONS : list (string * string) :=
  [ ("Agent 1", "software"); ("Agent 2", "hardware"); ("Agent 3", "network") ].

Definition TYPE_TO_PRIMARY_AGENT : list (string * string) :=
  [ ("software", "Agent 1"); ("hardware", "Agent 2"); ("network", "Agent 3") ].

Definition SECONDARY_ASSIGNMENTS : list ((string * string) * list string) :=
  [ (("medium", "network"), ["Agent 3"; "Agent 1"]);
    (("medium", "software"), ["Agent 1"; "Agent 2"]);
    (("medium", "hardware"), ["Agent 2"; "Agent 3"]);
    (("low", "hardware"), ["Agent 2"; "Agent 1"]);
    (("low", "network"), ["Agent 3"; "Agent 2"]);
    (("low", "software"), ["Agent 1"; "Agent 3"]) ].

Definition MAX_TICKETS_PER_AGENT : nat := 5.

Definition PRIORITY_LEVELS : list string := ["high"; "medium"; "low"].

Definition TICKET_TYPES : list string := ["software"; "hardware"; "network"].

Module TICKET_STATUS.
Definition OPEN : string := "open".
Definition PENDING : string := "pending".
Definition CLOSED : string := "closed".
End TICKET_STATUS.

Definition PRIORITY_ENCODING : list (string * Z) :=
  [ ("low", 0%Z); ("medium", 1%Z); ("high", 2%Z) ].

Definition TYPE_ENCODING : list (string * Z) :=
  [ ("software", 0%Z); ("hardware", 1%Z); ("network", 2%Z) ].

Definition AGENT_ENCODING : list (string * nat) :=
  [ ("Agent 1", 0%nat); ("Agent 2", 1%nat); ("Agent 3", 2%nat) ].

(** [{v: k for k, v in AGENT_ENCODING.items()}] *)
Definition AGENT_DECODING : list (nat * string) :=
  (λ kv, (kv.2, kv.1)) <$> AGENT_ENCODING.

(** ** classifier.py: data *)

(** The dataclass [Ticket].  [created_at] is a timestamp, kept as a number;
    nothing in the module reads it. *)
Record Ticket : Type := mkTicket {
  id : string;
  priority : string;
  ticket_type : string;
  status : string;
  assigned_agent : option string;
  assigned_agent_id : option string;
  created_at : Z;
  neural_network_prediction : option string;
  prediction_confidence : option float;
}.

Definition set_status (v : string) (t : Ticket) : Ticket :=
  mkTicket (id t) (priority t) (ticket_type t) v (assigned_agent t)
    (assigned_agent_id t) (created_at t) (neural_network_prediction t)
    (prediction_confidence t).

Definition set_assigned_agent (v : option string) (t : Ticket) : Ticket :=
  mkTicket (id t) (priority t) (ticket_type t) (status t) v
    (assigned_agent_id t) (created_at t) (neural_network_prediction t)
    (prediction_confidence t).

Definition set_assigned_agent_id (v : option string) (t : Ticket) : Ticket :=
  mkTicket (id t) (priority t) (ticket_type t) (status t) (assigned_agent t)
    v (created_at t) (neural_network_prediction t) (prediction_confidence t).

(** What the engine uses of a loaded [NeuralNetwork]: the two inference
    methods, applied to the one-row input [[p, t]]. *)
Record NeuralNetwork : Type := mkNeuralNetwork {
  predict_proba : float * float → list float;
  predict : float * float → nat;
}.

(** The attributes of a [TicketClassifier] instance. *)
Record TicketClassifier : Type := mkTicketClassifier {
  nn : option NeuralNetwork;
  model_loaded : bool;
  agent_tickets : list (string * list string);
  high_priority_queue : list string;
  medium_priority_queue : list string;
  low_priority_queue : list string;
  tickets : gmap string Ticket;
}.

Definition set_agent_tickets (v : list (string * list string))
    (self : TicketClassifier) : TicketClassifier :=
  mkTicketClassifier (nn self) (model_loaded self) v
    (high_priority_queue self) (medium_priority_queue self)
    (low_priority_queue self) (tickets self).

Definition set_tickets (v : gmap string Ticket)
    (self : TicketClassifier) : TicketClassifier :=
  mkTicketClassifier (nn self) (model_loaded self) (agent_tickets self)
    (high_priority_queue self) (medium_priority_queue self)
    (low_priority_queue self) v.

(** The three deques are objects held by [self]; a variable bound to one
    of them is a reference, rendered as the name of the attribute. *)
Inductive queue_ref : Type :=
  | high_priority_queue_ref
  | medium_priority_queue_ref
  | low_priority_queue_ref.

#[global] Instance queue_ref_eq_dec : EqDecision queue_ref.
Proof. solve_decision. Defined.

Definition queue_get (q : queue_ref) (self : TicketClassifier) : list string :=
  match q with
  | high_priority_queue_ref => high_priority_queue self
  | medium_priority_queue_ref => medium_priority_queue self
  | low_priority_queue_ref => low_priority_queue self
  end.

Definition queue_put (q : queue_ref) (v : list string)
    (self : TicketClassifier) : TicketClassifier :=
  match q with
  | high_priority_queue_ref =>
      mkTicketClassifier (nn self) (model_loaded self) (agent_tickets self)
        v (medium_priority_queue self) (low_priority_queue self) (tickets self)
  | medium_priority_queue_ref =>
      mkTicketClassifier (nn self) (model_loaded self) (agent_tickets self)
        (high_priority_queue self) v (low_priority_queue self) (tickets self)
  | low_priority_queue_ref =>
      mkTicketClassifier (nn self) (model_loaded self) (agent_tickets self)
        (high_priority_queue self) (medium_priority_queue self) v (tickets self)
  end.

(** [TicketClassifier.__init__]: [loaded] is the network that [load_model]
    obtained from the model file, if any.  (When [load_model] fails after it
    has built the network, [nn] is set and [model_loaded] is false; [nn] is
    only read under [model_loaded], so that instance behaves as
    [init None].) *)
Definition init (loaded : option NeuralNetwork) : TicketClassifier :=
  {| nn := loaded;
     model_loaded := bool_decide (is_Some loaded);
     agent_tickets := [("Agent 1", []); ("Agent 2", []); ("Agent 3", [])];
     high_priority_queue := [];
     medium_priority_queue := [];
     low_priority_queue := [];
     tickets := ∅ |}.

(** ** The monad of methods *)

Inductive exn : Type :=
  | ValueError
  | KeyError
  | IndexError
  | RuntimeError
  | AttributeError.

Inductive outcome (A : Type) : Type :=
  | Returned (a : A)
  | Raised (e : exn).
Arguments Returned {A} a.
Arguments Raised {A} e.

Definition M (A : Type) : Type :=
  TicketClassifier → outcome A * TicketClassifier.

Definition ret {A} (a : A) : M A := λ self, (Returned a, self).

Definition bind {A B} (m : M A) (k : A → M B) : M B :=
  λ self,
    match m self with
    | (Returned a, self') => k a self'
    | (Raised e, self') => (Raised e, self')
    end.

Definition raise {A} (e : exn) : M A := λ self, (Raised e, self).

Definition gets {A} (f : TicketClassifier → A) : M A :=
  λ self, (Returned (f self), self).

Definition modify (f : TicketClassifier → TicketClassifier) : M unit :=
  λ self, (Returned tt, f self).

(** [d[k]] on a container whose lookup is [o]: [KeyError] when absent. *)
Definition getitem {A} (o : option A) : M A :=
  match o with
  | Some a => ret a
  | None => raise KeyError
  end.

Declare Scope method_scope.
Delimit Scope method_scope with method.
Notation "x <- m ;; k" := (bind m (λ x, k))
  (at level 100, m at next level, right associativity) : method_scope.
Notation "m ;; k" := (bind m (λ _, k))
  (at level 100, right associativity) : method_scope.
Local Open Scope method_scope.

(** A [for] loop that threads its local variables [acc]. *)
Fixpoint for_each {A B} (l : list A) (body : B → A → M B) (acc : B) : M B :=
  match l with
  | [] => ret acc
  | x :: l' => acc' <- body acc x ;; for_each l' body acc'
  end.

(** ** classifier.py: methods *)

(** [_encode_input]: the row [[p / 2.0, t / 2.0]]. *)
Definition _encode_input (priority ticket_type : string) : M (float * float) :=
  p <- getitem (dict_get PRIORITY_ENCODING (lower priority)) ;;
  t <- getitem (dict_get TYPE_ENCODING (lower ticket_type)) ;;
  ret (PrimFloat.div (PrimFloat.of_uint63 (Uint63.of_Z p)) 2%float,
       PrimFloat.div (PrimFloat.of_uint63 (Uint63.of_Z t)) 2%float).

(** [proba[i]] *)
Definition index (proba : list float) (i : nat) : M float :=
  match proba !! i with
  | Some p => ret p
  | None => raise IndexError
  end.

Definition predict_agent (priority ticket_type : string)
    : M (string * float * list (string * float)) :=
  loaded <- gets model_loaded ;;
  if negb loaded then raise RuntimeError else
  x <- _encode_input priority ticket_type ;;
  net <- gets nn ;;
  match net with
  | None => raise AttributeError
  | Some net =>
      let proba := predict_proba net x in
      let prediction := predict net x in
      predicted_agent <- getitem (dict_get AGENT_DECODING prediction) ;;
      confidence <- index proba prediction ;;
      p0 <- index proba 0 ;;
      p1 <- index proba 1 ;;
      p2 <- index proba 2 ;;
      ret (predicted_agent, confidence,
           [("Agent 1", p0); ("Agent 2", p1); ("Agent 3", p2)])
  end.

Definition get_agent_load (self : TicketClassifier) (agent : string) : nat :=
  length (default [] (dict_get (agent_tickets self) agent)).

Definition is_agent_available (self : TicketClassifier) (agent : string) : bool :=
  bool_decide (get_agent_load self agent < MAX_TICKETS_PER_AGENT).

Definition get_available_agents (self : TicketClassifier) : list string :=
  filter (λ agent, is_agent_available self agent = true)
    (dict_keys (agent_tickets self)).

Definition _get_queue_for_priority (priority : string) : queue_ref :=
  if bool_decide (priority = "high") then high_priority_queue_ref
  else if bool_decide (priority = "medium") then medium_priority_queue_ref
  else low_priority_queue_ref.

(** [_find_available_agent] only reads [self] and cannot raise.  Each
    [for agent in ...: if available: return agent] is a [find]. *)
Definition _find_available_agent (self : TicketClassifier)
    (priority ticket_type : string) : option string :=
  let priority := lower priority in
  let ticket_type := lower ticket_type in
  let primary_agent := dict_get TYPE_TO_PRIMARY_AGENT ticket_type in
  if truthy primary_agent
     && is_agent_available self (default "" primary_agent)
  then primary_agent
  else if bool_decide (priority = "high") then None
  else
    let secondary_agents :=
      default [] (dict_get SECONDARY_ASSIGNMENTS (priority, ticket_type)) in
    match find (is_agent_available self) secondary_agents with
    | Some agent => Some agent
    | None => find (is_agent_available self) (dict_keys (agent_tickets self))
    end.

(** Attribute assignment on the [Ticket] object that the store holds under
    [ticket_id] and that the local variable [ticket] is bound to. *)
Definition setattr (ticket_id : string) (upd : Ticket → Ticket)
    (ticket : Ticket) : M Ticket :=
  modify (λ self, set_tickets (<[ticket_id := upd ticket]> (tickets self)) self) ;;
  ret (upd ticket).

(** [self.agent_tickets[agent].append(ticket_id)] *)
Definition agent_append (agent ticket_id : string) : M unit :=
  workload <- (d <- gets agent_tickets ;; getitem (dict_get d agent)) ;;
  modify (λ self,
    set_agent_tickets
      (dict_set (agent_tickets self) agent (workload ++ [ticket_id])) self).

(** The dictionary returned by [create_ticket]. *)
Record created : Type := mkCreated {
  created_ticket_id : string;
  created_priority : string;
  created_type : string;
  created_status : string;
  created_assigned_agent : option string;
  created_assigned_agent_id : option string;
  created_neural_network_prediction : option string;
  created_prediction_confidence : option float;
  created_prediction_probabilities : option (list (string * float));
  created_queued : bool;
}.

(** [now] is the value that [datetime.now] yields when the [Ticket] is
    built. *)
Definition create_ticket (now : Z) (ticket_id priority ticket_type : string)
    : M created :=
  let priority := lower priority in
  let ticket_type := lower ticket_type in
  if negb (bool_decide (priority ∈ PRIORITY_LEVELS)) then raise ValueError else
  if negb (bool_decide (ticket_type ∈ TICKET_TYPES)) then raise ValueError else
  loaded <- gets model_loaded ;;
  prediction <-
    (if loaded
     then p <- predict_agent priority ticket_type ;; ret (Some p)
     else ret None) ;;
  let nn_prediction := (λ p, p.1.1) <$> prediction in
  let nn_confidence := (λ p, p.1.2) <$> prediction in
  let nn_probabilities := (λ p, p.2) <$> prediction in
  let ticket :=
    {| id := ticket_id; priority := priority; ticket_type := ticket_type;
       status := TICKET_STATUS.OPEN; assigned_agent := None;
       assigned_agent_id := None; created_at := now;
       neural_network_prediction := nn_prediction;
       prediction_confidence := nn_confidence |} in
  modify (λ self, set_tickets (<[ticket_id := ticket]> (tickets self)) self) ;;
  assigned <-
    gets (λ self, _find_available_agent self priority ticket_type) ;;
  ticket <-
    (if truthy assigned then
       ticket <- setattr ticket_id (set_assigned_agent assigned) ticket ;;
       agent_id <- getitem (dict_get AGENT_IDS (default "" assigned)) ;;
       ticket <- setattr ticket_id (set_assigned_agent_id (Some agent_id)) ticket ;;
       ticket <- setattr ticket_id (set_status TICKET_STATUS.PENDING) ticket ;;
       agent_append (default "" assigned) ticket_id ;;
       ret ticket
     else
       let queue := _get_queue_for_priority priority in
       modify (λ self, queue_put queue (queue_get queue self ++ [ticket_id]) self) ;;
       setattr ticket_id (set_status TICKET_STATUS.OPEN) ticket) ;;
  ret {| created_ticket_id := ticket_id;
         created_priority := priority;
         created_type := ticket_type;
         created_status := status ticket;
         created_assigned_agent := assigned_agent ticket;
         created_assigned_agent_id := assigned_agent_id ticket;
         created_neural_network_prediction := nn_prediction;
         created_prediction_confidence := nn_confidence;
         created_prediction_probabilities := nn_probabilities;
         created_queued := bool_decide (status ticket = TICKET_STATUS.OPEN) |}.

(** An entry of the list returned by [_process_queues]. *)
Record assignment : Type := mkAssignment {
  assignment_ticket_id : string;
  assignment_assigned_agent : string;
  assignment_assigned_agent_id : string;
}.

(** The body of [for ticket_id in queue]; the locals it updates are
    [tickets_to_remove] and [newly_assigned]. *)
Definition visit (locals : list string * list assignment) (ticket_id : string)
    : M (list string * list assignment) :=
  let '(tickets_to_remove, newly_assigned) := locals in
  ticket <- (store <- gets tickets ;; getitem (store !! ticket_id)) ;;
  agent <-
    gets (λ self,
      _find_available_agent self (priority ticket) (ticket_type ticket)) ;;
  if truthy agent then
    ticket <- setattr ticket_id (set_assigned_agent agent) ticket ;;
    agent_id <- getitem (dict_get AGENT_IDS (default "" agent)) ;;
    ticket <- setattr ticket_id (set_assigned_agent_id (Some agent_id)) ticket ;;
    ticket <- setattr ticket_id (set_status TICKET_STATUS.PENDING) ticket ;;
    agent_append (default "" agent) ticket_id ;;
    agent_id' <- getitem (dict_get AGENT_IDS (default "" agent)) ;;
    ret (tickets_to_remove ++ [ticket_id],
         newly_assigned ++
           [ {| assignment_ticket_id := ticket_id;
                assignment_assigned_agent := default "" agent;
                assignment_assigned_agent_id := agent_id' |} ])
  else ret (tickets_to_remove, newly_assigned).

(** The body of [for ticket_id in tickets_to_remove]. *)
Definition unqueue (queue : queue_ref) (_ : unit) (ticket_id : string) : M unit :=
  contents <- gets (queue_get queue) ;;
  match list_remove ticket_id contents with
  | Some rest => modify (queue_put queue rest)
  | None => raise ValueError
  end.

(** The body of [for queue in [high, medium, low]]. *)
Definition process_queue (newly_assigned : list assignment) (queue : queue_ref)
    : M (list assignment) :=
  contents <- gets (queue_get queue) ;;
  locals <- for_each contents visit ([], newly_assigned) ;;
  for_each locals.1 (unqueue queue) tt ;;
  ret locals.2.

Definition _process_queues : M (list assignment) :=
  for_each
    [high_priority_queue_ref; medium_priority_queue_ref; low_priority_queue_ref]
    process_queue [].

(** The dictionary returned by [close_ticket]: the early "already closed"
    message, or the closure report. *)
Inductive closed : Type :=
  | already_closed (message : string) (ticket_id : string)
  | closure (ticket_id : string) (status : string)
      (freed_agent : option string) (newly_assigned_tickets : list assignment).

Definition close_ticket (ticket_id : string) : M closed :=
  store <- gets tickets ;;
  match store !! ticket_id with
  | None => raise ValueError
  | Some ticket =>
      if bool_decide (status ticket = TICKET_STATUS.CLOSED)
      then ret (already_closed "Ticket already closed" ticket_id)
      else
        let agent := assigned_agent ticket in
        ticket <- setattr ticket_id (set_status TICKET_STATUS.CLOSED) ticket ;;
        (if truthy agent then
           workload <-
             (d <- gets agent_tickets ;;
              getitem (dict_get d (default "" agent))) ;;
           if bool_decide (ticket_id ∈ workload) then
             match list_remove ticket_id workload with
             | Some rest =>
                 modify (λ self,
                   set_agent_tickets
                     (dict_set (agent_tickets self) (default "" agent) rest)
                     self)
             | None => raise ValueError
             end
           else ret tt
         else ret tt) ;;
        newly_assigned <- _process_queues ;;
        ret (closure ticket_id TICKET_STATUS.CLOSED agent newly_assigned)
  end.

(** ** Histories of calls *)

(** The calls that change the routing state.  [DrainQueues] is a call of
    [_process_queues] on its own. *)
Inductive op : Type :=
  | CreateTicket (now : Z) (ticket_id priority ticket_type : string)
  | CloseTicket (ticket_id : string)
  | DrainQueues.

(** The instance after a call, whether the call returned or raised. *)
Definition step (self : TicketClassifier) (o : op) : TicketClassifier :=
  match o with
  | CreateTicket now ticket_id priority ticket_type =>
      (create_ticket now ticket_id priority ticket_type self).2
  | CloseTicket ticket_id => (close_ticket ticket_id self).2
  | DrainQueues => (_process_queues self).2
  end.

Definition run (ops : list op) (self : TicketClassifier) : TicketClassifier :=
  foldl step self ops.

(** The status of the ticket stored under [ticket_id]. *)
Definition status_of (self : TicketClassifier) (ticket_id : string)
    : option string :=
  status <$> tickets self !! ticket_id.

(** The workload list of [agent]. *)
Definition workload (self : TicketClassifier) (agent : string) : list string :=
  default [] (dict_get (agent_tickets self) agent).

(** ** Routing steps as functions

    The effect of the assignment block and of a queue drain, written as
    functions of the instance.  The lemmas below show that the methods
    compute exactly these on an instance whose registry is the one that
    [__init__] builds. *)

Definition agents : list string := ["Agent 1"; "Agent 2"; "Agent 3"].

Definition agent_id_of (agent : string) : string :=
  default "" (dict_get AGENT_IDS agent).

(** The ticket after [assigned_agent], [assigned_agent_id] and [status]
    have been set. *)
Definition assigned_ticket (agent : string) (ticket : Ticket) : Ticket :=
  set_status TICKET_STATUS.PENDING
    (set_assigned_agent_id (Some (agent_id_of agent))
       (set_assigned_agent (Some agent) ticket)).

(** The instance after [ticket] has been assigned to [agent]. *)
Definition assign (ticket_id agent : string) (ticket : Ticket)
    (self : TicketClassifier) : TicketClassifier :=
  set_agent_tickets
    (dict_set (agent_tickets self) agent (workload self agent ++ [ticket_id]))
    (set_tickets (<[ticket_id := assigned_ticket agent ticket]> (tickets self))
       self).

(** One evaluation of a queued id: the assignment made, if any, and the
    instance afterwards.  An id that is not stored, on which the method
    raises [KeyError], is passed over. *)
Definition evaluate (ticket_id : string) (self : TicketClassifier)
    : option assignment * TicketClassifier :=
  match tickets self !! ticket_id with
  | Some ticket =>
      match _find_available_agent self (priority ticket) (ticket_type ticket) with
      | Some agent =>
          (Some (mkAssignment ticket_id agent (agent_id_of agent)),
           assign ticket_id agent ticket self)
      | None => (None, self)
      end
  | None => (None, self)
  end.

(** Evaluating the ids of [l] from left to right, each against the
    instance left by the previous ones. *)
Fixpoint walk (l : list string) (self : TicketClassifier)
    : list assignment * TicketClassifier :=
  match l with
  | [] => ([], self)
  | ticket_id :: l' =>
      let '(made, self') := evaluate ticket_id self in
      let '(rest, self'') := walk l' self' in
      (option_list made ++ rest, self'')
  end.

(** Removing the first occurrence of each id of [rm], in turn. *)
Fixpoint remove_each (rm l : list string) : list string :=
  match rm with
  | [] => l
  | x :: rm' => remove_each rm' (default l (list_remove x l))
  end.

Definition drain_queue (queue : queue_ref) (self : TicketClassifier)
    : list assignment * TicketClassifier :=
  let '(made, self') := walk (queue_get queue self) self in
  (made,
   queue_put queue
     (remove_each (assignment_ticket_id <$> made) (queue_get queue self'))
     self').

Definition drain (self : TicketClassifier) : list assignment * TicketClassifier :=
  let '(made1, self1) := drain_queue high_priority_queue_ref self in
  let '(made2, self2) := drain_queue medium_priority_queue_ref self1 in
  let '(made3, self3) := drain_queue low_priority_queue_ref self2 in
  (made1 ++ made2 ++ made3, self3).

(** The [Ticket] that [create_ticket] builds. *)
Definition new_ticket (now : Z) (ticket_id priority ticket_type : string)
    (prediction : option (string * float * list (string * float))) : Ticket :=
  {| id := ticket_id; priority := priority; ticket_type := ticket_type;
     status := TICKET_STATUS.OPEN; assigned_agent := None;
     assigned_agent_id := None; created_at := now;
     neural_network_prediction := (λ p, p.1.1) <$> prediction;
     prediction_confidence := (λ p, p.1.2) <$> prediction |}.

(** The instance after [ticket] has been appended to the queue of its
    priority. *)
Definition enqueue (ticket_id : string) (ticket : Ticket)
    (self : TicketClassifier) : TicketClassifier :=
  let queue := _get_queue_for_priority (priority ticket) in
  queue_put queue (queue_get queue self ++ [ticket_id])
    (set_tickets (<[ticket_id := ticket]> (tickets self)) self).

(** The instance after a new [ticket] has been stored and routed. *)
Definition place (ticket_id : string) (ticket : Ticket)
    (self : TicketClassifier) : TicketClassifier :=
  match _find_available_agent self (priority ticket) (ticket_type ticket) with
  | Some agent => assign ticket_id agent ticket self
  | None => enqueue ticket_id ticket self
  end.

(** The statements of [create_ticket] that follow the prediction: build
    and store the ticket, route it, and answer. *)
Definition create_ticket_routing (now : Z)
    (ticket_id priority ticket_type : string)
    (prediction : option (string * float * list (string * float)))
    : M created :=
  let ticket := new_ticket now ticket_id priority ticket_type prediction in
  modify (λ self, set_tickets (<[ticket_id := ticket]> (tickets self)) self) ;;
  assigned <-
    gets (λ self, _find_available_agent self priority ticket_type) ;;
  ticket <-
    (if truthy assigned then
       ticket <- setattr ticket_id (set_assigned_agent assigned) ticket ;;
       agent_id <- getitem (dict_get AGENT_IDS (default "" assigned)) ;;
       ticket <- setattr ticket_id (set_assigned_agent_id (Some agent_id)) ticket ;;
       ticket <- setattr ticket_id (set_status TICKET_STATUS.PENDING) ticket ;;
       agent_append (default "" assigned) ticket_id ;;
       ret ticket
     else
       let queue := _get_queue_for_priority priority in
       modify (λ self, queue_put queue (queue_get queue self ++ [ticket_id]) self) ;;
       setattr ticket_id (set_status TICKET_STATUS.OPEN) ticket) ;;
  ret {| created_ticket_id := ticket_id;
         created_priority := priority;
         created_type := ticket_type;
         created_status := status ticket;
         created_assigned_agent := assigned_agent ticket;
         created_assigned_agent_id := assigned_agent_id ticket;
         created_neural_network_prediction := (λ p, p.1.1) <$> prediction;
         created_prediction_confidence := (λ p, p.1.2) <$> prediction;
         created_prediction_probabilities := (λ p, p.2) <$> prediction;
         created_queued := bool_decide (status ticket = TICKET_STATUS.OPEN) |}.

(** The instance after [close_ticket] has marked [ticket] closed and
    taken it from the workload of its agent, before it calls
    [_process_queues].  The agent is one of the registry; for any other
    name the method raises [KeyError]. *)
Definition release (ticket_id : string) (ticket : Ticket)
    (self : TicketClassifier) : TicketClassifier :=
  let self' :=
    set_tickets
      (<[ticket_id := set_status TICKET_STATUS.CLOSED ticket]> (tickets self))
      self in
  match assigned_agent ticket with
  | Some agent =>
      match list_remove ticket_id (workload self agent) with
      | Some rest =>
          set_agent_tickets (dict_set (agent_tickets self) agent rest) self'
      | None => self'
      end
  | None => self'
  end.

(** The ids that the assignments [made] gave to [agent], in order. *)
Definition assigned_to (agent : string) (made : list assignment) : list string :=
  assignment_ticket_id <$>
    filter (λ m, assignment_assigned_agent m = agent) made.

(** ** Invariants of the instance *)

(** The registry has the three agents of [__init__], in that order. *)
Definition registry_ok (self : TicketClassifier) : Prop :=
  dict_keys (agent_tickets self) = agents.

(** Every id held by an agent, then every queued id. *)
Definition held (self : TicketClassifier) : list string :=
  concat (agent_tickets self).*2.

Definition queued (self : TicketClassifier) : list string :=
  high_priority_queue self ++ medium_priority_queue self
    ++ low_priority_queue self.

Definition places (self : TicketClassifier) : list string :=
  held self ++ queued self.

(** Every id in a workload or in a queue is a key of the store. *)
Definition store_covers (self : TicketClassifier) : Prop :=
  Forall (λ ticket_id, is_Some (tickets self !! ticket_id)) (places self).

(** No workload is longer than the capacity. *)
Definition within_capacity (self : TicketClassifier) : Prop :=
  Forall (λ entry, (length entry.2 ≤ MAX_TICKETS_PER_AGENT)%nat)
    (agent_tickets self).

(** Every agent recorded on a ticket is an agent of the registry. *)
Definition assignees_known (self : TicketClassifier) : Prop :=
  ∀ x t a,
    tickets self !! x = Some t → assigned_agent t = Some a → a ∈ agents.

(** What every instance reached from [init] satisfies. *)
Definition consistent (self : TicketClassifier) : Prop :=
  registry_ok self ∧ store_covers self ∧ assignees_known self.

(** Stored tickets have a valid type, and an urgent ticket that carries
    an agent carries the specialist of its type. *)
Definition urgent_with_specialist (self : TicketClassifier) : Prop :=
  ∀ x t,
    tickets self !! x = Some t →
    ticket_type t ∈ TICKET_TYPES ∧
    (priority t = "high" →
     ∀ a, assigned_agent t = Some a →
          dict_get TYPE_TO_PRIMARY_AGENT (ticket_type t) = Some a).

(** Computations that leave the instance as it is. *)
Definition reads {A} (m : M A) : Prop := ∀ self, (m self).2 = self.

(** ** The routing state

    What is left of an instance, of a ticket and of the answer of
    [create_ticket] when the network and everything it produced is
    blanked. *)

Definition blind_ticket (t : Ticket) : Ticket :=
  mkTicket (id t) (priority t) (ticket_type t) (status t) (assigned_agent t)
    (assigned_agent_id t) (created_at t) None None.

Definition routing_state (self : TicketClassifier) : TicketClassifier :=
  mkTicketClassifier None false (agent_tickets self)
    (high_priority_queue self) (medium_priority_queue self)
    (low_priority_queue self) (blind_ticket <$> tickets self).

Definition blind_created (r : created) : created :=
  mkCreated (created_ticket_id r) (created_priority r) (created_type r)
    (created_status r) (created_assigned_agent r)
    (created_assigned_agent_id r) None None None (created_queued r).

Definition outcome_map {A B} (f : A → B) (o : outcome A) : outcome B :=
  match o with
  | Returned a => Returned (f a)
  | Raised e => Raised e
  end.

(** [m'] on the routing state does what [m] does on the instance, up to
    the blanking [f] of the value. *)
Definition blinds {A B} (f : A → B) (m : M A) (m' : M B) : Prop :=
  ∀ self,
    m' (routing_state self) =
      (outcome_map f (m self).1, routing_state (m self).2).

(** A network with the three outputs that [predict_agent] reads: class
    indices below 3 and at least three probabilities. *)
Definition three_classes (net : NeuralNetwork) : Prop :=
  ∀ x, predict net x < 3 ∧ 3 ≤ length (predict_proba net x).

(** [load_model] sets [model_loaded] only after it has set [nn]. *)
Definition model_ok (self : TicketClassifier) : Prop :=
  model_loaded self = true → ∃ net, nn self = Some net ∧ three_classes net.

(** ** Placement *)

(** The ids passed to [create_ticket] in a history. *)
Definition created_ids (ops : list op) : list string :=
  omap (λ o, match o with
             | CreateTicket _ ticket_id _ _ => Some ticket_id
             | _ => None
             end) ops.

(** How often an id occurs in the workloads and the queues together. *)
Definition occurrences (self : TicketClassifier) (ticket_id : string) : nat :=
  length (filter (λ x, x = ticket_id) (places self)).

(** Where the status of a stored ticket says it is: an open ticket is
    queued, a pending one is in the workload of the agent it carries, a
    closed one is in no workload. *)
Definition placed_by_status (self : TicketClassifier) : Prop :=
  ∀ x t,
    tickets self !! x = Some t →
    status t = TICKET_STATUS.OPEN ∧ x ∈ queued self ∨
    status t = TICKET_STATUS.PENDING ∧
      (∃ a, assigned_agent t = Some a ∧ x ∈ workload self a) ∨
    status t = TICKET_STATUS.CLOSED ∧ x ∉ held self.

(** No id occurs twice in the workloads and queues, and every stored
    ticket is where its status says. *)
Definition well_placed (self : TicketClassifier) : Prop :=
  consistent self ∧ NoDup (places self) ∧ placed_by_status self.

(** ** Scenarios *)

(** Five urgent software tickets fill the software specialist; a sixth
    one has to wait in the high queue. *)
Definition sixth_urgent_ticket : list op :=
  [ CreateTicket 0 "T1" "high" "software";
    CreateTicket 0 "T2" "high" "software";
    CreateTicket 0 "T3" "high" "software";
    CreateTicket 0 "T4" "high" "software";
    CreateTicket 0 "T5" "high" "software";
    CreateTicket 0 "T6" "high" "software" ].

(** A network that always answers class 1. *)
Definition constant_network : NeuralNetwork :=
  {| predict_proba := λ _, [0.25%float; 0.5%float; 0.25%float];
     predict := λ _, 1 |}.

(** A network with two outputs only.  [load_model] builds a network of
    whatever [output_size] the model file gives and sets [model_loaded]. *)
Definition two_output_network : NeuralNetwork :=
  {| predict_proba := λ _, [0.5%float; 0.5%float];
     predict := λ _, 0 |}.

(** An instance in the middle of a closure: the software specialist is
    full, the other agents are free; "U1" (software) and "U2" (hardware)
    wait in the high queue, "V" (software) in the medium queue, and "X"
    is closed. *)
Definition waiting_instance : TicketClassifier :=
  {| nn := None;
     model_loaded := false;
     agent_tickets :=
       [("Agent 1", ["A1"; "A2"; "A3"; "A4"; "A5"]); ("Agent 2", []);
        ("Agent 3", [])];
     high_priority_queue := ["U1"; "U2"];
     medium_priority_queue := ["V"];
     low_priority_queue := [];
     tickets :=
       <["U1" := new_ticket 0 "U1" "high" "software" None]>
         (<["U2" := new_ticket 0 "U2" "high" "hardware" None]>
            (<["V" := new_ticket 0 "V" "medium" "software" None]>
               (<["X" := set_status TICKET_STATUS.CLOSED
                           (new_ticket 0 "X" "low" "network" None)]> ∅))) |}.

(** ** The rest of config.py *)

Definition LOAD_DISTRIBUTION : list ((string * string) * string) :=
  [ (("high", "software"), "Agent 1");
    (("high", "hardware"), "Agent 2");
    (("high", "network"), "Agent 3");
    (("medium", "software"), "Agent 1");
    (("medium", "hardware"), "Agent 2");
    (("medium", "network"), "Agent 3");
    (("low", "software"), "Agent 1");
    (("low", "hardware"), "Agent 2");
    (("low", "network"), "Agent 3") ].

(** [{v: k for k, v in d.items()}]: later items overwrite earlier ones
    with the same value. *)
Definition dict_invert {K V : Type} `{EqDecision V} (d : list (K * V))
    : list (V * K) :=
  foldl (λ acc kv, dict_set acc kv.2 kv.1) [] d.

Definition PRIORITY_DECODING : list (Z * string) := dict_invert PRIORITY_ENCODING.

Definition TYPE_DECODING : list (Z * string) := dict_invert TYPE_ENCODING.

(** ** The rest of classifier.py *)

(** The inner dictionary of [get_status] for one agent. *)
Record agent_status : Type := mkAgentStatus {
  status_current_tickets : nat;
  status_max_capacity : nat;
  status_available : bool;
  status_ticket_ids : list string;
  status_agent_id : string;
  status_specialization : string;
}.

(** The dictionary returned by [get_status]. *)
Record status_report : Type := mkStatusReport {
  report_model_loaded : bool;
  report_agent_workloads : list (string * agent_status);
  report_high_priority : list string;
  report_medium_priority : list string;
  report_low_priority : list string;
  report_total_tickets : nat;
  report_pending_in_queue : nat;
}.

(** One step of the dictionary comprehension of [get_status]. *)
Definition agent_status_item (acc : list (string * agent_status))
    (item : string * list string) : M (list (string * agent_status)) :=
  let '(agent, ticket_ids) := item in
  agent_id <- getitem (dict_get AGENT_IDS agent) ;;
  specialization <- getitem (dict_get AGENT_SPECIALIZATIONS agent) ;;
  ret (dict_set acc agent
         {| status_current_tickets := length ticket_ids;
            status_max_capacity := MAX_TICKETS_PER_AGENT;
            status_available :=
              bool_decide (length ticket_ids < MAX_TICKETS_PER_AGENT);
            status_ticket_ids := ticket_ids;
            status_agent_id := agent_id;
            status_specialization := specialization |}).

Definition get_status : M status_report :=
  loaded <- gets model_loaded ;;
  items <- gets agent_tickets ;;
  agent_workloads <- for_each items agent_status_item [] ;;
  high <- gets high_priority_queue ;;
  medium <- gets medium_priority_queue ;;
  low <- gets low_priority_queue ;;
  store <- gets tickets ;;
  ret {| report_model_loaded := loaded;
         report_agent_workloads := agent_workloads;
         report_high_priority := high;
         report_medium_priority := medium;
         report_low_priority := low;
         report_total_tickets := size store;
         report_pending_in_queue := length high + length medium + length low |}.

(** The dictionary returned by [classify_ticket]. *)
Record classification : Type := mkClassification {
  classification_priority : string;
  classification_type : string;
  classification_predicted_agent : string;
  classification_predicted_agent_id : string;
  classification_confidence : float;
  classification_probabilities : list (string * float);
  classification_specialization : string;
}.

Definition classify_ticket (priority ticket_type : string) : M classification :=
  loaded <- gets model_loaded ;;
  if negb loaded then raise RuntimeError else
  prediction <- predict_agent priority ticket_type ;;
  let '(predicted_agent, confidence, probabilities) := prediction in
  agent_id <- getitem (dict_get AGENT_IDS predicted_agent) ;;
  specialization <- getitem (dict_get AGENT_SPECIALIZATIONS predicted_agent) ;;
  ret {| classification_priority := priority;
         classification_type := ticket_type;
         classification_predicted_agent := predicted_agent;
         classification_predicted_agent_id := agent_id;
         classification_confidence := confidence;
         classification_probabilities := probabilities;
         classification_specialization := specialization |}.

(** [classify_and_route]: a new instance, built around the network that
    [load_model] obtained, classifies once. *)
Definition classify_and_route (priority ticket_type : string)
    (loaded : option NeuralNetwork) : outcome classification :=
  (classify_ticket priority ticket_type (init loaded)).1.

(** The answer of [create_ticket] for a ticket that [assigned] received
    ([None]: queued). *)
Definition created_answer (ticket_id priority ticket_type : string)
    (prediction : option (string * float * list (string * float)))
    (assigned : option string) : created :=
  {| created_ticket_id := ticket_id;
     created_priority := priority;
     created_type := ticket_type;
     created_status :=
       if assigned is Some _ then TICKET_STATUS.PENDING
       else TICKET_STATUS.OPEN;
     created_assigned_agent := assigned;
     created_assigned_agent_id := agent_id_of <$> assigned;
     created_neural_network_prediction := (λ p, p.1.1) <$> prediction;
     created_prediction_confidence := (λ p, p.1.2) <$> prediction;
     created_prediction_probabilities := (λ p, p.2) <$> prediction;
     created_queued := bool_decide (assigned = None) |}.

(** The agents that [_find_available_agent] tries, in the order in
    which it tries them. *)
Definition preference (self : TicketClassifier) (priority ticket_type : string)
    : list string :=
  option_list (dict_get TYPE_TO_PRIMARY_AGENT (lower ticket_type)) ++
  (if bool_decide (lower priority = "high") then []
   else
     default []
       (dict_get SECONDARY_ASSIGNMENTS (lower priority, lower ticket_type))
     ++ dict_keys (agent_tickets self)).

(** ** Stored tickets *)

(** What [create_ticket] writes once and no method changes afterwards. *)
Definition same_record (t t' : Ticket) : Prop :=
  id t = id t' ∧ priority t = priority t' ∧ ticket_type t = ticket_type t' ∧
  created_at t = created_at t' ∧
  neural_network_prediction t = neural_network_prediction t' ∧
  prediction_confidence t = prediction_confidence t'.

(** A ticket as the methods leave it under the key [x]. *)
Definition ticket_well_formed (x : string) (t : Ticket) : Prop :=
  id t = x ∧ priority t ∈ PRIORITY_LEVELS ∧ ticket_type t ∈ TICKET_TYPES ∧
  status t ∈ [TICKET_STATUS.OPEN; TICKET_STATUS.PENDING; TICKET_STATUS.CLOSED] ∧
  (status t = TICKET_STATUS.OPEN → assigned_agent t = None) ∧
  (status t = TICKET_STATUS.PENDING → is_Some (assigned_agent t)) ∧
  (∀ a, assigned_agent t = Some a → a ∈ agents) ∧
  assigned_agent_id t = agent_id_of <$> assigned_agent t.

Definition store_well_formed (self : TicketClassifier) : Prop :=
  ∀ x t, tickets self !! x = Some t → ticket_well_formed x t.


(** [t'] is the ticket [t] after further calls: the record is the same,
    a ticket that has left [open] is not open, and an agent once set
    stays set. *)
Definition ticket_evolves (t t' : Ticket) : Prop :=
  same_record t t' ∧
  (status t ≠ TICKET_STATUS.OPEN → status t' ≠ TICKET_STATUS.OPEN) ∧
  (is_Some (assigned_agent t) → is_Some (assigned_agent t')).

(** ** Waiting tickets *)

(** [self] has the agents of [self'] and none of them is available in
    [self] without being available in [self']. *)
Definition no_freer (self self' : TicketClassifier) : Prop :=
  dict_keys (agent_tickets self) = dict_keys (agent_tickets self') ∧
  ∀ agent,
    is_agent_available self agent = true →
    is_agent_available self' agent = true.

(** No queued id could be assigned: [_find_available_agent] finds no
    agent for the ticket stored under it. *)
Definition settled (self : TicketClassifier) : Prop :=
  ∀ x t,
    x ∈ queued self → tickets self !! x = Some t →
    _find_available_agent self (priority t) (ticket_type t) = None.

(** Every queued id waits in the queue of the priority of its ticket. *)
Definition queued_by_priority (self : TicketClassifier) : Prop :=
  ∀ queue x t,
    x ∈ queue_get queue self → tickets self !! x = Some t →
    _get_queue_for_priority (priority t) = queue.

(** * Properties *)

(** ** The registry *)

Ltac find_cases :=
  unfold _find_available_agent;
  destruct (dict_get TYPE_TO_PRIMARY_AGENT _) as [?p|] eqn:?Hp;
  cbn [truthy from_option Datatypes.id andb negb];
  [destruct (negb (bool_decide (_ = "")) && is_agent_available _ _) eqn:?Hc|];
  [|destruct (bool_decide (lower _ = "high")) eqn:?Hhigh; [|destruct (dict_get SECONDARY_ASSIGNMENTS _) as [?l|] eqn:?Hl;
      cbn [from_option Datatypes.id find]; [destruct (find _ _) eqn:?Hs|]]..].

Lemma registry_shape self :
  registry_ok self →
  ∃ l1 l2 l3,
    agent_tickets self = [("Agent 1", l1); ("Agent 2", l2); ("Agent 3", l3)].
Proof.
  unfold registry_ok, dict_keys, agents.
  destruct (agent_tickets self) as [|[k1 l1] [|[k2 l2] [|[k3 l3] [|? ?]]]];
    simpl; intros H; try discriminate.
  injection H as -> -> ->. by exists l1, l2, l3.
Qed.

Lemma find_is_Some_available (f : string → bool) l a :
  find f l = Some a → f a = true ∧ a ∈ l.
Proof.
  induction l as [|x l IH]; simpl; [done|].
  destruct (f x) eqn:Hx.
  - intros [= <-]. split; [done | left].
  - intros H. destruct (IH H). split; [done | by right].
Qed.

Lemma secondary_agents_known priority ticket_type l a :
  dict_get SECONDARY_ASSIGNMENTS (priority, ticket_type) = Some l →
  a ∈ l → a ∈ agents.
Proof.
  unfold SECONDARY_ASSIGNMENTS, agents. simpl.
  repeat destruct (decide _); intros Hl Ha; try discriminate Hl;
    injection Hl as <-; apply list_elem_of_In; apply list_elem_of_In in Ha;
    simpl in *; tauto.
Qed.

Lemma primary_agent_known ticket_type a :
  dict_get TYPE_TO_PRIMARY_AGENT ticket_type = Some a → a ∈ agents.
Proof.
  unfold TYPE_TO_PRIMARY_AGENT, agents. simpl.
  repeat destruct (decide _); intros Hp; try discriminate Hp;
    injection Hp as <-; apply list_elem_of_In; simpl; tauto.
Qed.

(** [_find_available_agent] returns an agent that has spare capacity. *)
Lemma find_available_agent_available self priority ticket_type a :
  _find_available_agent self priority ticket_type = Some a →
  is_agent_available self a = true.
Proof.
  find_cases; intros Hf; simplify_eq;
    try (by apply andb_true_iff in Hc as [_ ?]);
    try (by apply find_is_Some_available in Hs as [? _]);
    by apply find_is_Some_available in Hf as [? _].
Qed.

(** On the registry of [__init__] it returns one of the three agents. *)
Lemma find_available_agent_known self priority ticket_type a :
  registry_ok self →
  _find_available_agent self priority ticket_type = Some a →
  a ∈ agents.
Proof.
  intros Hreg. find_cases; intros Hf; simplify_eq;
    try (by eapply primary_agent_known);
    try (apply find_is_Some_available in Hs as [_ ?];
         by eapply secondary_agents_known);
    apply find_is_Some_available in Hf as [_ ?]; by rewrite <- Hreg.
Qed.

(** ** The loop body of a drain *)

Ltac unfold_M :=
  unfold bind, ret, raise, gets, modify, getitem, setattr, agent_append.

Lemma visit_evaluate self locals ticket_id :
  registry_ok self →
  is_Some (tickets self !! ticket_id) →
  visit locals ticket_id self =
    (Returned
       (locals.1 ++ (assignment_ticket_id <$> option_list (evaluate ticket_id self).1),
        locals.2 ++ option_list (evaluate ticket_id self).1),
     (evaluate ticket_id self).2).
Proof.
  intros Hreg [ticket Hticket]. destruct locals as [rm made].
  unfold visit, evaluate. unfold_M. rewrite Hticket. simpl.
  destruct (_find_available_agent self (priority ticket) (ticket_type ticket))
    as [agent|] eqn:Hfind.
  - pose proof (find_available_agent_known _ _ _ _ Hreg Hfind) as Hagent.
    destruct (registry_shape _ Hreg) as (l1 & l2 & l3 & Hshape).
    unfold assign, workload, set_agent_tickets, set_tickets, agent_id_of.
    unfold agents in Hagent.
    apply elem_of_cons in Hagent as [->|Hagent];
      [|apply elem_of_cons in Hagent as [->|Hagent];
        [|apply elem_of_cons in Hagent as [->|Hagent];
          [|by apply elem_of_nil in Hagent]]];
      simpl; rewrite ?Hfind; simpl; rewrite ?Hshape; simpl;
      rewrite ?Hfind; simpl; by rewrite !insert_insert_eq.
  - simpl. rewrite ?Hfind. simpl. by rewrite !app_nil_r.
Qed.

(** ** Dictionaries and removal *)

Section dict_facts.
Context {K V : Type} `{EqDecision K}.
Implicit Types (d : list (K * V)) (k : K) (v : V).

Lemma dict_get_set_eq d k v : dict_get (dict_set d k v) k = Some v.
Proof.
  induction d as [|[k' v'] d IH]; simpl.
  - by rewrite decide_True.
  - destruct (decide (k = k')) as [->|Hne]; simpl.
    + by rewrite decide_True.
    + by rewrite decide_False.
Qed.

Lemma dict_get_set_ne d k k' v :
  k ≠ k' → dict_get (dict_set d k v) k' = dict_get d k'.
Proof.
  intros Hne. induction d as [|[k0 v0] d IH]; simpl.
  - by rewrite decide_False.
  - destruct (decide (k = k0)) as [->|Hne0]; simpl.
    + by rewrite !decide_False.
    + by rewrite IH.
Qed.

Lemma dict_get_Some_key d k v : dict_get d k = Some v → k ∈ dict_keys d.
Proof.
  unfold dict_keys. induction d as [|[k' v'] d IH]; simpl; [done|].
  destruct (decide (k = k')) as [->|Hne].
  - intros _. left.
  - intros Hd. right. by apply IH.
Qed.

Lemma dict_keys_set d k v :
  k ∈ dict_keys d → dict_keys (dict_set d k v) = dict_keys d.
Proof.
  unfold dict_keys. induction d as [|[k' v'] d IH]; simpl.
  - by intros ?%elem_of_nil.
  - intros Hk. destruct (decide (k = k')) as [->|Hne]; simpl; [done|].
    f_equal. apply IH. by apply elem_of_cons in Hk as [?|?].
Qed.

(** Replacing the value of a key replaces one block of the values. *)
Lemma dict_set_values d k (l l' : V) :
  dict_get d k = Some l →
  ∃ before after,
    d.*2 = before ++ l :: after ∧ (dict_set d k l').*2 = before ++ l' :: after.
Proof.
  induction d as [|[k' v'] d IH]; intros Hd; simpl in Hd; [done|].
  cbn [dict_set]. destruct (decide (k = k')) as [->|Hne].
  - injection Hd as ->. by exists [], d.*2.
  - destruct (IH Hd) as (before & after & Hget & Hset).
    exists (v' :: before), after. by rewrite !fmap_cons, Hget, Hset.
Qed.

End dict_facts.

Lemma list_remove_Some (x : string) l :
  x ∈ l → ∃ r, list_remove x l = Some r ∧ l ≡ₚ x :: r ∧ sublist r l.
Proof.
  induction l as [|y l IH]; [by intros ?%elem_of_nil|].
  intros Hx. simpl. destruct (decide (x = y)) as [->|Hne].
  - exists l. split_and!; [done..|]. by apply sublist_cons.
  - apply elem_of_cons in Hx as [?|Hx]; [done|].
    destruct (IH Hx) as (r & -> & Hp & Hs). exists (y :: r). split_and!.
    + done.
    + rewrite Hp. apply Permutation_swap.
    + by apply sublist_skip.
Qed.

Lemma list_remove_None (x : string) l : x ∉ l → list_remove x l = None.
Proof.
  induction l as [|y l IH]; [done|]. intros Hx.
  apply not_elem_of_cons in Hx as [Hne Hx]. simpl.
  by rewrite decide_False, IH.
Qed.

(** Removing ids that the list holds removes exactly those occurrences
    and keeps the others in place. *)
Lemma remove_each_spec rm l :
  rm ⊆+ l → l ≡ₚ rm ++ remove_each rm l ∧ sublist (remove_each rm l) l.
Proof.
  revert l. induction rm as [|x rm IH]; intros l Hsub; simpl; [done|].
  assert (x ∈ l) as Hx by (eapply elem_of_submseteq; [left|done]).
  destruct (list_remove_Some _ _ Hx) as (r & -> & Hp & Hs). simpl.
  assert (rm ⊆+ r) as Hrm.
  { rewrite Hp in Hsub. by apply (submseteq_app_inv_l _ _ [x]) in Hsub. }
  destruct (IH _ Hrm) as [Hp' Hs']. split.
  - by rewrite Hp, Hp' at 1.
  - by etrans.
Qed.

Lemma dict_get_is_Some {K V} `{EqDecision K} (d : list (K * V)) k :
  k ∈ dict_keys d → is_Some (dict_get d k).
Proof.
  unfold dict_keys. induction d as [|[k' v'] d IH]; intros Hk.
  - by apply elem_of_nil in Hk.
  - simpl. destruct (decide (k = k')); [done|].
    rewrite fmap_cons in Hk. apply elem_of_cons in Hk as [?|?]; [done|].
    by apply IH.
Qed.

(** ** One assignment *)

Lemma assign_queue_get queue x a t self :
  queue_get queue (assign x a t self) = queue_get queue self.
Proof. by destruct queue. Qed.

Lemma assign_registry_ok x a t self :
  registry_ok self → a ∈ agents → registry_ok (assign x a t self).
Proof.
  unfold registry_ok. intros Hreg Ha. simpl.
  rewrite dict_keys_set; [done|]. by rewrite Hreg.
Qed.

Lemma assign_workload_eq x a t self :
  workload (assign x a t self) a = workload self a ++ [x].
Proof. unfold workload at 1. simpl. by rewrite dict_get_set_eq. Qed.

Lemma assign_workload_ne x a b t self :
  a ≠ b → workload (assign x a t self) b = workload self b.
Proof. intros Hne. unfold workload. simpl. by rewrite dict_get_set_ne. Qed.

Lemma assign_held x a t self :
  registry_ok self → a ∈ agents → held (assign x a t self) ≡ₚ x :: held self.
Proof.
  intros Hreg Ha. unfold held. simpl. unfold workload.
  destruct (dict_get_is_Some (agent_tickets self) a) as [l Hl];
    [by rewrite Hreg|].
  rewrite Hl. simpl.
  destruct (dict_set_values _ _ _ (l ++ [x]) Hl) as (before & after & -> & ->).
  rewrite !concat_app, !concat_cons, <- (assoc_L (++) l [x]). simpl.
  rewrite !(assoc_L (++) (concat before) l). symmetry.
  apply Permutation_middle.
Qed.

Lemma workload_held self a x : x ∈ workload self a → x ∈ held self.
Proof.
  unfold workload, held.
  destruct (dict_get (agent_tickets self) a) as [l|] eqn:Hl; simpl;
    [|by intros ?%elem_of_nil].
  intros Hx. destruct (dict_set_values _ _ _ l Hl) as (before & after & -> & _).
  rewrite concat_app, concat_cons, !elem_of_app. auto.
Qed.

(** ** One evaluation, and a walk *)

Lemma evaluate_cases x self :
  evaluate x self = (None, self) ∨
  ∃ t a,
    tickets self !! x = Some t ∧
    _find_available_agent self (priority t) (ticket_type t) = Some a ∧
    evaluate x self =
      (Some (mkAssignment x a (agent_id_of a)), assign x a t self).
Proof.
  unfold evaluate. destruct (tickets self !! x) as [t|]; [|by left].
  destruct (_find_available_agent _ _ _) as [a|] eqn:Hfind; [|by left].
  right. by exists t, a.
Qed.

Lemma walk_cons x l self :
  walk (x :: l) self =
    (option_list (evaluate x self).1 ++ (walk l (evaluate x self).2).1,
     (walk l (evaluate x self).2).2).
Proof. simpl. destruct (evaluate x self), (walk l _). done. Qed.

Lemma walk_app l1 l2 self :
  walk (l1 ++ l2) self =
    ((walk l1 self).1 ++ (walk l2 (walk l1 self).2).1,
     (walk l2 (walk l1 self).2).2).
Proof.
  revert self. induction l1 as [|x l1 IH]; intros self.
  - simpl. by destruct (walk l2 self).
  - rewrite <- app_comm_cons, !walk_cons, IH. simpl. by rewrite (assoc_L (++)).
Qed.

(** A property kept by every assignment that [_find_available_agent]
    allows is kept by a walk. *)
Lemma walk_invariant (P : TicketClassifier → Prop) l self :
  (∀ s x t a,
     P s → tickets s !! x = Some t →
     _find_available_agent s (priority t) (ticket_type t) = Some a →
     P (assign x a t s)) →
  P self → P (walk l self).2.
Proof.
  intros Hstep. revert self. induction l as [|x l IH]; intros self HP; [done|].
  rewrite walk_cons. simpl. apply IH.
  destruct (evaluate_cases x self) as [->|(t & a & Ht & Hfind & ->)]; [done|].
  simpl. by eapply Hstep.
Qed.

Lemma walk_registry_ok l self : registry_ok self → registry_ok (walk l self).2.
Proof.
  apply walk_invariant. intros s x t a Hreg _ Hfind.
  apply assign_registry_ok; [done|]. by eapply find_available_agent_known.
Qed.

Lemma walk_queue_get queue l self :
  queue_get queue (walk l self).2 = queue_get queue self.
Proof.
  apply (walk_invariant (λ s, queue_get queue s = queue_get queue self));
    [|done].
  intros s x t a <- _ _. apply assign_queue_get.
Qed.

Lemma walk_store_grows l self x :
  is_Some (tickets self !! x) → is_Some (tickets (walk l self).2 !! x).
Proof.
  apply (walk_invariant (λ s, is_Some (tickets s !! x))).
  intros s y t a Hx _ _. simpl. destruct (decide (y = x)) as [->|Hne].
  - by rewrite lookup_insert_eq.
  - by rewrite lookup_insert_ne.
Qed.

Lemma walk_workload_grows l self a x :
  registry_ok self → x ∈ workload self a → x ∈ workload (walk l self).2 a.
Proof.
  intros Hreg Hx.
  apply (walk_invariant (λ s, x ∈ workload s a)); [|done].
  intros s y t b Hin _ _. destruct (decide (b = a)) as [->|Hne].
  - rewrite assign_workload_eq. apply elem_of_app. by left.
  - by rewrite assign_workload_ne.
Qed.

(** The ids assigned by a walk, in the order of their assignment. *)
Lemma walk_made_sublist l self :
  sublist (assignment_ticket_id <$> (walk l self).1) l.
Proof.
  revert self. induction l as [|x l IH]; intros self; [done|].
  rewrite walk_cons. simpl. rewrite fmap_app.
  destruct (evaluate_cases x self) as [->|(t & a & _ & _ & ->)]; simpl.
  - by apply sublist_cons.
  - by apply sublist_skip.
Qed.

Lemma walk_held l self :
  registry_ok self →
  held (walk l self).2 ≡ₚ held self ++ (assignment_ticket_id <$> (walk l self).1).
Proof.
  revert self. induction l as [|x l IH]; intros self Hreg.
  - simpl. by rewrite app_nil_r.
  - rewrite walk_cons. simpl. rewrite fmap_app.
    destruct (evaluate_cases x self) as [He|(t & a & _ & Hfind & He)];
      rewrite He; simpl.
    + by apply IH.
    + pose proof (find_available_agent_known _ _ _ _ Hreg Hfind) as Ha.
      rewrite IH by by apply assign_registry_ok.
      rewrite assign_held by done. by rewrite <- Permutation_middle.
Qed.

Lemma walk_tickets_other l self x :
  x ∉ assignment_ticket_id <$> (walk l self).1 →
  tickets (walk l self).2 !! x = tickets self !! x.
Proof.
  revert self. induction l as [|y l IH]; intros self; [done|].
  rewrite walk_cons. simpl. rewrite fmap_app.
  destruct (evaluate_cases y self) as [He|(t & a & _ & _ & He)];
    rewrite He; simpl.
  - apply IH.
  - intros [Hne Hx]%not_elem_of_cons. rewrite IH by done. simpl.
    by rewrite lookup_insert_ne.
Qed.

(** A ticket that a walk assigned is pending with an agent of the
    registry whose workload holds it. *)
Lemma walk_tickets_made l self x :
  registry_ok self →
  x ∈ assignment_ticket_id <$> (walk l self).1 →
  ∃ t a,
    tickets (walk l self).2 !! x = Some t ∧
    status t = TICKET_STATUS.PENDING ∧ assigned_agent t = Some a ∧
    a ∈ agents ∧ x ∈ workload (walk l self).2 a.
Proof.
  revert self. induction l as [|y l IH]; intros self Hreg.
  - simpl. by intros ?%elem_of_nil.
  - rewrite walk_cons. simpl. rewrite fmap_app.
    destruct (evaluate_cases y self) as [He|(t & a & _ & Hfind & He)];
      rewrite He; simpl.
    + by apply IH.
    + pose proof (find_available_agent_known _ _ _ _ Hreg Hfind) as Ha.
      pose proof (assign_registry_ok y a t self Hreg Ha) as Hreg'.
      destruct (decide (x ∈ assignment_ticket_id <$> (walk l (assign y a t self)).1))
        as [Hin|Hout].
      * intros _. by apply IH.
      * intros [->|?]%elem_of_cons; [|done].
        exists (assigned_ticket a t), a.
        rewrite walk_tickets_other by done. simpl.
        rewrite lookup_insert_eq. split_and!; try done.
        apply walk_workload_grows; [done|].
        rewrite assign_workload_eq. apply elem_of_app. right. left.
Qed.

Lemma walk_singleton x self : (walk [x] self).2 = (evaluate x self).2.
Proof. by rewrite walk_cons. Qed.

(** ** [_process_queues] computes [drain] *)

Lemma for_each_visit l self locals :
  registry_ok self →
  Forall (λ x, is_Some (tickets self !! x)) l →
  for_each l visit locals self =
    (Returned
       (locals.1 ++ (assignment_ticket_id <$> (walk l self).1),
        locals.2 ++ (walk l self).1),
     (walk l self).2).
Proof.
  revert self locals. induction l as [|x l IH]; intros self locals Hreg Hl.
  - simpl. unfold ret. rewrite !app_nil_r. by destruct locals.
  - apply Forall_cons in Hl as [Hx Hl].
    cbn [for_each]. unfold bind. rewrite visit_evaluate by done.
    rewrite walk_cons.
    assert (registry_ok (evaluate x self).2) as Hreg'.
    { rewrite <- walk_singleton. by apply walk_registry_ok. }
    rewrite IH; [|done|].
    + simpl. by rewrite fmap_app, !(assoc_L (++)).
    + eapply Forall_impl; [done|]. intros y Hy. simpl in Hy.
      rewrite <- walk_singleton. by apply walk_store_grows.
Qed.

Lemma queue_get_put queue v self : queue_get queue (queue_put queue v self) = v.
Proof. by destruct queue. Qed.

Lemma queue_put_put queue v v' self :
  queue_put queue v (queue_put queue v' self) = queue_put queue v self.
Proof. by destruct queue. Qed.

Lemma queue_put_get queue self : queue_put queue (queue_get queue self) self = self.
Proof. by destruct queue, self. Qed.

Lemma for_each_unqueue queue rm self :
  rm ⊆+ queue_get queue self →
  for_each rm (unqueue queue) tt self =
    (Returned tt, queue_put queue (remove_each rm (queue_get queue self)) self).
Proof.
  revert self. induction rm as [|x rm IH]; intros self Hsub.
  - simpl. unfold ret. by rewrite queue_put_get.
  - assert (x ∈ queue_get queue self) as Hx
      by (eapply elem_of_submseteq; [left|done]).
    destruct (list_remove_Some _ _ Hx) as (r & Hr & Hp & _).
    cbn [for_each remove_each]. unfold bind, unqueue, bind, gets, modify.
    rewrite Hr. simpl. rewrite IH.
    + by rewrite queue_get_put, queue_put_put.
    + rewrite queue_get_put. rewrite Hp in Hsub.
      by apply (submseteq_app_inv_l _ _ [x]) in Hsub.
Qed.

Lemma process_queue_drain_queue queue made self :
  registry_ok self →
  Forall (λ x, is_Some (tickets self !! x)) (queue_get queue self) →
  process_queue made queue self =
    (Returned (made ++ (drain_queue queue self).1), (drain_queue queue self).2).
Proof.
  intros Hreg Hq. unfold process_queue, drain_queue, bind, gets, ret.
  rewrite for_each_visit by done. simpl.
  destruct (walk (queue_get queue self) self) as [new self'] eqn:Hwalk. simpl.
  rewrite for_each_unqueue; [done|].
  replace self' with (walk (queue_get queue self) self).2 by by rewrite Hwalk.
  rewrite walk_queue_get. apply sublist_submseteq.
  replace new with (walk (queue_get queue self) self).1 by by rewrite Hwalk.
  apply walk_made_sublist.
Qed.

Lemma drain_queue_unfold queue self :
  drain_queue queue self =
    ((walk (queue_get queue self) self).1,
     queue_put queue
       (remove_each
          (assignment_ticket_id <$> (walk (queue_get queue self) self).1)
          (queue_get queue self))
       (walk (queue_get queue self) self).2).
Proof.
  unfold drain_queue.
  pose proof (walk_queue_get queue (queue_get queue self) self) as Hq.
  destruct (walk (queue_get queue self) self) as [made self']. simpl in *.
  by rewrite Hq.
Qed.

Lemma queue_get_put_ne queue queue' v self :
  queue ≠ queue' → queue_get queue' (queue_put queue v self) = queue_get queue' self.
Proof. by destruct queue, queue'. Qed.

Lemma drain_queue_queue_get_ne queue queue' self :
  queue ≠ queue' →
  queue_get queue' (drain_queue queue self).2 = queue_get queue' self.
Proof.
  intros Hne. rewrite drain_queue_unfold. simpl.
  by rewrite queue_get_put_ne, walk_queue_get.
Qed.

Lemma drain_queue_queue_get queue self :
  queue_get queue (drain_queue queue self).2 =
    remove_each (assignment_ticket_id <$> (drain_queue queue self).1)
      (queue_get queue self).
Proof. rewrite drain_queue_unfold. simpl. by rewrite queue_get_put. Qed.

(** A property that does not look at the queues and that every allowed
    assignment keeps is kept by a drain. *)
Lemma drain_queue_invariant (P : TicketClassifier → Prop) queue self :
  (∀ s q v, P s → P (queue_put q v s)) →
  (∀ s x t a,
     P s → tickets s !! x = Some t →
     _find_available_agent s (priority t) (ticket_type t) = Some a →
     P (assign x a t s)) →
  P self → P (drain_queue queue self).2.
Proof.
  intros Hput Hstep HP. rewrite drain_queue_unfold. simpl.
  apply Hput. by apply walk_invariant.
Qed.

Lemma drain_unfold self :
  drain self =
    let r1 := drain_queue high_priority_queue_ref self in
    let r2 := drain_queue medium_priority_queue_ref r1.2 in
    let r3 := drain_queue low_priority_queue_ref r2.2 in
    (r1.1 ++ r2.1 ++ r3.1, r3.2).
Proof.
  unfold drain.
  destruct (drain_queue high_priority_queue_ref self) as [m1 s1]. simpl.
  destruct (drain_queue medium_priority_queue_ref s1) as [m2 s2]. simpl.
  by destruct (drain_queue low_priority_queue_ref s2) as [m3 s3].
Qed.

Lemma drain_invariant (P : TicketClassifier → Prop) self :
  (∀ s q v, P s → P (queue_put q v s)) →
  (∀ s x t a,
     P s → tickets s !! x = Some t →
     _find_available_agent s (priority t) (ticket_type t) = Some a →
     P (assign x a t s)) →
  P self → P (drain self).2.
Proof.
  intros Hput Hstep HP. rewrite drain_unfold. simpl.
  do 3 (apply drain_queue_invariant; [done..|]). done.
Qed.

Lemma queue_put_registry_ok queue v self :
  registry_ok self → registry_ok (queue_put queue v self).
Proof. by destruct queue. Qed.

Lemma drain_queue_registry_ok queue self :
  registry_ok self → registry_ok (drain_queue queue self).2.
Proof.
  apply drain_queue_invariant.
  - intros s q v. apply queue_put_registry_ok.
  - intros s x t a Hreg _ Hfind.
    apply assign_registry_ok; [done|]. by eapply find_available_agent_known.
Qed.

Lemma drain_queue_store_grows queue self x :
  is_Some (tickets self !! x) → is_Some (tickets (drain_queue queue self).2 !! x).
Proof.
  apply (drain_queue_invariant (λ s, is_Some (tickets s !! x))).
  - intros s q v. by destruct q.
  - intros s y t a Hx _ _. simpl. destruct (decide (y = x)) as [->|Hne].
    + by rewrite lookup_insert_eq.
    + by rewrite lookup_insert_ne.
Qed.

(** On an instance with the registry of [__init__] whose queued ids are
    all stored, [_process_queues] returns, and computes [drain]. *)
Lemma process_queues_drain self :
  registry_ok self →
  Forall (λ x, is_Some (tickets self !! x)) (queued self) →
  _process_queues self = (Returned (drain self).1, (drain self).2).
Proof.
  intros Hreg Hq. unfold queued in Hq.
  apply Forall_app in Hq as [Hhigh Hq]. apply Forall_app in Hq as [Hmed Hlow].
  unfold _process_queues. cbn [for_each]. unfold bind.
  rewrite (process_queue_drain_queue high_priority_queue_ref) by done.
  set (r1 := drain_queue high_priority_queue_ref self).
  assert (registry_ok r1.2) as Hreg1 by by apply drain_queue_registry_ok.
  rewrite (process_queue_drain_queue medium_priority_queue_ref); [|done|]; last first.
  { unfold r1. rewrite drain_queue_queue_get_ne by done.
    eapply Forall_impl; [exact Hmed|]. intros x. apply drain_queue_store_grows. }
  set (r2 := drain_queue medium_priority_queue_ref r1.2).
  assert (registry_ok r2.2) as Hreg2 by by apply drain_queue_registry_ok.
  rewrite (process_queue_drain_queue low_priority_queue_ref); [|done|]; last first.
  { unfold r2, r1. rewrite !drain_queue_queue_get_ne by done.
    eapply Forall_impl; [exact Hlow|]. intros x Hx.
    by do 2 apply drain_queue_store_grows. }
  rewrite drain_unfold. unfold ret. simpl. by rewrite (assoc_L (++)).
Qed.

(** ** [create_ticket] and [close_ticket] as functions *)

Lemma find_available_agent_ext self self' priority ticket_type :
  agent_tickets self = agent_tickets self' →
  _find_available_agent self priority ticket_type =
    _find_available_agent self' priority ticket_type.
Proof.
  intros Heq. unfold _find_available_agent, is_agent_available, get_agent_load.
  by rewrite Heq.
Qed.

Lemma reads_ret {A} (a : A) : reads (ret a).
Proof. done. Qed.

Lemma reads_raise {A} e : reads (@raise A e).
Proof. done. Qed.

Lemma reads_gets {A} (f : TicketClassifier → A) : reads (gets f).
Proof. done. Qed.

Lemma reads_getitem {A} (o : option A) : reads (getitem o).
Proof. by destruct o. Qed.

Lemma reads_bind {A B} (m : M A) (k : A → M B) :
  reads m → (∀ a, reads (k a)) → reads (bind m k).
Proof.
  intros Hm Hk self. unfold bind. specialize (Hm self).
  destruct (m self) as [[a|e] self']; simpl in *; subst; [apply Hk|done].
Qed.

Lemma reads_index proba i : reads (index proba i).
Proof. unfold index. destruct (_ !! _); [apply reads_ret|apply reads_raise]. Qed.

Lemma predict_agent_state priority ticket_type self :
  (predict_agent priority ticket_type self).2 = self.
Proof.
  revert self. change (reads (predict_agent priority ticket_type)).
  unfold predict_agent, _encode_input.
  apply reads_bind; [apply reads_gets|]. intros loaded.
  destruct loaded; cbn [negb]; [|apply reads_raise].
  apply reads_bind.
  { apply reads_bind; [apply reads_getitem|]. intros p.
    apply reads_bind; [apply reads_getitem|]. intros t. apply reads_ret. }
  intros x. apply reads_bind; [apply reads_gets|]. intros [net|];
    [|apply reads_raise].
  apply reads_bind; [apply reads_getitem|]. intros agent.
  do 4 (apply reads_bind; [apply reads_index|]; intros ?).
  apply reads_ret.
Qed.

(** Running the primitives under a [bind]. *)
Lemma bind_Returned {A B} (m : M A) (k : A → M B) self a self' :
  m self = (Returned a, self') → bind m k self = k a self'.
Proof. unfold bind. by intros ->. Qed.

Lemma bind_Raised {A B} (m : M A) (k : A → M B) self e self' :
  m self = (Raised e, self') → bind m k self = (Raised e, self').
Proof. unfold bind. by intros ->. Qed.

Lemma bind_gets {A B} (f : TicketClassifier → A) (k : A → M B) self :
  bind (gets f) k self = k (f self) self.
Proof. done. Qed.

Lemma bind_modify {B} f (k : unit → M B) self :
  bind (modify f) k self = k tt (f self).
Proof. done. Qed.

Lemma bind_ret {A B} (a : A) (k : A → M B) self : bind (ret a) k self = k a self.
Proof. done. Qed.

Lemma bind_setattr {B} ticket_id upd ticket (k : Ticket → M B) self :
  bind (setattr ticket_id upd ticket) k self =
    k (upd ticket)
      (set_tickets (<[ticket_id := upd ticket]> (tickets self)) self).
Proof. done. Qed.

Lemma bind_agent_append {B} agent ticket_id (k : unit → M B) self :
  agent ∈ dict_keys (agent_tickets self) →
  bind (agent_append agent ticket_id) k self =
    k tt
      (set_agent_tickets
         (dict_set (agent_tickets self) agent (workload self agent ++ [ticket_id]))
         self).
Proof.
  intros [l Hl]%dict_get_is_Some. unfold agent_append, workload.
  unfold_M. by rewrite Hl.
Qed.

Lemma agent_id_known agent :
  agent ∈ agents → dict_get AGENT_IDS agent = Some (agent_id_of agent).
Proof.
  unfold agents, agent_id_of. intros Ha.
  apply elem_of_cons in Ha as [->|Ha];
    [|apply elem_of_cons in Ha as [->|Ha];
      [|apply elem_of_cons in Ha as [->|Ha]; [|by apply elem_of_nil in Ha]]];
    done.
Qed.

Lemma agent_nonempty agent : agent ∈ agents → truthy (Some agent) = true.
Proof.
  unfold agents. intros Ha.
  apply elem_of_cons in Ha as [->|Ha];
    [|apply elem_of_cons in Ha as [->|Ha];
      [|apply elem_of_cons in Ha as [->|Ha]; [|by apply elem_of_nil in Ha]]];
    done.
Qed.

(** [create_ticket] either raises before it changes anything, or stores
    and routes the ticket it built from valid lower-case fields. *)
Lemma create_ticket_state now ticket_id p ty self :
  registry_ok self →
  (create_ticket now ticket_id p ty self).2 = self ∨
  lower p ∈ PRIORITY_LEVELS ∧ lower ty ∈ TICKET_TYPES ∧
  ∃ prediction,
    (create_ticket now ticket_id p ty self).2 =
      place ticket_id
        (new_ticket now ticket_id (lower p) (lower ty) prediction)
        self.
Proof.
  intros Hreg. unfold create_ticket.
  destruct (bool_decide (lower p ∈ PRIORITY_LEVELS)) eqn:Hp; [|by left].
  destruct (bool_decide (lower ty ∈ TICKET_TYPES)) eqn:Ht; [|by left].
  apply bool_decide_eq_true in Hp, Ht. cbn [negb]. rewrite bind_gets.
  assert (∃ o : outcome (option (string * float * list (string * float))),
    (if model_loaded self
     then bind (predict_agent (lower p) (lower ty)) (λ r, ret (Some r))
     else ret None) self = (o, self)) as [o Ho].
  { destruct (model_loaded self); [|by eexists].
    unfold bind, ret.
    pose proof (predict_agent_state (lower p) (lower ty) self) as Hst.
    destruct (predict_agent _ _ self) as [[r|e] s']; simpl in Hst; subst;
      by eexists. }
  destruct o as [prediction|e];
    [|left; by rewrite (bind_Raised _ _ _ _ _ Ho)].
  right. split_and!; [done..|]. exists prediction.
  rewrite (bind_Returned _ _ _ _ _ Ho), bind_modify, bind_gets.
  fold (new_ticket now ticket_id (lower p) (lower ty) prediction).
  set (ticket := new_ticket now ticket_id (lower p) (lower ty) prediction).
  rewrite (find_available_agent_ext _ self) by done.
  unfold place. change (priority ticket) with (lower p).
  change (ticket_type ticket) with (lower ty).
  destruct (_find_available_agent self (lower p) (lower ty))
    as [agent|] eqn:Hfind.
  - pose proof (find_available_agent_known _ _ _ _ Hreg Hfind) as Hagent.
    rewrite (agent_nonempty _ Hagent). cbn [default from_option Datatypes.id].
    rewrite (bind_Returned _ _ _ (assigned_ticket agent ticket)
               (assign ticket_id agent ticket self)); [done|].
    rewrite bind_setattr.
    erewrite (bind_Returned (getitem _)); [|by rewrite agent_id_known].
    rewrite !bind_setattr, bind_agent_append by (simpl; by rewrite Hreg).
    unfold ret, assign, workload, set_agent_tickets, set_tickets. simpl.
    by rewrite !insert_insert_eq.
  - cbn [truthy].
    rewrite (bind_Returned _ _ _ ticket (enqueue ticket_id ticket self)); [done|].
    rewrite bind_modify. unfold setattr. rewrite bind_modify. unfold ret.
    unfold enqueue. change (priority ticket) with (lower p).
    destruct (_get_queue_for_priority (lower p)); simpl;
      by rewrite insert_insert_eq.
Qed.

Lemma close_ticket_unknown ticket_id self :
  tickets self !! ticket_id = None →
  close_ticket ticket_id self = (Raised ValueError, self).
Proof. intros Hnone. unfold close_ticket. rewrite bind_gets. by rewrite Hnone. Qed.

Lemma close_ticket_closed ticket_id ticket self :
  tickets self !! ticket_id = Some ticket →
  status ticket = TICKET_STATUS.CLOSED →
  close_ticket ticket_id self =
    (Returned (already_closed "Ticket already closed" ticket_id), self).
Proof.
  intros Hticket Hclosed. unfold close_ticket. rewrite bind_gets, Hticket.
  by rewrite bool_decide_eq_true_2.
Qed.

(** On a ticket that is not closed, [close_ticket] is [release] followed
    by [_process_queues]. *)
Lemma close_ticket_open ticket_id ticket self :
  registry_ok self →
  tickets self !! ticket_id = Some ticket →
  status ticket ≠ TICKET_STATUS.CLOSED →
  (∀ a, assigned_agent ticket = Some a → a ∈ agents) →
  close_ticket ticket_id self =
    bind _process_queues
      (λ newly_assigned,
         ret (closure ticket_id TICKET_STATUS.CLOSED (assigned_agent ticket)
                newly_assigned))
      (release ticket_id ticket self).
Proof.
  intros Hreg Hticket Hopen Hknown. unfold close_ticket.
  rewrite bind_gets, Hticket, bool_decide_eq_false_2 by done.
  rewrite bind_setattr. unfold release.
  destruct (assigned_agent ticket) as [a|] eqn:Hagent;
    [|cbn [truthy]; by rewrite bind_ret].
  pose proof (Hknown a eq_refl) as Ha.
  rewrite (agent_nonempty _ Ha). cbn [default from_option Datatypes.id].
  destruct (dict_get_is_Some (agent_tickets self) a) as [l Hl];
    [by rewrite Hreg|].
  unfold workload. rewrite Hl. cbn [default from_option Datatypes.id].
  destruct (decide (ticket_id ∈ l)) as [Hin|Hout].
  - destruct (list_remove_Some _ _ Hin) as (rest & Hrest & _).
    erewrite (bind_Returned (bind _ _) _ _ tt); [done|].
    erewrite (bind_Returned (bind (gets _) _) _ _ l);
      [|rewrite bind_gets; simpl; by rewrite Hl].
    by rewrite (bool_decide_eq_true_2 _ Hin), Hrest.
  - rewrite (list_remove_None _ _ Hout).
    erewrite (bind_Returned (bind _ _) _ _ tt); [done|].
    erewrite (bind_Returned (bind (gets _) _) _ _ l);
      [|rewrite bind_gets; simpl; by rewrite Hl].
    by rewrite (bool_decide_eq_false_2 _ Hout).
Qed.

(** ** What a drain moves *)

(** A drain of one queue moves the ids it assigns from that queue to the
    workloads; nothing is duplicated and nothing is lost. *)
Lemma drain_queue_moves queue self :
  registry_ok self →
  let made := assignment_ticket_id <$> (drain_queue queue self).1 in
  held (drain_queue queue self).2 ≡ₚ held self ++ made ∧
  queue_get queue self ≡ₚ made ++ queue_get queue (drain_queue queue self).2 ∧
  sublist (queue_get queue (drain_queue queue self).2) (queue_get queue self).
Proof.
  intros Hreg made. subst made. rewrite drain_queue_queue_get.
  rewrite drain_queue_unfold. cbn [fst snd].
  destruct (remove_each_spec
    (assignment_ticket_id <$> (walk (queue_get queue self) self).1)
    (queue_get queue self)) as [Hp Hs].
  { apply sublist_submseteq, walk_made_sublist. }
  split_and!; [|done..].
  rewrite <- walk_held by done. by destruct queue.
Qed.

Lemma queued_queue_get self :
  queued self =
    queue_get high_priority_queue_ref self
      ++ queue_get medium_priority_queue_ref self
      ++ queue_get low_priority_queue_ref self.
Proof. done. Qed.

Lemma drain_queue_places queue self :
  registry_ok self → places (drain_queue queue self).2 ≡ₚ places self.
Proof.
  intros Hreg. destruct (drain_queue_moves queue self Hreg) as (Hh & Hq & _).
  unfold places. rewrite Hh, !queued_queue_get.
  destruct queue.
  - rewrite (drain_queue_queue_get_ne _ medium_priority_queue_ref) by done.
    rewrite (drain_queue_queue_get_ne _ low_priority_queue_ref) by done.
    rewrite Hq. solve_Permutation.
  - rewrite (drain_queue_queue_get_ne _ high_priority_queue_ref) by done.
    rewrite (drain_queue_queue_get_ne _ low_priority_queue_ref) by done.
    rewrite Hq. solve_Permutation.
  - rewrite (drain_queue_queue_get_ne _ high_priority_queue_ref) by done.
    rewrite (drain_queue_queue_get_ne _ medium_priority_queue_ref) by done.
    rewrite Hq. solve_Permutation.
Qed.

Lemma drain_registry_ok self : registry_ok self → registry_ok (drain self).2.
Proof.
  intros Hreg. rewrite drain_unfold. simpl.
  by do 3 apply drain_queue_registry_ok.
Qed.

Lemma drain_places self : registry_ok self → places (drain self).2 ≡ₚ places self.
Proof.
  intros Hreg. rewrite drain_unfold. simpl.
  rewrite !drain_queue_places; [done|done|..].
  - by apply drain_queue_registry_ok.
  - by do 2 apply drain_queue_registry_ok.
Qed.

Lemma drain_store_grows self x :
  is_Some (tickets self !! x) → is_Some (tickets (drain self).2 !! x).
Proof.
  intros Hx. rewrite drain_unfold. simpl. by do 3 apply drain_queue_store_grows.
Qed.

(** ** Consistency is kept by every call *)

Lemma store_covers_elem_of self :
  store_covers self ↔ ∀ x, x ∈ places self → is_Some (tickets self !! x).
Proof. apply Forall_forall. Qed.

Lemma init_consistent loaded : consistent (init loaded).
Proof.
  split_and!.
  - done.
  - by apply Forall_nil.
  - intros x t a Hx. simpl in Hx. by rewrite lookup_empty in Hx.
Qed.

Lemma assign_consistent x a t self :
  consistent self → a ∈ agents → consistent (assign x a t self).
Proof.
  intros (Hreg & Hcov & Hknown) Ha. split_and!.
  - by apply assign_registry_ok.
  - apply store_covers_elem_of. intros y. unfold places.
    rewrite elem_of_app, assign_held, elem_of_cons by done. simpl.
    intros Hy. destruct (decide (x = y)) as [->|Hne].
    + by rewrite lookup_insert_eq.
    + rewrite lookup_insert_ne by done.
      apply (proj1 (store_covers_elem_of self) Hcov).
      unfold places. rewrite elem_of_app. by destruct Hy as [[?|?]|?]; auto.
  - intros y t' b. simpl. destruct (decide (x = y)) as [->|Hne].
    + rewrite lookup_insert_eq. intros [= <-]. simpl. by intros [= <-].
    + rewrite lookup_insert_ne by done. apply Hknown.
Qed.

Lemma enqueue_places x t self :
  places (enqueue x t self) ≡ₚ x :: places self.
Proof.
  unfold places, enqueue, queued.
  destruct (_get_queue_for_priority (priority t)); simpl; solve_Permutation.
Qed.

Lemma enqueue_consistent x t self :
  consistent self → assigned_agent t = None → consistent (enqueue x t self).
Proof.
  intros (Hreg & Hcov & Hknown) Hnone. split_and!.
  - unfold enqueue. by apply queue_put_registry_ok.
  - apply store_covers_elem_of. intros y.
    rewrite enqueue_places, elem_of_cons.
    replace (tickets (enqueue x t self)) with (<[x := t]> (tickets self))
      by (unfold enqueue; by destruct (_get_queue_for_priority _)).
    intros Hy. destruct (decide (x = y)) as [->|Hne].
    + by rewrite lookup_insert_eq.
    + rewrite lookup_insert_ne by done.
      apply (proj1 (store_covers_elem_of self) Hcov). by destruct Hy.
  - intros y t' b.
    replace (tickets (enqueue x t self)) with (<[x := t]> (tickets self))
      by (unfold enqueue; by destruct (_get_queue_for_priority _)).
    destruct (decide (x = y)) as [->|Hne].
    + rewrite lookup_insert_eq. intros [= <-]. by rewrite Hnone.
    + rewrite lookup_insert_ne by done. apply Hknown.
Qed.

Lemma place_consistent x t self :
  consistent self → assigned_agent t = None → consistent (place x t self).
Proof.
  intros Hcons Hnone. unfold place.
  destruct (_find_available_agent _ _ _) as [a|] eqn:Hfind.
  - apply assign_consistent; [done|].
    eapply find_available_agent_known; [apply Hcons|done].
  - by apply enqueue_consistent.
Qed.

(** What [release] does to the workloads. *)
Lemma release_held x t self :
  held self = held (release x t self) ∨
  ∃ a,
    assigned_agent t = Some a ∧ x ∈ workload self a ∧
    held self ≡ₚ x :: held (release x t self).
Proof.
  unfold release. destruct (assigned_agent t) as [a|]; [|by left].
  destruct (list_remove x (workload self a)) as [rest|] eqn:Hrest; [|by left].
  right. exists a. split; [done|].
  assert (x ∈ workload self a) as Hin.
  { destruct (decide (x ∈ workload self a)) as [|Hout]; [done|].
    by rewrite (list_remove_None _ _ Hout) in Hrest. }
  split; [done|].
  destruct (list_remove_Some _ _ Hin) as (r & Hr & Hp & _).
  rewrite Hrest in Hr. injection Hr as <-.
  unfold workload in Hp, Hin.
  destruct (dict_get (agent_tickets self) a) as [l|] eqn:Hl;
    [|by apply elem_of_nil in Hin].
  simpl in Hp. unfold held. simpl.
  destruct (dict_set_values _ _ _ rest Hl) as (before & after & -> & ->).
  rewrite !concat_app, !concat_cons, Hp. solve_Permutation.
Qed.

Lemma release_registry_ok x t self :
  registry_ok self → registry_ok (release x t self).
Proof.
  unfold release, registry_ok. intros Hreg.
  destruct (assigned_agent t) as [a|]; [|done].
  destruct (list_remove x (workload self a)) as [rest|] eqn:Hrest; [|done].
  simpl. rewrite dict_keys_set; [done|].
  destruct (dict_get (agent_tickets self) a) as [l|] eqn:Hl.
  - by eapply dict_get_Some_key.
  - unfold workload in Hrest. by rewrite Hl in Hrest.
Qed.

Lemma release_tickets x t self :
  tickets (release x t self) =
    <[x := set_status TICKET_STATUS.CLOSED t]> (tickets self).
Proof.
  unfold release. destruct (assigned_agent t); [|done].
  by destruct (list_remove _ _).
Qed.

Lemma release_queue_get queue x t self :
  queue_get queue (release x t self) = queue_get queue self.
Proof.
  unfold release. destruct (assigned_agent t); [|by destruct queue].
  destruct (list_remove _ _); by destruct queue.
Qed.

Lemma release_queued x t self : queued (release x t self) = queued self.
Proof. by rewrite !queued_queue_get, !release_queue_get. Qed.

Lemma release_consistent x t self :
  consistent self → tickets self !! x = Some t → consistent (release x t self).
Proof.
  intros (Hreg & Hcov & Hknown) Hx. split_and!.
  - by apply release_registry_ok.
  - apply store_covers_elem_of. intros y Hy. rewrite release_tickets.
    destruct (decide (x = y)) as [->|Hne]; [by rewrite lookup_insert_eq|].
    rewrite lookup_insert_ne by done.
    apply (proj1 (store_covers_elem_of self) Hcov).
    unfold places in *. rewrite release_queued in Hy.
    apply elem_of_app in Hy as [Hy|Hy]; apply elem_of_app; [left|by right].
    destruct (release_held x t self) as [->|(a & _ & _ & ->)]; [done|].
    by right.
  - intros y t' b. rewrite release_tickets.
    destruct (decide (x = y)) as [->|Hne].
    + rewrite lookup_insert_eq. intros [= <-]. simpl. intros Hb. by eapply Hknown.
    + rewrite lookup_insert_ne by done. apply Hknown.
Qed.

Lemma drain_consistent self : consistent self → consistent (drain self).2.
Proof.
  intros (Hreg & Hcov & Hknown). split_and!.
  - by apply drain_registry_ok.
  - apply store_covers_elem_of. intros y. rewrite drain_places by done.
    intros Hy. apply drain_store_grows.
    by apply (proj1 (store_covers_elem_of self) Hcov).
  - cut (registry_ok (drain self).2 ∧ assignees_known (drain self).2);
      [by intros [_ ?]|].
    apply (drain_invariant (λ s, registry_ok s ∧ assignees_known s));
      [| |done].
    + intros s q v [? ?]. split; [by apply queue_put_registry_ok|].
      by destruct q.
    + intros s x t a [Hr Hk] _ Hfind.
      pose proof (find_available_agent_known _ _ _ _ Hr Hfind) as Ha.
      split; [by apply assign_registry_ok|].
      intros y t' b. simpl. destruct (decide (x = y)) as [->|Hne].
      * rewrite lookup_insert_eq. intros [= <-]. simpl. by intros [= <-].
      * rewrite lookup_insert_ne by done. apply Hk.
Qed.

(** ** The calls of a history *)

Lemma consistent_queued_stored self :
  consistent self → Forall (λ x, is_Some (tickets self !! x)) (queued self).
Proof.
  intros (_ & Hcov & _). unfold store_covers, places in Hcov.
  by apply Forall_app in Hcov as [_ ?].
Qed.

Lemma process_queues_consistent self :
  consistent self →
  _process_queues self = (Returned (drain self).1, (drain self).2).
Proof.
  intros Hcons. apply process_queues_drain; [apply Hcons|].
  by apply consistent_queued_stored.
Qed.

(** From a consistent instance a call raises before any change, or
    places a new ticket, or releases a ticket and drains, or drains. *)
Lemma step_cases self o :
  consistent self →
  step self o = self ∨
  (∃ now ticket_id p ty prediction,
     o = CreateTicket now ticket_id p ty ∧
     lower p ∈ PRIORITY_LEVELS ∧ lower ty ∈ TICKET_TYPES ∧
     step self o =
       place ticket_id
         (new_ticket now ticket_id (lower p) (lower ty) prediction) self) ∨
  (∃ ticket_id ticket,
     o = CloseTicket ticket_id ∧
     tickets self !! ticket_id = Some ticket ∧
     status ticket ≠ TICKET_STATUS.CLOSED ∧
     step self o = (drain (release ticket_id ticket self)).2) ∨
  (o = DrainQueues ∧ step self o = (drain self).2).
Proof.
  intros Hcons. destruct o as [now ticket_id p ty|ticket_id|]; simpl.
  - destruct (create_ticket_state now ticket_id p ty self)
      as [?|(Hp & Hty & prediction & Hst)]; [apply Hcons|by left|].
    right. left. by exists now, ticket_id, p, ty, prediction.
  - destruct (tickets self !! ticket_id) as [ticket|] eqn:Hticket;
      [|left; by rewrite close_ticket_unknown].
    destruct (decide (status ticket = TICKET_STATUS.CLOSED)) as [Hc|Ho];
      [left; by erewrite close_ticket_closed|].
    right. right. left. exists ticket_id, ticket. split_and!; [done..|].
    destruct Hcons as (Hreg & Hcov & Hknown).
    rewrite (close_ticket_open _ ticket) by eauto.
    erewrite bind_Returned;
      [|apply process_queues_consistent, release_consistent; done].
    done.
  - right. right. right. split; [done|].
    by rewrite process_queues_consistent.
Qed.

(** A property of consistent instances that placing a new ticket,
    releasing a stored one and draining keep is kept by every call. *)
Lemma step_invariant (P : TicketClassifier → Prop) self o :
  (∀ s now x p ty prediction,
     consistent s → P s → p ∈ PRIORITY_LEVELS → ty ∈ TICKET_TYPES →
     P (place x (new_ticket now x p ty prediction) s)) →
  (∀ s x t,
     consistent s → P s → tickets s !! x = Some t →
     status t ≠ TICKET_STATUS.CLOSED → P (release x t s)) →
  (∀ s, consistent s → P s → P (drain s).2) →
  consistent self → P self →
  consistent (step self o) ∧ P (step self o).
Proof.
  intros Hplace Hrelease Hdrain Hcons HP.
  destruct (step_cases self o Hcons)
    as [->|[(now & x & p & ty & pr & _ & Hp & Hty & ->)
          |[(x & t & _ & Hx & Hopen & ->)|[_ ->]]]].
  - done.
  - split; [by apply place_consistent|by apply Hplace].
  - pose proof (release_consistent x t self Hcons Hx).
    split; [by apply drain_consistent|].
    apply Hdrain; [done|]. by apply Hrelease.
  - split; [by apply drain_consistent|by apply Hdrain].
Qed.

Lemma run_snoc ops o self : run (ops ++ [o]) self = step (run ops self) o.
Proof. unfold run. by rewrite foldl_snoc. Qed.

Lemma run_invariant (P : TicketClassifier → Prop) ops self :
  (∀ s now x p ty prediction,
     consistent s → P s → p ∈ PRIORITY_LEVELS → ty ∈ TICKET_TYPES →
     P (place x (new_ticket now x p ty prediction) s)) →
  (∀ s x t,
     consistent s → P s → tickets s !! x = Some t →
     status t ≠ TICKET_STATUS.CLOSED → P (release x t s)) →
  (∀ s, consistent s → P s → P (drain s).2) →
  consistent self → P self →
  consistent (run ops self) ∧ P (run ops self).
Proof.
  intros Hplace Hrelease Hdrain Hcons HP.
  induction ops as [|o ops IH] using rev_ind; [done|].
  rewrite run_snoc. destruct IH. by apply step_invariant.
Qed.

Lemma run_consistent ops loaded : consistent (run ops (init loaded)).
Proof.
  apply (run_invariant (λ _, True)); try done. apply init_consistent.
Qed.

(** ** Capacity *)

Lemma dict_get_Some_elem {K V} `{EqDecision K} (d : list (K * V)) k v :
  dict_get d k = Some v → (k, v) ∈ d.
Proof.
  induction d as [|[k' v'] d IH]; simpl; [done|].
  destruct (decide (k = k')) as [->|Hne].
  - intros [= ->]. left.
  - intros Hd. right. by apply IH.
Qed.

Lemma dict_set_Forall {K V} `{EqDecision K} (P : K * V → Prop)
    (d : list (K * V)) k v :
  Forall P d → P (k, v) → Forall P (dict_set d k v).
Proof.
  intros Hd Hv. induction Hd as [|[k' v'] d Hx Hd IH]; simpl.
  - by apply Forall_singleton.
  - destruct (decide (k = k')); apply Forall_cons; by split.
Qed.

Lemma within_capacity_workload self agent :
  within_capacity self →
  length (workload self agent) ≤ MAX_TICKETS_PER_AGENT.
Proof.
  intros Hcap. unfold workload.
  destruct (dict_get (agent_tickets self) agent) as [l|] eqn:Hl; simpl.
  - apply dict_get_Some_elem in Hl.
    by apply (proj1 (Forall_forall _ _) Hcap (agent, l)).
  - unfold MAX_TICKETS_PER_AGENT. lia.
Qed.

Lemma is_agent_available_true self agent :
  is_agent_available self agent = true ↔
  length (workload self agent) < MAX_TICKETS_PER_AGENT.
Proof. unfold is_agent_available, get_agent_load. apply bool_decide_eq_true. Qed.

(** An assignment that [_find_available_agent] allows fills a free
    slot. *)
Lemma assign_within_capacity x a t self :
  within_capacity self →
  _find_available_agent self (priority t) (ticket_type t) = Some a →
  within_capacity (assign x a t self).
Proof.
  intros Hcap Hfind. apply find_available_agent_available in Hfind.
  apply is_agent_available_true in Hfind.
  unfold within_capacity. simpl. apply dict_set_Forall; [done|]. simpl.
  rewrite length_app. simpl. lia.
Qed.

Lemma list_remove_length (x : string) l r :
  list_remove x l = Some r → length l = S (length r).
Proof.
  revert r. induction l as [|y l IH]; intros r; simpl; [done|].
  destruct (decide (x = y)); [by intros [= ->]|].
  destruct (list_remove x l) as [r'|]; [|done].
  intros [= <-]. simpl. by rewrite (IH r').
Qed.

Lemma release_within_capacity x t self :
  within_capacity self → within_capacity (release x t self).
Proof.
  intros Hcap. unfold release. destruct (assigned_agent t) as [a|]; [|done].
  destruct (list_remove x (workload self a)) as [rest|] eqn:Hrest; [|done].
  unfold within_capacity. simpl. apply dict_set_Forall; [done|]. simpl.
  apply list_remove_length in Hrest.
  pose proof (within_capacity_workload self a Hcap). lia.
Qed.

Lemma drain_within_capacity self :
  within_capacity self → within_capacity (drain self).2.
Proof.
  apply drain_invariant.
  - intros s q v. by destruct q.
  - intros s x t a Hcap _ Hfind. by apply assign_within_capacity.
Qed.

(** C3.  After every history of calls on a new instance, the workload
    of every agent holds at most [MAX_TICKETS_PER_AGENT] (5) ids: a call
    appends an id only to an agent that [is_agent_available] reports
    free. *)
Theorem workload_within_capacity ops loaded agent :
  length (workload (run ops (init loaded)) agent) ≤ MAX_TICKETS_PER_AGENT.
Proof.
  apply within_capacity_workload.
  apply (run_invariant within_capacity ops (init loaded)).
  - intros s now x p ty prediction _ Hcap _ _. unfold place.
    destruct (_find_available_agent _ _ _) as [a|] eqn:Hfind.
    + by apply assign_within_capacity.
    + unfold enqueue. by destruct (_get_queue_for_priority _).
  - intros s x t _ Hcap _ _. by apply release_within_capacity.
  - intros s _. apply drain_within_capacity.
  - apply init_consistent.
  - unfold within_capacity, MAX_TICKETS_PER_AGENT. simpl.
    repeat constructor; simpl; lia.
Qed.

(** ** Stored ids *)

(** C10.  After every history of calls on a new instance, every id in a
    queue or in a workload is a key of the ticket store.  Hence
    [_process_queues] returns, and so does [close_ticket] on every stored
    id: the lookup [self.tickets[ticket_id]] of a drain, called directly
    or by a closure, never raises. *)
Theorem queued_ids_stored ops loaded :
  (∀ x,
     x ∈ places (run ops (init loaded)) →
     is_Some (tickets (run ops (init loaded)) !! x)) ∧
  (∃ newly_assigned,
     (_process_queues (run ops (init loaded))).1 = Returned newly_assigned) ∧
  (∀ ticket_id,
     is_Some (tickets (run ops (init loaded)) !! ticket_id) →
     ∃ answer,
       (close_ticket ticket_id (run ops (init loaded))).1 = Returned answer).
Proof.
  pose proof (run_consistent ops loaded) as Hcons. split_and!.
  - apply store_covers_elem_of, Hcons.
  - rewrite (process_queues_consistent _ Hcons). by eexists.
  - intros ticket_id [ticket Hticket].
    destruct (decide (status ticket = TICKET_STATUS.CLOSED)) as [Hc|Ho].
    + erewrite close_ticket_closed by done. by eexists.
    + destruct Hcons as (Hreg & Hcov & Hknown).
      rewrite (close_ticket_open _ ticket) by eauto.
      erewrite bind_Returned;
        [|apply process_queues_consistent, release_consistent; done].
      by eexists.
Qed.

(** ** Urgent tickets *)

Lemma lower_ticket_type ty : ty ∈ TICKET_TYPES → lower ty = ty.
Proof.
  unfold TICKET_TYPES. intros Hty.
  apply elem_of_cons in Hty as [->|Hty];
    [|apply elem_of_cons in Hty as [->|Hty];
      [|apply elem_of_cons in Hty as [->|Hty]; [|by apply elem_of_nil in Hty]]];
    done.
Qed.

Lemma primary_agent_exists ty :
  ty ∈ TICKET_TYPES →
  ∃ primary,
    dict_get TYPE_TO_PRIMARY_AGENT ty = Some primary ∧
    truthy (Some primary) = true.
Proof.
  unfold TICKET_TYPES. intros Hty.
  apply elem_of_cons in Hty as [->|Hty];
    [|apply elem_of_cons in Hty as [->|Hty];
      [|apply elem_of_cons in Hty as [->|Hty]; [|by apply elem_of_nil in Hty]]];
    by eexists.
Qed.

(** The decision for an urgent ticket: its specialist or nobody. *)
Lemma find_available_agent_high self p ty primary :
  lower p = "high" →
  dict_get TYPE_TO_PRIMARY_AGENT (lower ty) = Some primary →
  truthy (Some primary) = true →
  _find_available_agent self p ty =
    if is_agent_available self primary then Some primary else None.
Proof.
  intros Hp Hprimary Htruthy. unfold _find_available_agent.
  rewrite Hprimary, Htruthy, Hp. cbn [default from_option Datatypes.id andb].
  by destruct (is_agent_available self primary).
Qed.

Lemma assign_urgent_with_specialist x a t self :
  urgent_with_specialist self →
  ticket_type t ∈ TICKET_TYPES →
  _find_available_agent self (priority t) (ticket_type t) = Some a →
  urgent_with_specialist (assign x a t self).
Proof.
  intros Hinv Hty Hfind y t'. simpl.
  destruct (decide (x = y)) as [->|Hne]; [|rewrite lookup_insert_ne by done; apply Hinv].
  rewrite lookup_insert_eq. intros [= <-]. simpl. split; [done|].
  intros Hhigh b [= <-].
  destruct (primary_agent_exists _ Hty) as (primary & Hprimary & Htruthy).
  rewrite (find_available_agent_high self _ _ primary) in Hfind.
  - destruct (is_agent_available self primary); [|done].
    injection Hfind as <-. done.
  - by rewrite Hhigh.
  - by rewrite lower_ticket_type.
  - done.
Qed.

Lemma run_urgent_with_specialist ops loaded :
  urgent_with_specialist (run ops (init loaded)).
Proof.
  apply (run_invariant urgent_with_specialist ops (init loaded)).
  - intros s now x p ty prediction _ Hinv _ Hty. unfold place.
    destruct (_find_available_agent _ _ _) as [a|] eqn:Hfind.
    + by apply assign_urgent_with_specialist.
    + intros y t'.
      replace (tickets (enqueue x (new_ticket now x p ty prediction) s))
        with (<[x := new_ticket now x p ty prediction]> (tickets s))
        by (unfold enqueue; by destruct (_get_queue_for_priority _)).
      destruct (decide (x = y)) as [->|Hne];
        [|rewrite lookup_insert_ne by done; apply Hinv].
      rewrite lookup_insert_eq. by intros [= <-].
  - intros s x t _ Hinv Hx _ y t'. rewrite release_tickets.
    destruct (decide (x = y)) as [->|Hne];
      [|rewrite lookup_insert_ne by done; apply Hinv].
    rewrite lookup_insert_eq. intros [= <-]. exact (Hinv y t Hx).
  - intros s _. apply drain_invariant.
    + intros s' q v. by destruct q.
    + intros s' x t a Hinv Hx Hfind.
      apply assign_urgent_with_specialist; [done| |done]. by eapply Hinv.
  - apply init_consistent.
  - intros x t Hx. simpl in Hx. by rewrite lookup_empty in Hx.
Qed.

(** C6.  For an urgent ticket of any of the three types,
    [_find_available_agent] returns the primary specialist of the type
    when that agent has spare capacity and [None] otherwise; and after
    every history of calls on a new instance, a stored ticket of priority
    "high" that carries an assigned agent, set at creation or by a
    drain, carries the primary specialist of its type. *)
Theorem high_priority_only_specialist :
  (∀ self p ty,
     lower p = "high" → lower ty ∈ TICKET_TYPES →
     ∃ primary,
       dict_get TYPE_TO_PRIMARY_AGENT (lower ty) = Some primary ∧
       _find_available_agent self p ty =
         if is_agent_available self primary then Some primary else None) ∧
  (∀ ops loaded x t a,
     tickets (run ops (init loaded)) !! x = Some t →
     priority t = "high" → assigned_agent t = Some a →
     dict_get TYPE_TO_PRIMARY_AGENT (ticket_type t) = Some a).
Proof.
  split.
  - intros self p ty Hp Hty.
    destruct (primary_agent_exists _ Hty) as (primary & Hprimary & Htruthy).
    exists primary. split; [done|]. by apply find_available_agent_high.
  - intros ops loaded x t a Hx Hhigh Ha.
    by apply (run_urgent_with_specialist ops loaded x t Hx).
Qed.

Lemma high_priority_only_specialist_witness :
  (∃ primary,
     dict_get TYPE_TO_PRIMARY_AGENT (lower "Network") = Some primary ∧
     _find_available_agent (init None) "HIGH" "Network" =
       if is_agent_available (init None) primary then Some primary else None) ∧
  dict_get TYPE_TO_PRIMARY_AGENT "software" = Some "Agent 1".
Proof.
  destruct high_priority_only_specialist as [Hdecide Hstored]. split.
  - apply Hdecide; [reflexivity|]. vm_compute. apply list_elem_of_In.
    simpl. tauto.
  - apply (Hstored [CreateTicket 0 "T1" "high" "software"] None "T1"
             (assigned_ticket "Agent 1"
                (new_ticket 0 "T1" "high" "software" None)));
      reflexivity.
Defined.

(** ** Closing a ticket *)

(** C8.  [close_ticket] on the id of a ticket that is already closed
    returns the "Ticket already closed" message and leaves the whole
    instance as it was: store, workloads and queues are untouched and
    [_process_queues] is not run. *)
Theorem close_ticket_idempotent ticket_id ticket self :
  tickets self !! ticket_id = Some ticket →
  status ticket = TICKET_STATUS.CLOSED →
  close_ticket ticket_id self =
    (Returned (already_closed "Ticket already closed" ticket_id), self).
Proof. apply close_ticket_closed. Qed.

(** ** The order of a drain *)

Lemma evaluate_queue_put queue v x self :
  evaluate x (queue_put queue v self) =
    ((evaluate x self).1, queue_put queue v (evaluate x self).2).
Proof.
  unfold evaluate.
  replace (tickets (queue_put queue v self)) with (tickets self)
    by by destruct queue.
  destruct (tickets self !! x) as [t|]; [|done].
  rewrite (find_available_agent_ext _ self) by by destruct queue.
  destruct (_find_available_agent self _ _) as [a|]; [|done].
  simpl. f_equal. unfold assign, workload. by destruct queue.
Qed.

Lemma walk_queue_put queue v l self :
  walk l (queue_put queue v self) =
    ((walk l self).1, queue_put queue v (walk l self).2).
Proof.
  revert self. induction l as [|x l IH]; intros self; [done|].
  rewrite !walk_cons, evaluate_queue_put. cbn [fst snd]. by rewrite IH.
Qed.

(** The three walks of a drain, and the instance it leaves. *)
Lemma drain_walks self :
  let w1 := walk (high_priority_queue self) self in
  let w2 := walk (medium_priority_queue self) w1.2 in
  let w3 := walk (low_priority_queue self) w2.2 in
  drain self =
    (w1.1 ++ w2.1 ++ w3.1,
     queue_put low_priority_queue_ref
       (remove_each (assignment_ticket_id <$> w3.1) (low_priority_queue self))
       (queue_put medium_priority_queue_ref
          (remove_each (assignment_ticket_id <$> w2.1)
             (medium_priority_queue self))
          (queue_put high_priority_queue_ref
             (remove_each (assignment_ticket_id <$> w1.1)
                (high_priority_queue self))
             w3.2))).
Proof.
  intros w1 w2 w3. rewrite drain_unfold. cbn zeta.
  rewrite (drain_queue_unfold high_priority_queue_ref self).
  cbn [fst snd queue_get]. fold w1.
  set (r1 := remove_each (assignment_ticket_id <$> w1.1)
               (high_priority_queue self)).
  rewrite (drain_queue_unfold medium_priority_queue_ref).
  rewrite queue_get_put_ne by done.
  replace (queue_get medium_priority_queue_ref w1.2)
    with (medium_priority_queue self)
    by (symmetry; apply (walk_queue_get medium_priority_queue_ref)).
  rewrite walk_queue_put. cbn [fst snd]. fold w2.
  set (r2 := remove_each (assignment_ticket_id <$> w2.1)
               (medium_priority_queue self)).
  rewrite (drain_queue_unfold low_priority_queue_ref).
  rewrite !queue_get_put_ne by done.
  replace (queue_get low_priority_queue_ref w2.2)
    with (low_priority_queue self).
  2:{ symmetry. unfold w2.
      rewrite (walk_queue_get low_priority_queue_ref).
      apply (walk_queue_get low_priority_queue_ref). }
  rewrite !walk_queue_put. cbn [fst snd]. fold w3. done.
Qed.

(** C5.  [_process_queues] walks the high queue, then the medium queue,
    then the low queue, each in insertion order, and evaluates every
    queued id once, against the instance left by the ids before it
    ([walk] goes on to the next id whether or not the current one was
    assigned).  The tickets, the workloads and the returned list are
    those of that single pass; an id that was not assigned keeps its
    place in its queue, and exactly the assigned ones have left it. *)
Theorem drain_visits_in_order self :
  registry_ok self →
  Forall (λ x, is_Some (tickets self !! x)) (queued self) →
  let w1 := walk (high_priority_queue self) self in
  let w2 := walk (medium_priority_queue self) w1.2 in
  let w3 := walk (low_priority_queue self) w2.2 in
  let after := (_process_queues self).2 in
  (_process_queues self).1 = Returned (w1.1 ++ w2.1 ++ w3.1) ∧
  walk (queued self) self = (w1.1 ++ w2.1 ++ w3.1, w3.2) ∧
  tickets after = tickets w3.2 ∧
  agent_tickets after = agent_tickets w3.2 ∧
  (sublist (high_priority_queue after) (high_priority_queue self) ∧
   high_priority_queue self
     ≡ₚ (assignment_ticket_id <$> w1.1) ++ high_priority_queue after) ∧
  (sublist (medium_priority_queue after) (medium_priority_queue self) ∧
   medium_priority_queue self
     ≡ₚ (assignment_ticket_id <$> w2.1) ++ medium_priority_queue after) ∧
  (sublist (low_priority_queue after) (low_priority_queue self) ∧
   low_priority_queue self
     ≡ₚ (assignment_ticket_id <$> w3.1) ++ low_priority_queue after).
Proof.
  intros Hreg Hstored w1 w2 w3 after. subst after.
  rewrite process_queues_drain by done. cbn [fst snd].
  pose proof (drain_walks self) as Hdrain. cbn zeta in Hdrain.
  fold w1 w2 w3 in Hdrain. rewrite Hdrain. cbn [fst snd].
  split_and!; try done.
  - unfold queued. rewrite !walk_app. fold w1. fold w2. fold w3. done.
  - simpl. apply remove_each_spec, sublist_submseteq, walk_made_sublist.
  - simpl. apply remove_each_spec, sublist_submseteq, walk_made_sublist.
  - simpl. apply remove_each_spec, sublist_submseteq, walk_made_sublist.
  - simpl. apply remove_each_spec, sublist_submseteq, walk_made_sublist.
  - simpl. apply remove_each_spec, sublist_submseteq, walk_made_sublist.
  - simpl. apply remove_each_spec, sublist_submseteq, walk_made_sublist.
Qed.

(** ** Routing does not look at the network *)

Lemma lower_priority_level p : p ∈ PRIORITY_LEVELS → lower p = p.
Proof.
  unfold PRIORITY_LEVELS. intros Hp.
  apply elem_of_cons in Hp as [->|Hp];
    [|apply elem_of_cons in Hp as [->|Hp];
      [|apply elem_of_cons in Hp as [->|Hp]; [|by apply elem_of_nil in Hp]]];
    done.
Qed.

Lemma encode_input_returns p ty self :
  p ∈ PRIORITY_LEVELS → ty ∈ TICKET_TYPES →
  ∃ x, _encode_input p ty self = (Returned x, self).
Proof.
  intros Hp Hty. unfold _encode_input.
  rewrite (lower_priority_level _ Hp), (lower_ticket_type _ Hty).
  unfold PRIORITY_LEVELS in Hp. unfold TICKET_TYPES in Hty.
  apply elem_of_cons in Hp as [->|Hp];
    [|apply elem_of_cons in Hp as [->|Hp];
      [|apply elem_of_cons in Hp as [->|Hp]; [|by apply elem_of_nil in Hp]]];
    (apply elem_of_cons in Hty as [->|Hty];
     [|apply elem_of_cons in Hty as [->|Hty];
       [|apply elem_of_cons in Hty as [->|Hty];
         [|by apply elem_of_nil in Hty]]]);
    by eexists.
Qed.

Lemma index_returns proba i self :
  i < length proba → ∃ v, index proba i self = (Returned v, self).
Proof.
  intros Hi. unfold index.
  destruct (lookup_lt_is_Some_2 proba i Hi) as [v ->]. by eexists.
Qed.

(** With a loaded three-class network, [predict_agent] returns on every
    valid pair. *)
Lemma predict_agent_returns p ty self :
  model_loaded self = true → model_ok self →
  p ∈ PRIORITY_LEVELS → ty ∈ TICKET_TYPES →
  ∃ r, predict_agent p ty self = (Returned r, self).
Proof.
  intros Hloaded Hok Hp Hty.
  destruct (Hok Hloaded) as (net & Hnet & Hclasses).
  destruct (encode_input_returns p ty self Hp Hty) as [x Hx].
  unfold predict_agent. rewrite bind_gets, Hloaded. cbn [negb].
  rewrite (bind_Returned _ _ _ _ _ Hx), bind_gets, Hnet.
  destruct (Hclasses x) as [Hclass Hlen].
  assert (∃ a, dict_get AGENT_DECODING (predict net x) = Some a) as [a Ha].
  { destruct (predict net x) as [|[|[|n]]]; [by eexists..|lia]. }
  rewrite Ha. unfold getitem at 1. rewrite bind_ret.
  destruct (index_returns (predict_proba net x) (predict net x) self)
    as [c Hc]; [lia|].
  destruct (index_returns (predict_proba net x) 0 self) as [p0 Hp0]; [lia|].
  destruct (index_returns (predict_proba net x) 1 self) as [p1 Hp1]; [lia|].
  destruct (index_returns (predict_proba net x) 2 self) as [p2 Hp2]; [lia|].
  rewrite (bind_Returned _ _ _ _ _ Hc), (bind_Returned _ _ _ _ _ Hp0).
  rewrite (bind_Returned _ _ _ _ _ Hp1), (bind_Returned _ _ _ _ _ Hp2).
  by eexists.
Qed.

Lemma create_ticket_unfold now x p ty :
  create_ticket now x p ty =
    if negb (bool_decide (lower p ∈ PRIORITY_LEVELS)) then raise ValueError
    else if negb (bool_decide (lower ty ∈ TICKET_TYPES)) then raise ValueError
    else
      bind (gets model_loaded) (λ loaded,
        bind
          (if loaded
           then bind (predict_agent (lower p) (lower ty)) (λ r, ret (Some r))
           else ret None)
          (create_ticket_routing now x (lower p) (lower ty))).
Proof. reflexivity. Qed.

Lemma routing_state_set_tickets x t self :
  routing_state (set_tickets (<[x := t]> (tickets self)) self) =
    set_tickets (<[x := blind_ticket t]> (tickets (routing_state self)))
      (routing_state self).
Proof. unfold routing_state, set_tickets. simpl. by rewrite fmap_insert. Qed.

Lemma routing_state_queue_put queue v self :
  routing_state (queue_put queue v self) = queue_put queue v (routing_state self).
Proof. by destruct queue. Qed.

Lemma routing_state_queue_get queue self :
  queue_get queue (routing_state self) = queue_get queue self.
Proof. by destruct queue. Qed.

(** Rules for [blinds]. *)
Lemma blinds_ret {A B} (f : A → B) a : blinds f (ret a) (ret (f a)).
Proof. done. Qed.

Lemma blinds_raise {A B} (f : A → B) e : blinds f (raise e) (raise e).
Proof. done. Qed.

Lemma blinds_bind {A A' B B'} (f : A → A') (g : B → B')
    (m : M A) (m' : M A') (k : A → M B) (k' : A' → M B') :
  blinds f m m' → (∀ a, blinds g (k a) (k' (f a))) →
  blinds g (bind m k) (bind m' k').
Proof.
  intros Hm Hk self. unfold bind. rewrite Hm.
  destruct (m self) as [[a|e] self']; simpl; [apply Hk|done].
Qed.

Lemma blinds_gets {A} (f : TicketClassifier → A) :
  (∀ self, f (routing_state self) = f self) →
  blinds (λ a, a) (gets f) (gets f).
Proof. intros Hf self. unfold gets. simpl. by rewrite Hf. Qed.

Lemma blinds_modify f f' :
  (∀ self, routing_state (f self) = f' (routing_state self)) →
  blinds (λ u : unit, u) (modify f) (modify f').
Proof. intros Hf self. unfold modify. simpl. by rewrite Hf. Qed.

Lemma blinds_getitem {A} (o : option A) :
  blinds (λ a, a) (getitem o) (getitem o).
Proof. by destruct o. Qed.

Lemma blinds_setattr x upd t :
  (∀ t, blind_ticket (upd t) = upd (blind_ticket t)) →
  blinds blind_ticket (setattr x upd t) (setattr x upd (blind_ticket t)).
Proof.
  intros Hupd self. unfold setattr, bind, modify, ret. simpl.
  by rewrite routing_state_set_tickets, Hupd.
Qed.

Lemma blinds_agent_append a x :
  blinds (λ u : unit, u) (agent_append a x) (agent_append a x).
Proof.
  unfold agent_append.
  apply (blinds_bind (λ l, l)).
  - apply (blinds_bind (λ d, d)); [by apply blinds_gets|].
    intros d. apply blinds_getitem.
  - intros l. by apply blinds_modify.
Qed.

(** Routing a new ticket on the routing state, without a prediction,
    is the blanking of routing it on the instance with any prediction. *)
Lemma create_ticket_routing_blinds now x p ty prediction :
  blinds blind_created
    (create_ticket_routing now x p ty prediction)
    (create_ticket_routing now x p ty None).
Proof.
  unfold create_ticket_routing.
  apply (blinds_bind (λ u, u)).
  { apply blinds_modify. intros self. by rewrite routing_state_set_tickets. }
  intros _. apply (blinds_bind (λ a, a)).
  { apply blinds_gets. intros self. by apply find_available_agent_ext. }
  intros assigned. apply (blinds_bind blind_ticket); [|by intros t].
  destruct (truthy assigned).
  - apply (blinds_bind blind_ticket); [by apply blinds_setattr|].
    intros t1. apply (blinds_bind (λ a, a)); [apply blinds_getitem|].
    intros agent_id.
    apply (blinds_bind blind_ticket); [by apply blinds_setattr|].
    intros t2. apply (blinds_bind blind_ticket); [by apply blinds_setattr|].
    intros t3. apply (blinds_bind (λ u, u)); [apply blinds_agent_append|].
    intros _. apply blinds_ret.
  - apply (blinds_bind (λ u, u)); [|intros _; by apply blinds_setattr].
    apply blinds_modify. intros self.
    by rewrite routing_state_queue_put, routing_state_queue_get.
Qed.

Lemma create_ticket_blinds now x p ty :
  ∀ self, model_ok self →
    create_ticket now x p ty (routing_state self) =
      (outcome_map blind_created (create_ticket now x p ty self).1,
       routing_state (create_ticket now x p ty self).2).
Proof.
  intros self Hok. rewrite !create_ticket_unfold.
  destruct (bool_decide (lower p ∈ PRIORITY_LEVELS)) eqn:Hp; [|done].
  destruct (bool_decide (lower ty ∈ TICKET_TYPES)) eqn:Hty; [|done].
  apply bool_decide_eq_true in Hp, Hty. cbn [negb].
  rewrite !bind_gets. change (model_loaded (routing_state self)) with false.
  cbv iota. rewrite bind_ret.
  destruct (model_loaded self) eqn:Hloaded.
  - destruct (predict_agent_returns _ _ self Hloaded Hok Hp Hty) as [r Hr].
    rewrite (bind_Returned _ _ self (Some r) self);
      [|by rewrite (bind_Returned _ _ _ _ _ Hr)].
    apply create_ticket_routing_blinds.
  - rewrite bind_ret. apply create_ticket_routing_blinds.
Qed.

(** C9, as amended.  Two calls of [create_ticket] with the same arguments
    on instances that have the same routing state (workloads, queues and
    tickets up to their advisory fields) and each either no model or a
    loaded network with the three outputs that [predict_agent] reads
    ([model_ok]), for instance one with such a network and one with no
    model, return answers that differ at most in the advisory fields and
    reach instances with the same routing state again: same workloads,
    same queues, same tickets up to the advisory fields. *)
Theorem routing_ignores_network now x p ty self1 self2 :
  routing_state self1 = routing_state self2 →
  model_ok self1 → model_ok self2 →
  let r1 := create_ticket now x p ty self1 in
  let r2 := create_ticket now x p ty self2 in
  outcome_map blind_created r1.1 = outcome_map blind_created r2.1 ∧
  routing_state r1.2 = routing_state r2.2 ∧
  agent_tickets r1.2 = agent_tickets r2.2 ∧
  (∀ queue, queue_get queue r1.2 = queue_get queue r2.2) ∧
  blind_ticket <$> tickets r1.2 = blind_ticket <$> tickets r2.2.
Proof.
  intros Heq Hok1 Hok2 r1 r2.
  pose proof (create_ticket_blinds now x p ty self1 Hok1) as H1.
  pose proof (create_ticket_blinds now x p ty self2 Hok2) as H2.
  rewrite Heq, H2 in H1. fold r1 r2 in H1. clear H2. clearbody r1 r2.
  destruct r1 as [o1 s1], r2 as [o2 s2]. cbn [fst snd] in *.
  assert (outcome_map blind_created o1 = outcome_map blind_created o2
          ∧ routing_state s1 = routing_state s2) as [Hout Hst].
  { split; congruence. }
  clear H1. split_and!.
  - exact Hout.
  - exact Hst.
  - exact (f_equal agent_tickets Hst).
  - intros queue. rewrite <- (routing_state_queue_get queue s1).
    rewrite <- (routing_state_queue_get queue s2). by rewrite Hst.
  - exact (f_equal tickets Hst).
Qed.

(** ** Placement of tickets *)

Lemma walk_store_same l self x :
  tickets self !! x = None → tickets (walk l self).2 !! x = None.
Proof.
  apply (walk_invariant (λ s, tickets s !! x = None)).
  intros s y t a Hx Hy _. simpl. rewrite lookup_insert_ne; [done|].
  intros ->. by rewrite Hx in Hy.
Qed.

Lemma drain_queue_store_same queue self x :
  tickets self !! x = None → tickets (drain_queue queue self).2 !! x = None.
Proof.
  intros Hx. rewrite drain_queue_unfold. simpl.
  replace (tickets (queue_put queue _ _))
    with (tickets (walk (queue_get queue self) self).2) by by destruct queue.
  by apply walk_store_same.
Qed.

Lemma drain_store_same self x :
  tickets self !! x = None → tickets (drain self).2 !! x = None.
Proof.
  intros Hx. rewrite drain_unfold. simpl. by do 3 apply drain_queue_store_same.
Qed.

Lemma drain_queue_consistent queue self :
  consistent self → consistent (drain_queue queue self).2.
Proof.
  intros (Hreg & Hcov & Hknown). split_and!.
  - by apply drain_queue_registry_ok.
  - apply store_covers_elem_of. intros y. rewrite drain_queue_places by done.
    intros Hy. apply drain_queue_store_grows.
    by apply (proj1 (store_covers_elem_of self) Hcov).
  - cut (registry_ok (drain_queue queue self).2
         ∧ assignees_known (drain_queue queue self).2); [by intros [_ ?]|].
    apply (drain_queue_invariant (λ s, registry_ok s ∧ assignees_known s));
      [| |done].
    + intros s q v [? ?]. split; [by apply queue_put_registry_ok|].
      by destruct q.
    + intros s x t a [Hr Hk] _ Hfind.
      pose proof (find_available_agent_known _ _ _ _ Hr Hfind) as Ha.
      split; [by apply assign_registry_ok|].
      intros y t' b. simpl. destruct (decide (x = y)) as [->|Hne].
      * rewrite lookup_insert_eq. intros [= <-]. simpl. by intros [= <-].
      * rewrite lookup_insert_ne by done. apply Hk.
Qed.

Lemma queued_elem_of self x :
  x ∈ queued self ↔ ∃ queue, x ∈ queue_get queue self.
Proof.
  unfold queued. rewrite !elem_of_app. split.
  - intros [?|[?|?]];
      [by exists high_priority_queue_ref|by exists medium_priority_queue_ref
      |by exists low_priority_queue_ref].
  - intros [[] ?]; auto.
Qed.

(** A drain of one queue keeps the placement. *)
Lemma drain_queue_well_placed queue self :
  well_placed self → well_placed (drain_queue queue self).2.
Proof.
  intros (Hcons & Hnodup & Hplaced).
  pose proof Hcons as (Hreg & _ & _).
  destruct (drain_queue_moves queue self Hreg) as (Hheld & Hqueue & _).
  cbn zeta in Hheld, Hqueue.
  set (made := assignment_ticket_id <$> (drain_queue queue self).1) in *.
  split_and!.
  - by apply drain_queue_consistent.
  - by rewrite drain_queue_places.
  - intros y t Hy.
    assert (tickets (drain_queue queue self).2
            = tickets (walk (queue_get queue self) self).2) as Htickets.
    { rewrite drain_queue_unfold. by destruct queue. }
    assert (∀ a, workload (drain_queue queue self).2 a
                 = workload (walk (queue_get queue self) self).2 a) as Hwork.
    { intros a. rewrite drain_queue_unfold. by destruct queue. }
    assert (made = assignment_ticket_id <$> (walk (queue_get queue self) self).1)
      as Hmade.
    { unfold made. by rewrite drain_queue_unfold. }
    destruct (decide (y ∈ made)) as [Hin|Hout].
    + right. left. rewrite Hmade in Hin.
      destruct (walk_tickets_made _ _ _ Hreg Hin) as (t' & a & Ht' & Hst & Ha & _ & Hw).
      rewrite Htickets, Ht' in Hy. injection Hy as <-.
      split; [done|]. exists a. split; [done|]. by rewrite Hwork.
    + rewrite Htickets, walk_tickets_other in Hy by by rewrite <- Hmade.
      destruct (Hplaced y t Hy) as [[Hst Hq]|[[Hst (a & Ha & Hw)]|[Hst Hh]]].
      * left. split; [done|]. apply queued_elem_of in Hq as [q Hq].
        apply queued_elem_of. exists q.
        destruct (decide (queue = q)) as [<-|Hne].
        -- rewrite Hqueue in Hq. by apply elem_of_app in Hq as [?|?].
        -- by rewrite drain_queue_queue_get_ne.
      * right. left. split; [done|]. exists a. split; [done|].
        rewrite Hwork. by apply walk_workload_grows.
      * right. right. split; [done|]. rewrite Hheld.
        by intros [?|?]%elem_of_app.
Qed.

Lemma drain_well_placed self : well_placed self → well_placed (drain self).2.
Proof.
  intros Hwp. rewrite drain_unfold. simpl.
  by do 3 apply drain_queue_well_placed.
Qed.

Lemma release_held_subset x t self y :
  y ∈ held (release x t self) → y ∈ held self.
Proof.
  destruct (release_held x t self) as [->|(a & _ & _ & ->)]; [done|].
  by right.
Qed.

Lemma release_held_pending x t a self :
  assigned_agent t = Some a → x ∈ workload self a →
  held self ≡ₚ x :: held (release x t self).
Proof.
  intros Ha Hin. unfold release. rewrite Ha.
  destruct (list_remove_Some _ _ Hin) as (rest & Hrest & Hp & _).
  rewrite Hrest. unfold workload in Hp, Hin.
  destruct (dict_get (agent_tickets self) a) as [l|] eqn:Hl;
    [|by apply elem_of_nil in Hin].
  simpl in Hp. unfold held. simpl.
  destruct (dict_set_values _ _ _ rest Hl) as (before & after & -> & ->).
  rewrite !concat_app, !concat_cons, Hp. solve_Permutation.
Qed.

Lemma release_workload_other x t self y b :
  y ≠ x → y ∈ workload self b → y ∈ workload (release x t self) b.
Proof.
  intros Hne Hy. unfold release. destruct (assigned_agent t) as [a|]; [|done].
  destruct (list_remove x (workload self a)) as [rest|] eqn:Hrest; [|done].
  unfold workload at 1. simpl.
  destruct (decide (a = b)) as [<-|Hab].
  - rewrite dict_get_set_eq. simpl.
    assert (x ∈ workload self a) as Hin.
    { destruct (decide (x ∈ workload self a)) as [|Hout]; [done|].
      by rewrite (list_remove_None _ _ Hout) in Hrest. }
    destruct (list_remove_Some _ _ Hin) as (r & Hr & Hp & _).
    rewrite Hrest in Hr. injection Hr as <-.
    rewrite Hp in Hy. by apply elem_of_cons in Hy as [?|?].
  - by rewrite dict_get_set_ne.
Qed.

Lemma not_stored_not_placed self x :
  consistent self → tickets self !! x = None → x ∉ places self.
Proof.
  intros (_ & Hcov & _) Hx Hin.
  apply (proj1 (store_covers_elem_of self) Hcov) in Hin as [t Ht].
  by rewrite Hx in Ht.
Qed.

Lemma assign_places x a t self :
  registry_ok self → a ∈ agents →
  places (assign x a t self) ≡ₚ x :: places self.
Proof.
  intros Hreg Ha. unfold places. by rewrite assign_held.
Qed.

Lemma held_app_queued self y : y ∈ held self → y ∈ places self.
Proof. unfold places. rewrite elem_of_app. by left. Qed.

Lemma queued_places self y : y ∈ queued self → y ∈ places self.
Proof. unfold places. rewrite elem_of_app. by right. Qed.

(** Storing and routing a ticket under a new id keeps the placement. *)
Lemma place_well_placed now x p ty prediction self :
  well_placed self → tickets self !! x = None →
  well_placed (place x (new_ticket now x p ty prediction) self).
Proof.
  intros (Hcons & Hnodup & Hplaced) Hnew.
  pose proof Hcons as (Hreg & _ & _).
  pose proof (not_stored_not_placed _ _ Hcons Hnew) as Hfresh.
  set (t := new_ticket now x p ty prediction).
  split; [by apply place_consistent|]. unfold place.
  destruct (_find_available_agent self (priority t) (ticket_type t))
    as [a|] eqn:Hfind.
  - pose proof (find_available_agent_known _ _ _ _ Hreg Hfind) as Ha. split.
    + rewrite assign_places by done. by apply NoDup_cons.
    + intros y t'. simpl. destruct (decide (x = y)) as [<-|Hne].
      * rewrite lookup_insert_eq. intros [= <-]. right. left.
        split; [done|]. exists a. split; [done|].
        rewrite assign_workload_eq. apply elem_of_app. right. left.
      * rewrite lookup_insert_ne by done. intros Hy.
        destruct (Hplaced y t' Hy) as [[Hst Hq]|[[Hst (b & Hb & Hw)]|[Hst Hh]]].
        -- by left.
        -- right. left. split; [done|]. exists b. split; [done|].
           destruct (decide (a = b)) as [<-|Hab].
           ++ rewrite assign_workload_eq. apply elem_of_app. by left.
           ++ by rewrite assign_workload_ne.
        -- right. right. split; [done|]. rewrite assign_held by done.
           by intros [?|?]%elem_of_cons.
  - split.
    + rewrite enqueue_places. by apply NoDup_cons.
    + assert (tickets (enqueue x t self) = <[x := t]> (tickets self))
        as Htickets
        by (unfold enqueue; by destruct (_get_queue_for_priority _)).
      assert (held (enqueue x t self) = held self) as Hheld
        by (unfold enqueue; by destruct (_get_queue_for_priority _)).
      assert (∀ b, workload (enqueue x t self) b = workload self b) as Hwork
        by (intros b; unfold enqueue; by destruct (_get_queue_for_priority _)).
      assert (∀ y, y = x ∨ y ∈ queued self → y ∈ queued (enqueue x t self))
        as Hqueued.
      { intros y. unfold enqueue, queued.
        destruct (_get_queue_for_priority _); simpl;
          rewrite !elem_of_app, ?list_elem_of_singleton; tauto. }
      intros y t'. rewrite Htickets. destruct (decide (x = y)) as [<-|Hne].
      * rewrite lookup_insert_eq. intros [= <-]. left. split; [done|].
        apply Hqueued. by left.
      * rewrite lookup_insert_ne by done. intros Hy.
        destruct (Hplaced y t' Hy) as [[Hst Hq]|[[Hst (b & Hb & Hw)]|[Hst Hh]]].
        -- left. split; [done|]. apply Hqueued. by right.
        -- right. left. split; [done|]. exists b. by rewrite Hwork.
        -- right. right. by rewrite Hheld.
Qed.

(** Marking a stored ticket closed and taking it from its agent keeps
    the placement. *)
Lemma release_well_placed x t self :
  well_placed self → tickets self !! x = Some t →
  status t ≠ TICKET_STATUS.CLOSED →
  well_placed (release x t self).
Proof.
  intros (Hcons & Hnodup & Hplaced) Hx Hopen.
  split; [by apply release_consistent|].
  assert (NoDup (held self) ∧ NoDup (queued self)
          ∧ ∀ y, y ∈ held self → y ∉ queued self) as (Hnh & Hnq & Hdisj).
  { unfold places in Hnodup.
    by apply NoDup_app in Hnodup as (? & ? & ?). }
  split.
  - unfold places. rewrite release_queued. apply NoDup_app. split_and!.
    + destruct (release_held x t self) as [<-|(a & _ & _ & Hp)]; [done|].
      rewrite Hp in Hnh. by apply NoDup_cons in Hnh as [_ ?].
    + intros y Hy. by apply Hdisj, (release_held_subset x t).
    + done.
  - intros y t'. rewrite release_tickets.
    destruct (decide (x = y)) as [<-|Hne].
    + rewrite lookup_insert_eq. intros [= <-]. right. right.
      split; [done|].
      destruct (Hplaced x t Hx) as [[Hst Hq]|[[Hst (a & Ha & Hw)]|[Hst Hh]]].
      * intros Hin%release_held_subset. by apply (Hdisj x).
      * rewrite (release_held_pending x t a self Ha Hw) in Hnh.
        by apply NoDup_cons in Hnh as [? _].
      * done.
    + rewrite lookup_insert_ne by done. intros Hy.
      destruct (Hplaced y t' Hy) as [[Hst Hq]|[[Hst (b & Hb & Hw)]|[Hst Hh]]].
      * left. by rewrite release_queued.
      * right. left. split; [done|]. exists b. split; [done|].
        by apply release_workload_other.
      * right. right. split; [done|]. by intros ?%release_held_subset.
Qed.

Lemma place_tickets_other x t self y :
  x ≠ y → tickets (place x t self) !! y = tickets self !! y.
Proof.
  intros Hne. unfold place. destruct (_find_available_agent _ _ _).
  - simpl. by rewrite lookup_insert_ne.
  - unfold enqueue. destruct (_get_queue_for_priority _); simpl;
      by rewrite lookup_insert_ne.
Qed.

Lemma init_well_placed loaded : well_placed (init loaded).
Proof.
  split_and!.
  - apply init_consistent.
  - apply NoDup_nil_2.
  - intros x t Hx. simpl in Hx. by rewrite lookup_empty in Hx.
Qed.

(** A history that creates each id once, none of them stored yet, keeps
    the placement. *)
Lemma run_well_placed ops self :
  well_placed self →
  NoDup (created_ids ops) →
  (∀ x, x ∈ created_ids ops → tickets self !! x = None) →
  well_placed (run ops self).
Proof.
  revert self. induction ops as [|o ops IH]; intros self Hwp Hnodup Hnew;
    [done|].
  change (run (o :: ops) self) with (run ops (step self o)).
  pose proof Hwp as (Hcons & _ & _).
  destruct (step_cases self o Hcons)
    as [Hst|[(now & x & p & ty & pr & -> & Hp & Hty & Hst)
            |[(x & t & -> & Hx & Hopen & Hst)|[-> Hst]]]];
    rewrite Hst; clear Hst.
  - apply IH; [done| |].
    + destruct o; simpl in Hnodup; [by apply NoDup_cons in Hnodup as [_ ?]|done..].
    + intros x Hx. apply Hnew. destruct o; simpl; [by right|done..].
  - simpl in Hnodup, Hnew. apply NoDup_cons in Hnodup as [Hfresh Hnodup].
    apply IH; [|done|].
    + apply place_well_placed; [done|]. apply Hnew. left.
    + intros y Hy. rewrite place_tickets_other.
      * apply Hnew. by right.
      * intros ->. done.
  - simpl in Hnodup, Hnew. apply IH; [|done|].
    + by apply drain_well_placed, release_well_placed.
    + intros y Hy. apply drain_store_same. rewrite release_tickets.
      rewrite lookup_insert_ne; [by apply Hnew|].
      intros ->. by rewrite (Hnew y Hy) in Hx.
  - simpl in Hnodup, Hnew. apply IH; [|done|].
    + by apply drain_well_placed.
    + intros y Hy. by apply drain_store_same, Hnew.
Qed.

Lemma filter_absent (l : list string) x :
  x ∉ l → filter (λ y, y = x) l = [].
Proof.
  induction l as [|y l IH]; [done|].
  intros [Hne Hx]%not_elem_of_cons. rewrite filter_cons.
  rewrite decide_False by done. by apply IH.
Qed.

Lemma occurrences_NoDup (l : list string) x :
  NoDup l → x ∈ l → length (filter (λ y, y = x) l) = 1.
Proof.
  induction 1 as [|y l Hy Hnodup IH]; [by intros ?%elem_of_nil|].
  intros Hx. rewrite filter_cons. destruct (decide (y = x)) as [->|Hne].
  - simpl. by rewrite filter_absent.
  - apply IH. by apply elem_of_cons in Hx as [?|?].
Qed.

(** C4.  After every history whose [create_ticket] calls have pairwise
    distinct ids, a stored ticket that is not closed occurs exactly once
    in the three workloads and the three queues together: it is either
    pending and in the workload of its agent, or open and in a queue,
    and in no other place. *)
Theorem open_ticket_in_exactly_one_place ops loaded x t :
  NoDup (created_ids ops) →
  tickets (run ops (init loaded)) !! x = Some t →
  status t ≠ TICKET_STATUS.CLOSED →
  occurrences (run ops (init loaded)) x = 1 ∧
  (status t = TICKET_STATUS.PENDING ∧
     (∃ a, assigned_agent t = Some a ∧ x ∈ workload (run ops (init loaded)) a) ∧
     x ∉ queued (run ops (init loaded)) ∨
   status t = TICKET_STATUS.OPEN ∧
     x ∈ queued (run ops (init loaded)) ∧
     x ∉ held (run ops (init loaded))).
Proof.
  intros Hnodup Hx Hopen.
  destruct (run_well_placed ops (init loaded)) as (Hcons & Hplaces & Hplaced).
  { apply init_well_placed. }
  { done. }
  { intros y _. apply lookup_empty. }
  assert (∀ y, y ∈ held (run ops (init loaded)) →
               y ∉ queued (run ops (init loaded))) as Hdisj.
  { unfold places in Hplaces. by apply NoDup_app in Hplaces as (_ & ? & _). }
  destruct (Hplaced x t Hx) as [[Hst Hq]|[[Hst (a & Ha & Hw)]|[Hst _]]];
    [| |done].
  - split.
    + apply occurrences_NoDup; [done|]. by apply queued_places.
    + right. split_and!; [done..|]. intros Hh. by apply (Hdisj x).
  - pose proof (workload_held _ _ _ Hw) as Hh. split.
    + apply occurrences_NoDup; [done|]. by apply held_app_queued.
    + left. split_and!; [done| |by apply Hdisj]. by exists a.
Qed.

(** ** The scenarios *)

Lemma open_ticket_in_exactly_one_place_witness :
  occurrences (run sixth_urgent_ticket (init None)) "T2" = 1 ∧
  occurrences (run sixth_urgent_ticket (init None)) "T6" = 1.
Proof.
  assert (NoDup (created_ids sixth_urgent_ticket)) as Hnodup.
  { apply (bool_decide_unpack _). vm_compute. exact I. }
  split.
  - apply (open_ticket_in_exactly_one_place sixth_urgent_ticket None "T2"
             (assigned_ticket "Agent 1"
                (new_ticket 0 "T2" "high" "software" None)));
      [exact Hnodup|reflexivity|discriminate].
  - apply (open_ticket_in_exactly_one_place sixth_urgent_ticket None "T6"
             (new_ticket 0 "T6" "high" "software" None));
      [exact Hnodup|reflexivity|discriminate].
Defined.

Lemma drain_visits_in_order_witness :
  (_process_queues waiting_instance).1 =
    Returned
      [mkAssignment "U2" "Agent 2" "692a056cfad7d194cd3f0992";
       mkAssignment "V" "Agent 2" "692a056cfad7d194cd3f0992"] ∧
  sublist (high_priority_queue (_process_queues waiting_instance).2)
    (high_priority_queue waiting_instance).
Proof.
  destruct (drain_visits_in_order waiting_instance)
    as (Hreturned & _ & _ & _ & [Hhigh _] & _).
  - reflexivity.
  - repeat constructor; eexists; reflexivity.
  - split; [|exact Hhigh]. rewrite Hreturned. reflexivity.
Defined.

Lemma close_ticket_idempotent_witness :
  close_ticket "X" waiting_instance =
    (Returned (already_closed "Ticket already closed" "X"), waiting_instance).
Proof.
  apply (close_ticket_idempotent "X"
           (set_status TICKET_STATUS.CLOSED
              (new_ticket 0 "X" "low" "network" None)));
    reflexivity.
Defined.

Lemma routing_ignores_network_witness :
  let r1 := create_ticket 0 "N" "medium" "network" (init (Some constant_network)) in
  let r2 := create_ticket 0 "N" "medium" "network" (init None) in
  outcome_map blind_created r1.1 = outcome_map blind_created r2.1 ∧
  agent_tickets r1.2 = agent_tickets r2.2.
Proof.
  intros r1 r2.
  destruct (routing_ignores_network 0 "N" "medium" "network"
              (init (Some constant_network)) (init None))
    as (Hanswer & _ & Hworkloads & _).
  - reflexivity.
  - intros _. exists constant_network. split; [reflexivity|].
    intros x. simpl. lia.
  - discriminate.
  - split; [exact Hanswer|exact Hworkloads].
Defined.

(** C9, as stated, fails for a loaded network with fewer than three
    outputs.  From the same routing state, [create_ticket] with the
    two-output network loaded raises [IndexError] at [proba[2]], before
    the ticket is stored or routed, and leaves the workloads empty; with
    no model it returns and assigns the ticket to the network
    specialist. *)
Lemma two_output_network_blocks_creation :
  let loaded := init (Some two_output_network) in
  let absent := init None in
  routing_state loaded = routing_state absent ∧
  create_ticket 0 "N" "medium" "network" loaded = (Raised IndexError, loaded) ∧
  (create_ticket 0 "N" "medium" "network" absent).1 =
    Returned
      (mkCreated "N" "medium" "network" "pending" (Some "Agent 3")
         (Some "69438f79c1af7ec03ff7fed0") None None None false) ∧
  agent_tickets (create_ticket 0 "N" "medium" "network" loaded).2 =
    [("Agent 1", []); ("Agent 2", []); ("Agent 3", [])] ∧
  agent_tickets (create_ticket 0 "N" "medium" "network" absent).2 =
    [("Agent 1", []); ("Agent 2", []); ("Agent 3", ["N"])].
Proof. vm_compute. repeat split. Qed.

(** C1.  The sixth urgent software ticket "T6" is queued and never
    assigned.  [close_ticket "T6"] marks it closed and leaves its id in
    the high queue; the drain of the next closure, of "T1", evaluates
    that id again and assigns the closed ticket. *)
Theorem closed_ticket_stays_queued :
  let self := run sixth_urgent_ticket (init None) in
  let after := (close_ticket "T6" self).2 in
  status_of self "T6" = Some "open" ∧
  high_priority_queue self = ["T6"] ∧
  (close_ticket "T6" self).1 = Returned (closure "T6" "closed" None []) ∧
  status_of after "T6" = Some "closed" ∧
  high_priority_queue after = ["T6"] ∧
  (close_ticket "T1" after).1 =
    Returned
      (closure "T1" "closed" (Some "Agent 1")
         [mkAssignment "T6" "Agent 1" "692479b918668dee67209282"]).
Proof. vm_compute. repeat split. Qed.

(** C2.  In the history that creates six urgent software tickets and
    closes the queued "T6" and then "T1", the status of "T6" goes from
    open to closed and then from closed back to pending. *)
Theorem closed_ticket_becomes_pending :
  let ops := sixth_urgent_ticket ++ [CloseTicket "T6"] in
  status_of (run sixth_urgent_ticket (init None)) "T6" = Some "open" ∧
  status_of (run ops (init None)) "T6" = Some "closed" ∧
  status_of (run (ops ++ [CloseTicket "T1"]) (init None)) "T6" = Some "pending" ∧
  workload (run (ops ++ [CloseTicket "T1"]) (init None)) "Agent 1" =
    ["T2"; "T3"; "T4"; "T5"; "T6"].
Proof. vm_compute. repeat split. Qed.

(** ** The closure and the drain it triggers *)

Lemma assigned_to_app agent made made' :
  assigned_to agent (made ++ made') =
    assigned_to agent made ++ assigned_to agent made'.
Proof. unfold assigned_to. by rewrite filter_app, fmap_app. Qed.

(** A walk appends to each workload the ids it assigned to that agent. *)
Lemma walk_workload l self agent :
  workload (walk l self).2 agent =
    workload self agent ++ assigned_to agent (walk l self).1.
Proof.
  revert self. induction l as [|x l IH]; intros self.
  - simpl. by rewrite app_nil_r.
  - rewrite walk_cons. cbn [fst snd]. rewrite assigned_to_app, IH.
    destruct (evaluate_cases x self) as [->|(t & a & _ & _ & ->)]; [done|].
    cbn [fst snd option_list].
    assert (assigned_to agent
              (option_list (Some (mkAssignment x a (agent_id_of a))))
            = if decide (a = agent) then [x] else []) as ->.
    { unfold assigned_to, option_list. cbn.
      by destruct (decide (a = agent)). }
    destruct (decide (a = agent)) as [->|Hne].
    + by rewrite assign_workload_eq, <- (assoc_L (++)).
    + by rewrite assign_workload_ne.
Qed.

Lemma queue_put_workload queue v self agent :
  workload (queue_put queue v self) agent = workload self agent.
Proof. by destruct queue. Qed.

Lemma drain_workload self agent :
  workload (drain self).2 agent =
    workload self agent ++ assigned_to agent (drain self).1.
Proof.
  pose proof (drain_walks self) as Hdrain. cbn zeta in Hdrain.
  rewrite Hdrain. cbn [fst snd].
  rewrite !queue_put_workload, !assigned_to_app, !walk_workload.
  by rewrite <- !(assoc_L (++)).
Qed.

(** C7.  On a ticket that is not closed and sits in the workload of its
    agent, [close_ticket] first takes exactly one occurrence of the id
    out of that workload, which frees one slot there, and leaves every
    other workload and every queue as it was; it then runs
    [_process_queues] on that instance, which returns and only appends
    to each workload the tickets that it reports as newly assigned to
    that agent. *)
Theorem close_ticket_frees_own_agent ticket_id ticket agent self :
  consistent self →
  tickets self !! ticket_id = Some ticket →
  status ticket ≠ TICKET_STATUS.CLOSED →
  assigned_agent ticket = Some agent →
  ticket_id ∈ workload self agent →
  let released := release ticket_id ticket self in
  let drained := _process_queues released in
  close_ticket ticket_id self =
    (outcome_map (closure ticket_id TICKET_STATUS.CLOSED (Some agent))
       drained.1,
     drained.2) ∧
  list_remove ticket_id (workload self agent) = Some (workload released agent) ∧
  workload self agent ≡ₚ ticket_id :: workload released agent ∧
  length (workload released agent) + 1 = length (workload self agent) ∧
  (∀ other, other ≠ agent → workload released other = workload self other) ∧
  (∀ queue, queue_get queue released = queue_get queue self) ∧
  ∃ newly_assigned,
    drained.1 = Returned newly_assigned ∧
    ∀ a, workload drained.2 a = workload released a ++ assigned_to a newly_assigned.
Proof.
  intros Hcons Hticket Hopen Hagent Hin released drained.
  pose proof Hcons as (Hreg & _ & Hknown).
  pose proof (Hknown _ _ _ Hticket Hagent) as Hregistered.
  destruct (list_remove_Some _ _ Hin) as (rest & Hrest & Hperm & _).
  assert (agent_tickets released = dict_set (agent_tickets self) agent rest)
    as Hworkloads.
  { unfold released, release. by rewrite Hagent, Hrest. }
  assert (workload released agent = rest) as Hown.
  { unfold workload. by rewrite Hworkloads, dict_get_set_eq. }
  assert (drained = (Returned (drain released).1, (drain released).2))
    as Hdrained.
  { apply process_queues_consistent. by apply release_consistent. }
  split_and!.
  - rewrite (close_ticket_open _ ticket), Hagent; [|done..|].
    + fold released. unfold bind. fold drained. by rewrite Hdrained.
    + intros a Ha. rewrite Hagent in Ha. by injection Ha as <-.
  - by rewrite Hown.
  - by rewrite Hown.
  - rewrite Hown. apply list_remove_length in Hrest. lia.
  - intros other Hne. unfold workload.
    by rewrite Hworkloads, dict_get_set_ne.
  - intros queue. apply release_queue_get.
  - exists (drain released).1. rewrite Hdrained. split; [done|].
    intros a. apply drain_workload.
Qed.

Lemma close_ticket_frees_own_agent_witness :
  let self := run [CreateTicket 0 "T1" "medium" "hardware"] (init None) in
  let ticket :=
    assigned_ticket "Agent 2" (new_ticket 0 "T1" "medium" "hardware" None) in
  length (workload (release "T1" ticket self) "Agent 2") + 1 =
    length (workload self "Agent 2") ∧
  ∀ other, other ≠ "Agent 2" →
    workload (release "T1" ticket self) other = workload self other.
Proof.
  intros self ticket.
  destruct (close_ticket_frees_own_agent "T1" ticket "Agent 2" self)
    as (_ & _ & _ & Hlength & Hothers & _).
  - apply run_consistent.
  - reflexivity.
  - discriminate.
  - reflexivity.
  - vm_compute. left.
  - split; [exact Hlength|exact Hothers].
Defined.

(** * Further properties of the engine *)

(** ** Validation and letter case *)

Lemma lower_ascii_idempotent c : lower_ascii (lower_ascii c) = lower_ascii c.
Proof. by destruct c as [[] [] [] [] [] [] [] []]. Qed.

(** A byte outside [a]-[z] is the lower case of itself only. *)
Lemma lower_ascii_inv c b :
  lower_ascii c = b → nat_of_ascii b < 97 ∨ 122 < nat_of_ascii b → c = b.
Proof.
  intros <-. destruct c as [[] [] [] [] [] [] [] []]; vm_compute;
    intros [?|?]; reflexivity || lia.
Qed.

(** The three ways in which [lower] treats the first character. *)
Lemma lower_cons c s :
  (∃ s1, c = "196"%char ∧ s = String "176" s1 ∧
         lower (String c s) = String "i" (String "204" (String "135" (lower s1)))) ∨
  (∃ s2, c = "226"%char ∧ s = String "132" (String "170" s2) ∧
         lower (String c s) = String "k" (lower s2)) ∨
  (¬ (c = "196"%char ∧ ∃ s1, s = String "176" s1)) ∧
  (¬ (c = "226"%char ∧ ∃ s2, s = String "132" (String "170" s2))) ∧
  lower (String c s) = String (lower_ascii c) (lower s).
Proof.
  destruct s as [|c1 s1].
  { right. right. split_and!; [by intros [_ [? ?]]..|done]. }
  cbn [lower].
  destruct (Ascii.eqb_spec c "196") as [->|Hc]; cbn [andb].
  - destruct (Ascii.eqb_spec c1 "176") as [->|Hc1].
    + left. by exists s1.
    + right. right. split_and!.
      * intros [_ [s1' [= ? ?]]]. done.
      * by intros [? _].
      * by destruct s1 as [|c2 s2].
  - destruct (Ascii.eqb_spec c "226") as [->|Hc']; cbn [andb].
    + destruct (Ascii.eqb_spec c1 "132") as [->|Hc1]; cbn [andb].
      * destruct s1 as [|c2 s2].
        { right. right. split_and!; [by intros [? _]|by intros [_ [? ?]]|done]. }
        destruct (Ascii.eqb_spec c2 "170") as [->|Hc2].
        -- right. left. by exists s2.
        -- right. right. split_and!; [by intros [? _]| |done].
           intros [_ [s2' [= ? ?]]]. done.
      * right. right. split_and!; [by intros [? _]| |by destruct s1 as [|c2 s2]].
        intros [_ [s2' [= ? ?]]]. done.
    + right. right. split_and!; [by intros [? _]..|by destruct s1 as [|c2 s2]].
Qed.

Lemma lower_plain c s :
  c ≠ "196"%char → c ≠ "226"%char →
  lower (String c s) = String (lower_ascii c) (lower s).
Proof.
  intros Hi Hk.
  by destruct (lower_cons c s) as [(? & ? & _)|[(? & ? & _)|(_ & _ & ?)]].
Qed.

(** [lower] yields a byte outside ASCII only from that byte. *)
Lemma lower_head_inv b s r :
  128 ≤ nat_of_ascii b →
  lower s = String b r → ∃ s', s = String b s' ∧ r = lower s'.
Proof.
  intros Hb. destruct s as [|c s]; [done|].
  destruct (lower_cons c s)
    as [(s1 & -> & -> & ->)|[(s2 & -> & -> & ->)|(_ & _ & ->)]].
  - intros [= <- _]. vm_compute in Hb. lia.
  - intros [= <- _]. vm_compute in Hb. lia.
  - intros [= Hc <-]. exists s. split; [|done]. f_equal.
    apply lower_ascii_inv; [done|lia].
Qed.

Lemma lower_idempotent s : lower (lower s) = lower s.
Proof.
  remember (String.length s) as n eqn:Hn. revert s Hn.
  induction n as [n IH] using lt_wf_ind. intros s Hn.
  destruct s as [|c s]; [done|].
  assert (∀ s', String.length s' < n → lower (lower s') = lower s') as IH'.
  { intros s' Hs'. by apply (IH (String.length s')). }
  simpl in Hn.
  destruct (lower_cons c s)
    as [(s1 & -> & -> & ->)|[(s2 & -> & -> & ->)|(Hi & Hk & ->)]].
  - rewrite !lower_plain by done. rewrite IH'; [done|]. simpl in Hn. lia.
  - rewrite lower_plain by done. rewrite IH'; [done|]. simpl in Hn. lia.
  - destruct (lower_cons (lower_ascii c) (lower s))
      as [(s1 & Hc & Hs & _)|[(s2 & Hc & Hs & _)|(_ & _ & ->)]].
    + exfalso. apply Hi. split.
      * apply lower_ascii_inv; [done|]. vm_compute. lia.
      * apply lower_head_inv in Hs as (s' & -> & _); [by eexists|].
        vm_compute. lia.
    + exfalso. apply Hk. split.
      * apply lower_ascii_inv; [done|]. vm_compute. lia.
      * apply lower_head_inv in Hs as (s' & -> & Hs); [|vm_compute; lia].
        symmetry in Hs.
        apply lower_head_inv in Hs as (s'' & -> & _); [by eexists|].
        vm_compute. lia.
    + rewrite lower_ascii_idempotent, IH'; [done|lia].
Qed.

(** The Kelvin sign stands for [k]: "NETWOR" followed by U+212A is read
    as the type "network". *)
Lemma lower_kelvin_sign :
  lower ("NETWOR" ++ String "226" (String "132" (String "170" ""))) = "network".
Proof. reflexivity. Qed.

(** [create_ticket] and [_find_available_agent] read the priority and the
    type through [lower]: any spelling of the letter case gives the same
    answer and the same instance as the lower-case spelling. *)
Theorem create_ticket_case_insensitive now ticket_id p ty self :
  create_ticket now ticket_id p ty self =
    create_ticket now ticket_id (lower p) (lower ty) self ∧
  _find_available_agent self p ty =
    _find_available_agent self (lower p) (lower ty).
Proof.
  split.
  - rewrite !create_ticket_unfold. by rewrite !lower_idempotent.
  - unfold _find_available_agent. by rewrite !lower_idempotent.
Qed.

(** A priority or a type outside the enumerations makes [create_ticket]
    raise [ValueError] before it touches the instance, whatever the
    instance and whether or not a network is loaded. *)
Theorem create_ticket_rejects_invalid now ticket_id p ty self :
  lower p ∉ PRIORITY_LEVELS ∨ lower ty ∉ TICKET_TYPES →
  create_ticket now ticket_id p ty self = (Raised ValueError, self).
Proof.
  intros Hbad. rewrite create_ticket_unfold.
  destruct (decide (lower p ∈ PRIORITY_LEVELS)) as [Hp|Hp].
  - destruct Hbad as [?|Hty]; [done|].
    rewrite (bool_decide_eq_true_2 _ Hp). cbn [negb].
    by rewrite (bool_decide_eq_false_2 _ Hty).
  - by rewrite (bool_decide_eq_false_2 _ Hp).
Qed.

Lemma create_ticket_rejects_invalid_witness :
  create_ticket 0 "T1" "urgent" "software" waiting_instance =
    (Raised ValueError, waiting_instance).
Proof.
  apply create_ticket_rejects_invalid. left. vm_compute.
  intros H. apply list_elem_of_In in H. simpl in H.
  destruct H as [H|[H|[H|[]]]]; discriminate H.
Defined.

(** ** The answer of [create_ticket] *)

Lemma create_ticket_routing_run now x p ty prediction self :
  registry_ok self →
  create_ticket_routing now x p ty prediction self =
    (Returned
       (created_answer x p ty prediction (_find_available_agent self p ty)),
     place x (new_ticket now x p ty prediction) self).
Proof.
  intros Hreg. unfold create_ticket_routing.
  rewrite bind_modify, bind_gets.
  set (ticket := new_ticket now x p ty prediction).
  rewrite (find_available_agent_ext _ self) by done.
  unfold place. change (priority ticket) with p.
  change (ticket_type ticket) with ty.
  destruct (_find_available_agent self p ty) as [agent|] eqn:Hfind.
  - pose proof (find_available_agent_known _ _ _ _ Hreg Hfind) as Hagent.
    rewrite (agent_nonempty _ Hagent). cbn [default from_option Datatypes.id].
    rewrite (bind_Returned _ _ _ (assigned_ticket agent ticket)
               (assign x agent ticket self)); [done|].
    rewrite bind_setattr.
    erewrite (bind_Returned (getitem _)); [|by rewrite agent_id_known].
    rewrite !bind_setattr, bind_agent_append by (simpl; by rewrite Hreg).
    unfold ret, assign, workload, set_agent_tickets, set_tickets. simpl.
    by rewrite !insert_insert_eq.
  - cbn [truthy].
    rewrite (bind_Returned _ _ _ ticket (enqueue x ticket self)); [done|].
    rewrite bind_modify. unfold setattr. rewrite bind_modify. unfold ret.
    unfold enqueue. change (priority ticket) with p.
    destruct (_get_queue_for_priority p); simpl; by rewrite insert_insert_eq.
Qed.

(** What the model part of [create_ticket] yields on valid fields. *)
Lemma create_ticket_prediction p ty self :
  model_ok self → p ∈ PRIORITY_LEVELS → ty ∈ TICKET_TYPES →
  ∃ prediction,
    (if model_loaded self
     then bind (predict_agent p ty) (λ r, ret (Some r))
     else ret None) self = (Returned prediction, self) ∧
    (model_loaded self = false → prediction = None).
Proof.
  intros Hok Hp Hty. destruct (model_loaded self) eqn:Hloaded.
  - destruct (predict_agent_returns _ _ self Hloaded Hok Hp Hty) as [r Hr].
    exists (Some r). split; [|done]. by rewrite (bind_Returned _ _ _ _ _ Hr).
  - by exists None.
Qed.

(** On valid fields [create_ticket] stores and routes the ticket it
    built and answers with what [_find_available_agent] chose. *)
Lemma create_ticket_run now ticket_id p ty self :
  registry_ok self → model_ok self →
  lower p ∈ PRIORITY_LEVELS → lower ty ∈ TICKET_TYPES →
  ∃ prediction,
    create_ticket now ticket_id p ty self =
      (Returned
         (created_answer ticket_id (lower p) (lower ty) prediction
            (_find_available_agent self (lower p) (lower ty))),
       place ticket_id
         (new_ticket now ticket_id (lower p) (lower ty) prediction) self) ∧
    (model_loaded self = false → prediction = None).
Proof.
  intros Hreg Hok Hp Hty.
  destruct (create_ticket_prediction _ _ self Hok Hp Hty)
    as (prediction & Hpred & Hnone).
  exists prediction. split; [|done].
  rewrite create_ticket_unfold.
  rewrite (bool_decide_eq_true_2 _ Hp), (bool_decide_eq_true_2 _ Hty).
  cbn [negb]. rewrite bind_gets, (bind_Returned _ _ _ _ _ Hpred).
  by apply create_ticket_routing_run.
Qed.

(** On an instance with the registry of [__init__], valid fields and a
    usable model setting, [create_ticket] returns.  Its answer names the
    agent that [_find_available_agent] chose, with that agent's id and
    status "pending", or no agent, status "open" and [queued]; the ticket
    it stored under the id says the same. *)
Theorem create_ticket_answer now ticket_id p ty self :
  registry_ok self → model_ok self →
  lower p ∈ PRIORITY_LEVELS → lower ty ∈ TICKET_TYPES →
  let assigned := _find_available_agent self (lower p) (lower ty) in
  ∃ prediction,
    create_ticket now ticket_id p ty self =
      (Returned
         (created_answer ticket_id (lower p) (lower ty) prediction assigned),
       place ticket_id
         (new_ticket now ticket_id (lower p) (lower ty) prediction) self) ∧
    (model_loaded self = false → prediction = None) ∧
    ∃ t,
      tickets (create_ticket now ticket_id p ty self).2 !! ticket_id = Some t ∧
      id t = ticket_id ∧ priority t = lower p ∧ ticket_type t = lower ty ∧
      assigned_agent t = assigned ∧
      assigned_agent_id t = agent_id_of <$> assigned ∧
      status t =
        (if assigned is Some _ then TICKET_STATUS.PENDING
         else TICKET_STATUS.OPEN).
Proof.
  intros Hreg Hok Hp Hty assigned.
  destruct (create_ticket_run now ticket_id p ty self Hreg Hok Hp Hty)
    as (prediction & Hrun & Hnone).
  fold assigned in Hrun. exists prediction.
  split; [done|]. split; [done|]. rewrite Hrun. cbn [snd]. unfold place.
  cbn [priority ticket_type new_ticket]. fold assigned.
  destruct assigned as [a|].
  - eexists. split; [apply lookup_insert_eq|done].
  - exists (new_ticket now ticket_id (lower p) (lower ty) prediction).
    split; [|done]. unfold enqueue.
    destruct (_get_queue_for_priority _); apply lookup_insert_eq.
Qed.

Lemma create_ticket_answer_witness :
  ∃ prediction,
    create_ticket 0 "N" "Medium" "Network" (init (Some constant_network)) =
      (Returned
         (created_answer "N" "medium" "network" prediction (Some "Agent 3")),
       place "N" (new_ticket 0 "N" "medium" "network" prediction)
         (init (Some constant_network))).
Proof.
  destruct (create_ticket_answer 0 "N" "Medium" "Network"
              (init (Some constant_network)))
    as (prediction & Hrun & _).
  - reflexivity.
  - intros _. exists constant_network. split; [reflexivity|].
    intros x. simpl. lia.
  - vm_compute. apply list_elem_of_In. simpl. tauto.
  - vm_compute. apply list_elem_of_In. simpl. tauto.
  - exists prediction. exact Hrun.
Defined.

(** On the registry of [__init__], [create_ticket] either raises and
    leaves the instance as it was, or returns after it has stored and
    routed the ticket. *)
Lemma create_ticket_cases now x p ty self :
  registry_ok self →
  (∃ e, create_ticket now x p ty self = (Raised e, self)) ∨
  (∃ answer prediction,
     create_ticket now x p ty self =
       (Returned answer,
        place x (new_ticket now x (lower p) (lower ty) prediction) self)).
Proof.
  intros Hreg. rewrite create_ticket_unfold.
  destruct (bool_decide (lower p ∈ PRIORITY_LEVELS)); [|left; by eexists].
  destruct (bool_decide (lower ty ∈ TICKET_TYPES)); [|left; by eexists].
  cbn [negb]. rewrite bind_gets.
  assert (∃ o : outcome (option (string * float * list (string * float))),
    (if model_loaded self
     then bind (predict_agent (lower p) (lower ty)) (λ r, ret (Some r))
     else ret None) self = (o, self)) as [o Ho].
  { destruct (model_loaded self); [|by eexists].
    unfold bind, ret.
    pose proof (predict_agent_state (lower p) (lower ty) self) as Hst.
    destruct (predict_agent _ _ self) as [[r|e] s']; simpl in Hst; subst;
      by eexists. }
  destruct o as [prediction|e].
  - right. rewrite (bind_Returned _ _ _ _ _ Ho).
    rewrite create_ticket_routing_run by done. by eexists _, _.
  - left. exists e. by rewrite (bind_Raised _ _ _ _ _ Ho).
Qed.

(** On the registry of [__init__], a [create_ticket] that raises, for
    whatever reason, leaves the instance as it was, and one that returns
    adds its id once to the workloads and queues and writes only the
    store entry of that id, whether or not the id was in use: the method
    has no guard against a second ticket with the same id. *)
Theorem create_ticket_adds_one_place now ticket_id p ty self :
  registry_ok self →
  let after := (create_ticket now ticket_id p ty self).2 in
  (∀ e, (create_ticket now ticket_id p ty self).1 = Raised e → after = self) ∧
  (∀ answer,
     (create_ticket now ticket_id p ty self).1 = Returned answer →
     places after ≡ₚ ticket_id :: places self ∧
     is_Some (tickets after !! ticket_id) ∧
     ∀ y, y ≠ ticket_id → tickets after !! y = tickets self !! y).
Proof.
  intros Hreg after. subst after.
  destruct (create_ticket_cases now ticket_id p ty self Hreg)
    as [[e' ->]|(answer' & prediction & ->)]; cbn [fst snd].
  - by split.
  - split; [done|]. intros _ _. split_and!.
    + unfold place.
      destruct (_find_available_agent _ _ _) as [a|] eqn:Hfind.
      * apply assign_places; [done|]. by eapply find_available_agent_known.
      * apply enqueue_places.
    + unfold place. destruct (_find_available_agent _ _ _) as [a|].
      * simpl. by rewrite lookup_insert_eq.
      * unfold enqueue. destruct (_get_queue_for_priority _); simpl;
          by rewrite lookup_insert_eq.
    + intros y Hy. by apply place_tickets_other.
Qed.

Lemma create_ticket_adds_one_place_witness :
  let self := run [CreateTicket 0 "T1" "low" "network"] (init None) in
  places (create_ticket 1 "T1" "low" "network" self).2 ≡ₚ "T1" :: places self.
Proof.
  intros self.
  destruct (create_ticket_adds_one_place 1 "T1" "low" "network" self)
    as [_ Hreturned].
  - reflexivity.
  - edestruct Hreturned as [Hplaces _]; [reflexivity|exact Hplaces].
Defined.

(** ** The routing decision *)

Lemma find_app_first {A} (f : A → bool) l1 l2 :
  find f (l1 ++ l2) =
    match find f l1 with Some x => Some x | None => find f l2 end.
Proof.
  induction l1 as [|x l1 IH]; [done|]. simpl. by destruct (f x).
Qed.

Lemma find_None_all {A} (f : A → bool) l :
  find f l = None ↔ ∀ x, x ∈ l → f x = false.
Proof.
  induction l as [|x l IH]; simpl.
  - split; [|done]. by intros _ x ?%elem_of_nil.
  - destruct (f x) eqn:Hx.
    + split; [done|]. intros Hall. rewrite Hall in Hx; [done|left].
    + rewrite IH. split.
      * intros Hall y [->|?]%elem_of_cons; auto.
      * intros Hall y Hy. apply Hall. by right.
Qed.

(** [_find_available_agent] returns the first agent with spare capacity
    among those it tries. *)
Lemma find_available_agent_preference self p ty :
  _find_available_agent self p ty =
    find (is_agent_available self) (preference self p ty).
Proof.
  unfold _find_available_agent, preference.
  destruct (dict_get TYPE_TO_PRIMARY_AGENT (lower ty)) as [a|] eqn:Hprimary.
  - rewrite (agent_nonempty a) by by eapply primary_agent_known.
    cbn [default from_option Datatypes.id andb].
    change (option_list (Some a)) with [a]. rewrite (find_app_first _ [a]).
    cbn [find].
    destruct (is_agent_available self a); [done|].
    destruct (bool_decide (lower p = "high")); [done|].
    by rewrite find_app_first.
  - cbn [truthy andb]. change (option_list None ++ ?l) with l.
    destruct (bool_decide (lower p = "high")); [done|].
    by rewrite find_app_first.
Qed.

Lemma preference_known self p ty a :
  registry_ok self → a ∈ preference self p ty → a ∈ agents.
Proof.
  intros Hreg. unfold preference. rewrite elem_of_app. intros [Ha|Ha].
  - destruct (dict_get TYPE_TO_PRIMARY_AGENT _) as [b|] eqn:Hb;
      [|by apply elem_of_nil in Ha].
    apply list_elem_of_singleton in Ha as ->. by eapply primary_agent_known.
  - destruct (bool_decide _); [by apply elem_of_nil in Ha|].
    apply elem_of_app in Ha as [Ha|Ha]; [|by rewrite <- Hreg].
    destruct (dict_get SECONDARY_ASSIGNMENTS _) as [l|] eqn:Hl;
      [|by apply elem_of_nil in Ha].
    by eapply secondary_agents_known.
Qed.

Lemma get_available_agents_elem_of self a :
  a ∈ get_available_agents self ↔
  a ∈ dict_keys (agent_tickets self) ∧ is_agent_available self a = true.
Proof.
  unfold get_available_agents. rewrite list_elem_of_filter. tauto.
Qed.

Lemma find_available_agent_listed self p ty a :
  registry_ok self → _find_available_agent self p ty = Some a →
  a ∈ get_available_agents self.
Proof.
  intros Hreg Hfind. apply get_available_agents_elem_of. split.
  - rewrite Hreg. by eapply find_available_agent_known.
  - by eapply find_available_agent_available.
Qed.

Lemma find_available_agent_None_non_urgent self p ty :
  registry_ok self → lower p ≠ "high" →
  _find_available_agent self p ty = None ↔ get_available_agents self = [].
Proof.
  intros Hreg Hp. rewrite find_available_agent_preference, find_None_all. split.
  - intros Hall. apply elem_of_nil_inv. intros a Ha.
    apply get_available_agents_elem_of in Ha as [Hkey Ha].
    rewrite Hall in Ha; [done|]. unfold preference.
    rewrite bool_decide_eq_false_2 by done.
    rewrite !elem_of_app. auto.
  - intros Hnone a Ha.
    destruct (is_agent_available self a) eqn:Havail; [|done].
    assert (a ∈ get_available_agents self) as Hin.
    { apply get_available_agents_elem_of. split; [|done].
      rewrite Hreg. by eapply preference_known. }
    rewrite Hnone in Hin. by apply elem_of_nil in Hin.
Qed.

(** On the registry of [__init__], the agent that
    [_find_available_agent] returns is one that [get_available_agents]
    lists; and a ticket that is not urgent is left without an agent
    exactly when [get_available_agents] is empty, whatever its type. *)
Theorem non_urgent_waits_only_when_all_full self p ty :
  registry_ok self →
  (∀ a, _find_available_agent self p ty = Some a →
        a ∈ get_available_agents self) ∧
  (lower p ≠ "high" →
   (_find_available_agent self p ty = None ↔ get_available_agents self = [])).
Proof.
  intros Hreg. split.
  - intros a. by apply find_available_agent_listed.
  - by apply find_available_agent_None_non_urgent.
Qed.

Lemma non_urgent_waits_only_when_all_full_witness :
  _find_available_agent waiting_instance "low" "software" = None ↔
  get_available_agents waiting_instance = [].
Proof.
  apply non_urgent_waits_only_when_all_full; [reflexivity|discriminate].
Defined.

(** For a medium or low ticket of a valid type, the three agents are
    tried in one fixed order: the specialist of the type, the secondary
    agent that [SECONDARY_ASSIGNMENTS] names for the pair, then the
    remaining agent.  The ticket gets the first of them with spare
    capacity. *)
Theorem non_urgent_fallback_order self p ty :
  registry_ok self →
  lower p ∈ PRIORITY_LEVELS → lower p ≠ "high" → lower ty ∈ TICKET_TYPES →
  ∃ a1 a2 a3,
    [a1; a2; a3] ≡ₚ agents ∧
    dict_get TYPE_TO_PRIMARY_AGENT (lower ty) = Some a1 ∧
    dict_get SECONDARY_ASSIGNMENTS (lower p, lower ty) = Some [a1; a2] ∧
    _find_available_agent self p ty =
      find (is_agent_available self) [a1; a2; a3].
Proof.
  intros Hreg Hp Hhigh Hty.
  rewrite find_available_agent_preference. unfold preference.
  rewrite bool_decide_eq_false_2 by done. rewrite Hreg.
  generalize (is_agent_available self). intros f.
  unfold PRIORITY_LEVELS in Hp. unfold TICKET_TYPES in Hty.
  apply elem_of_cons in Hp as [Hp|Hp]; [done|].
  apply elem_of_cons in Hp as [Hp|Hp];
    [|apply elem_of_cons in Hp as [Hp|Hp]; [|by apply elem_of_nil in Hp]];
    (apply elem_of_cons in Hty as [Hty|Hty];
     [|apply elem_of_cons in Hty as [Hty|Hty];
       [|apply elem_of_cons in Hty as [Hty|Hty];
         [|by apply elem_of_nil in Hty]]]);
    rewrite Hp, Hty.
  - exists "Agent 1", "Agent 2", "Agent 3". split_and!; [done..|].
    simpl. by destruct (f "Agent 1"), (f "Agent 2"), (f "Agent 3").
  - exists "Agent 2", "Agent 3", "Agent 1". split_and!; [|done..|].
    + unfold agents. by rewrite (Permutation_cons_append ["Agent 2"; "Agent 3"]).
    + simpl. by destruct (f "Agent 1"), (f "Agent 2"), (f "Agent 3").
  - exists "Agent 3", "Agent 1", "Agent 2". split_and!; [|done..|].
    + unfold agents. by rewrite (Permutation_cons_append ["Agent 1"; "Agent 2"]).
    + simpl. by destruct (f "Agent 1"), (f "Agent 2"), (f "Agent 3").
  - exists "Agent 1", "Agent 3", "Agent 2". split_and!; [|done..|].
    + unfold agents. apply perm_skip, perm_swap.
    + simpl. by destruct (f "Agent 1"), (f "Agent 2"), (f "Agent 3").
  - exists "Agent 2", "Agent 1", "Agent 3". split_and!; [|done..|].
    + unfold agents. apply perm_swap.
    + simpl. by destruct (f "Agent 1"), (f "Agent 2"), (f "Agent 3").
  - exists "Agent 3", "Agent 2", "Agent 1". split_and!; [|done..|].
    + unfold agents. rewrite (Permutation_cons_append ["Agent 2"; "Agent 1"]).
      simpl. apply perm_swap.
    + simpl. by destruct (f "Agent 1"), (f "Agent 2"), (f "Agent 3").
Qed.

Lemma non_urgent_fallback_order_witness :
  ∃ a1 a2 a3,
    [a1; a2; a3] ≡ₚ agents ∧
    dict_get TYPE_TO_PRIMARY_AGENT (lower "software") = Some a1 ∧
    dict_get SECONDARY_ASSIGNMENTS (lower "Low", lower "software")
      = Some [a1; a2] ∧
    _find_available_agent waiting_instance "Low" "software" =
      find (is_agent_available waiting_instance) [a1; a2; a3].
Proof.
  apply non_urgent_fallback_order.
  - reflexivity.
  - vm_compute. apply list_elem_of_In. simpl. tauto.
  - discriminate.
  - vm_compute. apply list_elem_of_In. simpl. tauto.
Defined.

(** ** The ticket store over a history *)

Lemma same_record_refl t : same_record t t.
Proof. by repeat split. Qed.

Lemma same_record_trans t1 t2 t3 :
  same_record t1 t2 → same_record t2 t3 → same_record t1 t3.
Proof.
  intros (? & ? & ? & ? & ? & ?) (? & ? & ? & ? & ? & ?).
  repeat split; congruence.
Qed.

Lemma ticket_evolves_refl t : ticket_evolves t t.
Proof. split; [apply same_record_refl|done]. Qed.

Lemma ticket_evolves_trans t1 t2 t3 :
  ticket_evolves t1 t2 → ticket_evolves t2 t3 → ticket_evolves t1 t3.
Proof.
  intros (? & ? & ?) (? & ? & ?). split_and!; [|auto..].
  by eapply same_record_trans.
Qed.

Lemma ticket_evolves_assigned a t : ticket_evolves t (assigned_ticket a t).
Proof. split_and!; [by repeat split|done|by eexists]. Qed.

Lemma ticket_evolves_closed t :
  ticket_evolves t (set_status TICKET_STATUS.CLOSED t).
Proof. split_and!; [by repeat split|done|done]. Qed.

Lemma step_consistent self o : consistent self → consistent (step self o).
Proof.
  intros Hcons.
  by apply (step_invariant (λ _, True) self o).
Qed.

Lemma run_app ops ops' self : run (ops ++ ops') self = run ops' (run ops self).
Proof. unfold run. apply foldl_app. Qed.

(** A property of consistent instances that every call of a history
    keeps is kept by the history. *)
Lemma run_steps (P : TicketClassifier → Prop) ops self :
  (∀ s o, o ∈ ops → consistent s → P s → P (step s o)) →
  consistent self → P self →
  consistent (run ops self) ∧ P (run ops self).
Proof.
  revert self. induction ops as [|o ops IH]; intros self Hstep Hcons HP;
    [done|].
  change (run (o :: ops) self) with (run ops (step self o)). apply IH.
  - intros s o' Ho'. apply Hstep. by right.
  - by apply step_consistent.
  - apply Hstep; [left|done..].
Qed.

Lemma created_ids_elem_of ops now x p ty :
  CreateTicket now x p ty ∈ ops → x ∈ created_ids ops.
Proof.
  intros Hin. unfold created_ids. apply list_elem_of_omap.
  by exists (CreateTicket now x p ty).
Qed.

Lemma place_tickets_eq x t self :
  ∃ t', tickets (place x t self) !! x = Some t' ∧ ticket_evolves t t'.
Proof.
  unfold place. destruct (_find_available_agent _ _ _) as [a|].
  - exists (assigned_ticket a t). simpl. rewrite lookup_insert_eq.
    split; [done|apply ticket_evolves_assigned].
  - exists t. split; [|apply ticket_evolves_refl].
    unfold enqueue. destruct (_get_queue_for_priority _); simpl;
      by rewrite lookup_insert_eq.
Qed.

(** A drain changes a stored ticket only by assigning it. *)
Lemma drain_evolves self x t :
  tickets self !! x = Some t →
  ∃ t', tickets (drain self).2 !! x = Some t' ∧ ticket_evolves t t'.
Proof.
  intros Hx.
  apply (drain_invariant
    (λ s, ∃ t', tickets s !! x = Some t' ∧ ticket_evolves t t')).
  - intros s q v H. by destruct q.
  - intros s y t0 a (t' & Ht' & Hev) Hy _. simpl.
    destruct (decide (y = x)) as [->|Hne].
    + rewrite lookup_insert_eq. exists (assigned_ticket a t0).
      split; [done|]. rewrite Ht' in Hy. injection Hy as ->.
      eapply ticket_evolves_trans; [done|apply ticket_evolves_assigned].
    + rewrite lookup_insert_ne by done. by exists t'.
  - exists t. split; [done|apply ticket_evolves_refl].
Qed.

(** A call that is not a [create_ticket] of the id [x] changes the
    ticket stored under [x] only by assigning or closing it. *)
Lemma step_evolves self o x t :
  consistent self → tickets self !! x = Some t →
  (∀ now p ty, o ≠ CreateTicket now x p ty) →
  ∃ t', tickets (step self o) !! x = Some t' ∧ ticket_evolves t t'.
Proof.
  intros Hcons Hx Hother.
  destruct (step_cases self o Hcons)
    as [->|[(now & y & p & ty & pr & -> & Hp & Hty & ->)
          |[(y & t0 & _ & Hy & Hopen & ->)|[_ ->]]]].
  - exists t. split; [done|apply ticket_evolves_refl].
  - rewrite place_tickets_other.
    + exists t. split; [done|apply ticket_evolves_refl].
    + intros ->. by eapply Hother.
  - destruct (decide (y = x)) as [->|Hne].
    + rewrite Hx in Hy. injection Hy as <-.
      destruct (drain_evolves (release x t self) x
                  (set_status TICKET_STATUS.CLOSED t)) as (t' & Ht' & Hev).
      { by rewrite release_tickets, lookup_insert_eq. }
      exists t'. split; [done|].
      eapply ticket_evolves_trans; [apply ticket_evolves_closed|done].
    + apply drain_evolves. by rewrite release_tickets, lookup_insert_ne.
  - by apply drain_evolves.
Qed.

Lemma step_store_grows self o x :
  consistent self → is_Some (tickets self !! x) →
  is_Some (tickets (step self o) !! x).
Proof.
  intros Hcons [t Hx].
  destruct (step_cases self o Hcons)
    as [->|[(now & y & p & ty & pr & -> & Hp & Hty & ->)
          |[(y & t0 & _ & Hy & Hopen & ->)|[_ ->]]]].
  - by exists t.
  - destruct (decide (y = x)) as [->|Hne].
    + destruct (place_tickets_eq x
                  (new_ticket now x (lower p) (lower ty) pr) self)
        as (t' & -> & _). by eexists.
    + rewrite place_tickets_other by done. by exists t.
  - apply drain_store_grows. rewrite release_tickets.
    destruct (decide (y = x)) as [->|Hne].
    + by rewrite lookup_insert_eq.
    + rewrite lookup_insert_ne by done. by exists t.
  - apply drain_store_grows. by exists t.
Qed.

Lemma run_evolves ops self x t :
  consistent self → tickets self !! x = Some t → x ∉ created_ids ops →
  ∃ t', tickets (run ops self) !! x = Some t' ∧ ticket_evolves t t'.
Proof.
  intros Hcons Hx Hnew.
  apply (run_steps
    (λ s, ∃ t', tickets s !! x = Some t' ∧ ticket_evolves t t') ops self);
    [|done|].
  - intros s o Ho Hs (t' & Ht' & Hev).
    destruct (step_evolves s o x t' Hs Ht') as (t'' & Ht'' & Hev').
    + intros now p ty ->. by eapply Hnew, created_ids_elem_of.
    + exists t''. split; [done|]. by eapply ticket_evolves_trans.
  - exists t. split; [done|apply ticket_evolves_refl].
Qed.

(** No method deletes a ticket: an id stored at some point of a history
    is stored at every later point, also when later calls raise or use
    the id again.  Unless a later [create_ticket] is given the id once
    more, the ticket keeps its id, priority, type, creation time and
    prediction, it is not open again once it has been assigned or closed,
    and it does not lose the agent it carries. *)
Theorem stored_ticket_is_kept ops ops' loaded x t :
  tickets (run ops (init loaded)) !! x = Some t →
  is_Some (tickets (run (ops ++ ops') (init loaded)) !! x) ∧
  (x ∉ created_ids ops' →
   ∃ t', tickets (run (ops ++ ops') (init loaded)) !! x = Some t' ∧
         same_record t t' ∧
         (status t ≠ TICKET_STATUS.OPEN → status t' ≠ TICKET_STATUS.OPEN) ∧
         (is_Some (assigned_agent t) → is_Some (assigned_agent t'))).
Proof.
  intros Hx. rewrite run_app.
  pose proof (run_consistent ops loaded) as Hcons. split.
  - apply (run_steps (λ s, is_Some (tickets s !! x)) ops'); [|done|by exists t].
    intros s o _. apply step_store_grows.
  - intros Hnew. by apply run_evolves.
Qed.

Lemma stored_ticket_is_kept_witness :
  let ops := [CreateTicket 7 "T1" "Medium" "hardware"] in
  let ops' := [CloseTicket "T1"; CreateTicket 9 "T2" "low" "network";
               DrainQueues] in
  ∃ t', tickets (run (ops ++ ops') (init None)) !! "T1" = Some t' ∧
        priority t' = "medium" ∧ created_at t' = 7%Z.
Proof.
  intros ops ops'.
  destruct (stored_ticket_is_kept ops ops' None "T1"
              (assigned_ticket "Agent 2"
                 (new_ticket 7 "T1" "medium" "hardware" None)))
    as [_ Hkept].
  - reflexivity.
  - assert ("T1" ∉ created_ids ops') as Hnew.
    { apply (bool_decide_unpack _). vm_compute. exact I. }
    destruct (Hkept Hnew) as (t' & Ht' & (_ & Hp & _ & Hc & _) & _).
    exists t'. split; [exact Ht'|]. split; [by rewrite <- Hp|by rewrite <- Hc].
Defined.

(** ** The shape of stored tickets *)

Lemma new_ticket_well_formed now x p ty prediction :
  p ∈ PRIORITY_LEVELS → ty ∈ TICKET_TYPES →
  ticket_well_formed x (new_ticket now x p ty prediction).
Proof.
  intros Hp Hty. split_and!; try done. left.
Qed.

Lemma assigned_ticket_well_formed x a t :
  a ∈ agents → ticket_well_formed x t →
  ticket_well_formed x (assigned_ticket a t).
Proof.
  intros Ha (Hid & Hp & Hty & _). split_and!; try done.
  - right. left.
  - simpl. by intros b [= <-].
Qed.

Lemma closed_ticket_well_formed x t :
  ticket_well_formed x t →
  ticket_well_formed x (set_status TICKET_STATUS.CLOSED t).
Proof.
  intros (Hid & Hp & Hty & _ & _ & _ & Hknown & Hagent).
  split_and!; try done.
  right. right. left.
Qed.

Lemma assign_store_well_formed x a t self :
  a ∈ agents → tickets self !! x = Some t →
  store_well_formed self → store_well_formed (assign x a t self).
Proof.
  intros Ha Hx Hwf y t'. simpl. destruct (decide (x = y)) as [->|Hne].
  - rewrite lookup_insert_eq. intros [= <-].
    apply assigned_ticket_well_formed; [done|]. by apply Hwf.
  - rewrite lookup_insert_ne by done. apply Hwf.
Qed.

Lemma place_store_well_formed now x p ty prediction self :
  registry_ok self → p ∈ PRIORITY_LEVELS → ty ∈ TICKET_TYPES →
  store_well_formed self →
  store_well_formed (place x (new_ticket now x p ty prediction) self).
Proof.
  intros Hreg Hp Hty Hwf y t'.
  pose proof (new_ticket_well_formed now x p ty prediction Hp Hty) as Hnew.
  destruct (decide (x = y)) as [<-|Hne].
  - unfold place. destruct (_find_available_agent _ _ _) as [a|] eqn:Hfind.
    + simpl. rewrite lookup_insert_eq. intros [= <-].
      apply assigned_ticket_well_formed; [|done].
      by eapply find_available_agent_known.
    + unfold enqueue. destruct (_get_queue_for_priority _); simpl;
        rewrite lookup_insert_eq; by intros [= <-].
  - rewrite place_tickets_other by done. apply Hwf.
Qed.

Lemma drain_store_well_formed self :
  registry_ok self → store_well_formed self → store_well_formed (drain self).2.
Proof.
  intros Hreg Hwf.
  cut (registry_ok (drain self).2 ∧ store_well_formed (drain self).2);
    [by intros [_ ?]|].
  apply (drain_invariant (λ s, registry_ok s ∧ store_well_formed s));
    [| |done].
  - intros s q v [? ?]. split; [by apply queue_put_registry_ok|by destruct q].
  - intros s x t a [Hr Hs] Hx Hfind.
    pose proof (find_available_agent_known _ _ _ _ Hr Hfind) as Ha.
    split; [by apply assign_registry_ok|by apply assign_store_well_formed].
Qed.

Lemma run_store_well_formed ops loaded :
  store_well_formed (run ops (init loaded)).
Proof.
  cut (consistent (run ops (init loaded))
       ∧ store_well_formed (run ops (init loaded))); [by intros [_ ?]|].
  apply run_invariant.
  - intros s now x p ty pr Hcons Hwf Hp Hty.
    apply place_store_well_formed; [apply Hcons|done..].
  - intros s x t _ Hwf Hx _ y t'. rewrite release_tickets.
    destruct (decide (x = y)) as [->|Hne].
    + rewrite lookup_insert_eq. intros [= <-].
      apply closed_ticket_well_formed. by apply Hwf.
    + rewrite lookup_insert_ne by done. apply Hwf.
  - intros s Hcons Hwf. apply drain_store_well_formed; [apply Hcons|done].
  - apply init_consistent.
  - intros x t Hx. simpl in Hx. by rewrite lookup_empty in Hx.
Qed.

(** After every history of calls on a new instance, also one with
    raising calls and repeated ids, every stored ticket is stored under
    its own id, has a priority and a type of the configuration and one of
    the three statuses; an open ticket carries no agent, a pending one
    carries an agent, every agent carried is one of the registry, and
    the agent id carried is the one that [AGENT_IDS] gives for it. *)
Theorem stored_tickets_well_formed ops loaded x t :
  tickets (run ops (init loaded)) !! x = Some t →
  id t = x ∧ priority t ∈ PRIORITY_LEVELS ∧ ticket_type t ∈ TICKET_TYPES ∧
  status t ∈ [TICKET_STATUS.OPEN; TICKET_STATUS.PENDING; TICKET_STATUS.CLOSED] ∧
  (status t = TICKET_STATUS.OPEN → assigned_agent t = None) ∧
  (status t = TICKET_STATUS.PENDING → is_Some (assigned_agent t)) ∧
  (∀ a, assigned_agent t = Some a → a ∈ agents) ∧
  assigned_agent_id t = agent_id_of <$> assigned_agent t.
Proof. apply run_store_well_formed. Qed.

Lemma stored_tickets_well_formed_witness :
  let t := assigned_ticket "Agent 1" (new_ticket 0 "T3" "high" "software" None) in
  id t = "T3" ∧ assigned_agent_id t = agent_id_of <$> assigned_agent t.
Proof.
  intros t.
  destruct (stored_tickets_well_formed sixth_urgent_ticket None "T3" t)
    as (Hid & _ & _ & _ & _ & _ & _ & Hagent).
  - reflexivity.
  - split; [exact Hid|exact Hagent].
Defined.

(** ** Tickets that wait in no queue *)

Lemma queue_put_tickets queue v self :
  tickets (queue_put queue v self) = tickets self.
Proof. by destruct queue. Qed.

Lemma walk_not_visited l self x :
  x ∉ l → tickets (walk l self).2 !! x = tickets self !! x.
Proof.
  intros Hx. apply walk_tickets_other. intros Hin. apply Hx.
  eapply elem_of_sublist; [done|apply walk_made_sublist].
Qed.

(** A drain looks at queued ids only. *)
Lemma drain_not_queued self x :
  x ∉ queued self → tickets (drain self).2 !! x = tickets self !! x.
Proof.
  unfold queued. rewrite !not_elem_of_app. intros (Hh & Hm & Hl).
  pose proof (drain_walks self) as Hdrain. cbn zeta in Hdrain.
  rewrite Hdrain. cbn [fst snd]. rewrite !queue_put_tickets.
  by rewrite !walk_not_visited.
Qed.

Lemma drain_queue_get_sublist self queue :
  sublist (queue_get queue (drain self).2) (queue_get queue self).
Proof.
  pose proof (drain_walks self) as Hdrain. cbn zeta in Hdrain.
  rewrite Hdrain. cbn [fst snd].
  destruct queue; simpl;
    apply remove_each_spec, sublist_submseteq, walk_made_sublist.
Qed.

Lemma drain_queued_subset self x :
  x ∈ queued (drain self).2 → x ∈ queued self.
Proof.
  rewrite !queued_elem_of. intros [q Hq]. exists q.
  eapply elem_of_sublist; [done|apply drain_queue_get_sublist].
Qed.

Lemma place_queued y t self x :
  x ∈ queued (place y t self) → x = y ∨ x ∈ queued self.
Proof.
  unfold place. destruct (_find_available_agent _ _ _) as [a|].
  - intros Hx. by right.
  - unfold enqueue, queued.
    destruct (_get_queue_for_priority _); simpl;
      rewrite !elem_of_app, ?list_elem_of_singleton; tauto.
Qed.

(** A ticket that waits in no queue is changed by no call but its own
    closure, as long as its id is not given to [create_ticket] again. *)
Lemma step_not_queued self o x t :
  consistent self → x ∉ queued self →
  (∀ now p ty, o ≠ CreateTicket now x p ty) →
  tickets self !! x = Some t ∨
    status t ≠ TICKET_STATUS.CLOSED ∧
    tickets self !! x = Some (set_status TICKET_STATUS.CLOSED t) →
  (x ∉ queued (step self o)) ∧
  (tickets (step self o) !! x = Some t ∨
     status t ≠ TICKET_STATUS.CLOSED ∧
     tickets (step self o) !! x = Some (set_status TICKET_STATUS.CLOSED t)).
Proof.
  intros Hcons Hq Hother Hx.
  destruct (step_cases self o Hcons)
    as [->|[(now & y & p & ty & pr & -> & Hp & Hty & ->)
          |[(y & t0 & _ & Hy & Hopen & ->)|[_ ->]]]].
  - done.
  - assert (y ≠ x) as Hne by (intros ->; by eapply Hother).
    split.
    + intros [?|?]%place_queued; [|done]. by apply Hne.
    + by rewrite place_tickets_other.
  - assert (x ∉ queued (release y t0 self)) as Hq'
      by by rewrite release_queued.
    split; [by intros ?%drain_queued_subset|].
    rewrite drain_not_queued, release_tickets by done.
    destruct (decide (y = x)) as [->|Hne].
    + rewrite lookup_insert_eq. rewrite Hy in Hx.
      destruct Hx as [[= ->]|[_ [= ->]]]; [|done].
      right. done.
    + by rewrite lookup_insert_ne.
  - split; [by intros ?%drain_queued_subset|].
    by rewrite drain_not_queued.
Qed.

Lemma run_not_queued ops self x t :
  consistent self → tickets self !! x = Some t → x ∉ queued self →
  x ∉ created_ids ops →
  (x ∉ queued (run ops self)) ∧
  (tickets (run ops self) !! x = Some t ∨
     status t ≠ TICKET_STATUS.CLOSED ∧
     tickets (run ops self) !! x = Some (set_status TICKET_STATUS.CLOSED t)).
Proof.
  intros Hcons Hx Hq Hnew.
  apply (run_steps
    (λ s, (x ∉ queued s) ∧
          (tickets s !! x = Some t ∨
           status t ≠ TICKET_STATUS.CLOSED ∧
           tickets s !! x = Some (set_status TICKET_STATUS.CLOSED t)))
    ops self); [|done|by split; [|left]].
  intros s o Ho Hs [Hqs Hxs]. apply step_not_queued; [done..| |done].
  intros now p ty ->. by eapply Hnew, created_ids_elem_of.
Qed.

Lemma step_not_stored self o x :
  consistent self → tickets self !! x = None →
  (∀ now p ty, o ≠ CreateTicket now x p ty) →
  tickets (step self o) !! x = None.
Proof.
  intros Hcons Hx Hother.
  destruct (step_cases self o Hcons)
    as [->|[(now & y & p & ty & pr & -> & Hp & Hty & ->)
          |[(y & t0 & _ & Hy & Hopen & ->)|[_ ->]]]].
  - done.
  - rewrite place_tickets_other; [done|]. intros ->. by eapply Hother.
  - apply drain_store_same. rewrite release_tickets, lookup_insert_ne; [done|].
    intros ->. by rewrite Hx in Hy.
  - by apply drain_store_same.
Qed.

(** Only [create_ticket] stores an id. *)
Lemma stored_created ops loaded x :
  is_Some (tickets (run ops (init loaded)) !! x) → x ∈ created_ids ops.
Proof.
  intros Hx. destruct (decide (x ∈ created_ids ops)) as [|Hnew]; [done|].
  exfalso.
  destruct (run_steps (λ s, tickets s !! x = None) ops (init loaded))
    as [_ Hnone].
  - intros s o Ho Hs Hxs. apply step_not_stored; [done..|].
    intros now p ty ->. by eapply Hnew, created_ids_elem_of.
  - apply init_consistent.
  - apply lookup_empty.
  - rewrite Hnone in Hx. by destruct Hx.
Qed.

Lemma created_ids_app ops ops' :
  created_ids (ops ++ ops') = created_ids ops ++ created_ids ops'.
Proof. unfold created_ids. apply omap_app. Qed.

(** In a history whose [create_ticket] calls have pairwise distinct ids,
    a pending ticket is changed by nothing but its own closure: after
    any further calls it is stored as it was, or as it was with status
    closed, and it is in no queue.  An assigned ticket is therefore never
    open or waiting again, and once closed it keeps the agent and the
    agent id it had. *)
Theorem pending_ticket_only_closes ops ops' loaded x t :
  NoDup (created_ids (ops ++ ops')) →
  tickets (run ops (init loaded)) !! x = Some t →
  status t = TICKET_STATUS.PENDING →
  let after := run (ops ++ ops') (init loaded) in
  (x ∉ queued after) ∧
  (tickets after !! x = Some t ∨
   tickets after !! x = Some (set_status TICKET_STATUS.CLOSED t)).
Proof.
  intros Hnodup Hx Hpending after. unfold after. rewrite run_app.
  rewrite created_ids_app in Hnodup.
  apply NoDup_app in Hnodup as (Hnodup & Hdisj & _).
  destruct (run_well_placed ops (init loaded)) as (Hcons & Hplaces & Hplaced).
  { apply init_well_placed. }
  { done. }
  { intros y _. apply lookup_empty. }
  assert (x ∉ queued (run ops (init loaded))) as Hq.
  { destruct (Hplaced x t Hx) as [[Hst _]|[[_ (a & _ & Hw)]|[Hst _]]].
    - by rewrite Hpending in Hst.
    - unfold places in Hplaces. apply NoDup_app in Hplaces as (_ & Hd & _).
      by eapply Hd, workload_held.
    - by rewrite Hpending in Hst. }
  destruct (run_not_queued ops' (run ops (init loaded)) x t)
    as [Hq' Hx']; [done..| |].
  { apply Hdisj, stored_created with loaded. by exists t. }
  split; [done|]. destruct Hx' as [?|[_ ?]]; auto.
Qed.

Lemma pending_ticket_only_closes_witness :
  let ops := sixth_urgent_ticket in
  let ops' := [CloseTicket "T2"; CloseTicket "T6"; CloseTicket "T1";
               CreateTicket 1 "T7" "low" "software"] in
  let t := assigned_ticket "Agent 1" (new_ticket 0 "T2" "high" "software" None) in
  ("T2" ∉ queued (run (ops ++ ops') (init None))) ∧
  (tickets (run (ops ++ ops') (init None)) !! "T2" = Some t ∨
   tickets (run (ops ++ ops') (init None)) !! "T2"
     = Some (set_status TICKET_STATUS.CLOSED t)).
Proof.
  intros ops ops' t.
  apply (pending_ticket_only_closes ops ops' None "T2" t).
  - apply (bool_decide_unpack _). vm_compute. exact I.
  - reflexivity.
  - reflexivity.
Defined.

(** ** The order of a queue *)

Lemma step_queue_get self o queue :
  consistent self →
  sublist (queue_get queue (step self o))
    (queue_get queue self ++ created_ids [o]).
Proof.
  intros Hcons.
  destruct (step_cases self o Hcons)
    as [->|[(now & y & p & ty & pr & -> & Hp & Hty & ->)
          |[(y & t0 & -> & Hy & Hopen & ->)|[-> ->]]]].
  - by apply sublist_inserts_r.
  - change (created_ids [CreateTicket now y p ty]) with [y].
    unfold place. destruct (_find_available_agent _ _ _) as [a|].
    + rewrite assign_queue_get. by apply sublist_inserts_r.
    + unfold enqueue.
      destruct (_get_queue_for_priority _), queue; simpl;
        done || by apply sublist_inserts_r.
  - change (created_ids [CloseTicket y]) with (@nil string).
    rewrite app_nil_r, <- (release_queue_get queue y t0 self).
    apply drain_queue_get_sublist.
  - change (created_ids [DrainQueues]) with (@nil string).
    rewrite app_nil_r. apply drain_queue_get_sublist.
Qed.

Lemma run_queue_get ops self queue :
  consistent self →
  sublist (queue_get queue (run ops self))
    (queue_get queue self ++ created_ids ops).
Proof.
  intros Hcons. induction ops as [|o ops IH] using rev_ind.
  - simpl. by rewrite app_nil_r.
  - rewrite run_snoc, created_ids_app, (assoc_L (++)).
    etrans; [apply step_queue_get|].
    + by apply (run_steps (λ _, True)).
    + by apply sublist_app.
Qed.

(** First come, first served: after every history of calls on a new
    instance, each of the three queues lists its ids in the order in
    which [create_ticket] received them.  No call reorders a queue: an
    id is appended at the end, and ids are only taken out. *)
Theorem queues_in_creation_order ops loaded queue :
  sublist (queue_get queue (run ops (init loaded))) (created_ids ops).
Proof.
  pose proof (run_queue_get ops (init loaded) queue (init_consistent loaded))
    as Hsub.
  by destruct queue.
Qed.

(** ** No ticket waits while it could be assigned *)

Lemma no_freer_refl self : no_freer self self.
Proof. by split. Qed.

Lemma no_freer_trans s1 s2 s3 : no_freer s1 s2 → no_freer s2 s3 → no_freer s1 s3.
Proof. intros [? ?] [? ?]. split; [congruence|auto]. Qed.

Lemma preference_ext self self' p ty :
  dict_keys (agent_tickets self) = dict_keys (agent_tickets self') →
  preference self p ty = preference self' p ty.
Proof. unfold preference. by intros ->. Qed.

(** With fewer agents available, a ticket that found no agent finds
    none. *)
Lemma find_available_agent_None_mono self self' p ty :
  no_freer self' self →
  _find_available_agent self p ty = None →
  _find_available_agent self' p ty = None.
Proof.
  intros [Hkeys Hle]. rewrite !find_available_agent_preference, !find_None_all.
  rewrite (preference_ext self' self) by done.
  intros Hall a Ha. specialize (Hall a Ha).
  destruct (is_agent_available self' a) eqn:Havail; [|done].
  by rewrite (Hle a Havail) in Hall.
Qed.

Lemma is_agent_available_workload self agent :
  is_agent_available self agent =
    bool_decide (length (workload self agent) < MAX_TICKETS_PER_AGENT).
Proof. done. Qed.

Lemma assign_no_freer x a t self :
  registry_ok self → a ∈ agents → no_freer (assign x a t self) self.
Proof.
  intros Hreg Ha. split.
  - pose proof (assign_registry_ok x a t self Hreg Ha) as Hreg'.
    unfold registry_ok in *. congruence.
  - intros b. rewrite !is_agent_available_workload.
    intros Hb%bool_decide_eq_true. apply bool_decide_eq_true.
    destruct (decide (a = b)) as [<-|Hne].
    + rewrite assign_workload_eq, length_app in Hb. lia.
    + by rewrite assign_workload_ne in Hb.
Qed.

Lemma walk_no_freer l self :
  registry_ok self → no_freer (walk l self).2 self.
Proof.
  intros Hreg.
  cut (registry_ok (walk l self).2 ∧ no_freer (walk l self).2 self);
    [by intros [_ ?]|].
  apply (walk_invariant (λ s, registry_ok s ∧ no_freer s self));
    [|split; [done|apply no_freer_refl]].
  intros s x t a [Hr Hle] _ Hfind.
  pose proof (find_available_agent_known _ _ _ _ Hr Hfind) as Ha.
  split; [by apply assign_registry_ok|].
  eapply no_freer_trans; [by apply assign_no_freer|done].
Qed.

(** An id that a walk visits and does not assign has no agent at the end
    of the walk. *)
Lemma walk_settles l self x t :
  registry_ok self → x ∈ l →
  x ∉ assignment_ticket_id <$> (walk l self).1 →
  tickets self !! x = Some t →
  _find_available_agent (walk l self).2 (priority t) (ticket_type t) = None.
Proof.
  revert self. induction l as [|y l IH]; intros self Hreg Hin Hout Hx.
  - by apply elem_of_nil in Hin.
  - rewrite walk_cons in Hout |- *. cbn [fst snd] in Hout |- *.
    rewrite fmap_app in Hout. apply not_elem_of_app in Hout as [Hy Hout].
    unfold evaluate in Hy, Hout |- *.
    destruct (tickets self !! y) as [t0|] eqn:Ht0.
    + destruct (_find_available_agent self (priority t0) (ticket_type t0))
        as [a|] eqn:Hfind; cbn [fst snd] in Hy, Hout |- *.
      * apply not_elem_of_cons in Hy as [Hne _].
        apply elem_of_cons in Hin as [?|Hin]; [done|].
        pose proof (find_available_agent_known _ _ _ _ Hreg Hfind) as Ha.
        apply IH; [by apply assign_registry_ok|done..|].
        simpl. by rewrite lookup_insert_ne.
      * destruct (decide (x = y)) as [->|Hne].
        -- rewrite Hx in Ht0. injection Ht0 as <-.
           eapply find_available_agent_None_mono; [|done].
           by apply walk_no_freer.
        -- apply elem_of_cons in Hin as [?|Hin]; [done|]. by apply IH.
    + cbn [fst snd] in Hout |- *.
      apply elem_of_cons in Hin as [->|Hin]; [by rewrite Hx in Ht0|].
      by apply IH.
Qed.

Lemma made_elem_of l self x :
  x ∈ assignment_ticket_id <$> (walk l self).1 → x ∈ l.
Proof. intros Hx. eapply elem_of_sublist; [done|apply walk_made_sublist]. Qed.

(** In a list without repetition, what is left after the removal of
    [rm] holds no id of [rm]. *)
Lemma remove_each_disjoint rm l x :
  NoDup l → rm ⊆+ l → x ∈ remove_each rm l → x ∈ l ∧ x ∉ rm.
Proof.
  intros Hnodup Hsub Hx. destruct (remove_each_spec rm l Hsub) as [Hperm Hs].
  split; [by eapply elem_of_sublist|].
  rewrite Hperm in Hnodup. apply NoDup_app in Hnodup as (_ & Hdisj & _).
  intros Hrm. by apply (Hdisj x).
Qed.

(** After a drain of queues that hold no id twice, no queued id could be
    assigned. *)
Lemma drain_settled self :
  registry_ok self → NoDup (queued self) → settled (drain self).2.
Proof.
  intros Hreg Hnodup x t.
  pose proof (drain_walks self) as Hdrain. cbn zeta in Hdrain.
  rewrite Hdrain. cbn [fst snd]. clear Hdrain.
  set (w1 := walk (high_priority_queue self) self).
  set (w2 := walk (medium_priority_queue self) w1.2).
  set (w3 := walk (low_priority_queue self) w2.2).
  assert (registry_ok w1.2) as Hreg1 by by apply walk_registry_ok.
  assert (registry_ok w2.2) as Hreg2 by by apply walk_registry_ok.
  unfold queued in Hnodup.
  apply NoDup_app in Hnodup as (Hn1 & Hd1 & Hnodup).
  apply NoDup_app in Hnodup as (Hn2 & Hd2 & Hn3).
  rewrite !queue_put_tickets.
  erewrite (find_available_agent_ext _ w3.2) by done.
  unfold queued. cbn [queue_put high_priority_queue medium_priority_queue
                      low_priority_queue].
  rewrite !elem_of_app.
  intros [Hx|[Hx|Hx]] Ht;
    apply remove_each_disjoint in Hx as [Hq Hm];
    try done; try apply sublist_submseteq, walk_made_sublist.
  - assert ((x ∉ medium_priority_queue self) ∧ x ∉ low_priority_queue self)
      as [Hq2 Hq3].
    { apply not_elem_of_app. by apply Hd1. }
    unfold w3 in Ht. rewrite walk_not_visited in Ht by done.
    unfold w2 in Ht. rewrite walk_not_visited in Ht by done.
    unfold w1 in Ht, Hm. rewrite walk_tickets_other in Ht by done.
    eapply find_available_agent_None_mono.
    { eapply no_freer_trans; by apply walk_no_freer. }
    by apply (walk_settles _ _ x).
  - assert (x ∉ high_priority_queue self) as Hq1.
    { intros Hq1. specialize (Hd1 x Hq1). apply Hd1, elem_of_app. by left. }
    assert (x ∉ low_priority_queue self) as Hq3 by by apply Hd2.
    unfold w3 in Ht. rewrite walk_not_visited in Ht by done.
    eapply find_available_agent_None_mono; [by apply walk_no_freer|].
    apply (walk_settles _ _ x); [done..|].
    rewrite <- Ht. unfold w2. by rewrite walk_tickets_other.
  - apply (walk_settles _ _ x); [done..|].
    rewrite <- Ht. unfold w3. by rewrite walk_tickets_other.
Qed.

Lemma place_no_freer x t self :
  registry_ok self → no_freer (place x t self) self.
Proof.
  intros Hreg. unfold place.
  destruct (_find_available_agent _ _ _) as [a|] eqn:Hfind.
  - apply assign_no_freer; [done|]. by eapply find_available_agent_known.
  - unfold enqueue. by destruct (_get_queue_for_priority _).
Qed.

(** Routing a ticket under a new id leaves no queued id assignable. *)
Lemma place_settled x t self :
  consistent self → tickets self !! x = None → settled self →
  settled (place x t self).
Proof.
  intros Hcons Hnew Hset y t' Hy Ht'.
  pose proof Hcons as (Hreg & _ & _).
  assert (x ∉ queued self) as Hfresh.
  { intros Hq. by apply (not_stored_not_placed self x), queued_places. }
  destruct (decide (y = x)) as [->|Hne].
  - unfold place in *.
    destruct (_find_available_agent self (priority t) (ticket_type t))
      as [a|] eqn:Hfind; [done|].
    assert (t' = t) as ->.
    { unfold enqueue in Ht'. destruct (_get_queue_for_priority _);
        simpl in Ht'; rewrite lookup_insert_eq in Ht'; congruence. }
    rewrite <- Hfind. apply find_available_agent_ext.
    unfold enqueue. by destruct (_get_queue_for_priority _).
  - rewrite place_tickets_other in Ht' by done.
    apply place_queued in Hy as [?|Hy]; [done|].
    eapply find_available_agent_None_mono; [by apply place_no_freer|].
    by apply (Hset y t').
Qed.

(** A property that placing a ticket under a new id, a closure and a
    drain keep is kept by a history that creates each id once. *)
Lemma run_distinct (P : TicketClassifier → Prop) ops self :
  (∀ s now x p ty prediction,
     well_placed s → P s → tickets s !! x = None →
     p ∈ PRIORITY_LEVELS → ty ∈ TICKET_TYPES →
     P (place x (new_ticket now x p ty prediction) s)) →
  (∀ s x t,
     well_placed s → P s → tickets s !! x = Some t →
     status t ≠ TICKET_STATUS.CLOSED → P (drain (release x t s)).2) →
  (∀ s, well_placed s → P s → P (drain s).2) →
  well_placed self → P self →
  NoDup (created_ids ops) →
  (∀ x, x ∈ created_ids ops → tickets self !! x = None) →
  well_placed (run ops self) ∧ P (run ops self).
Proof.
  intros Hplace Hclose Hdrain. revert self.
  induction ops as [|o ops IH]; intros self Hwp HP Hnodup Hnew; [done|].
  change (run (o :: ops) self) with (run ops (step self o)).
  pose proof Hwp as (Hcons & _ & _).
  destruct (step_cases self o Hcons)
    as [Hst|[(now & x & p & ty & pr & -> & Hp & Hty & Hst)
            |[(x & t & -> & Hx & Hopen & Hst)|[-> Hst]]]];
    rewrite Hst; clear Hst.
  - apply IH; [done..| |].
    + destruct o; simpl in Hnodup;
        [by apply NoDup_cons in Hnodup as [_ ?]|done..].
    + intros x Hx. apply Hnew. destruct o; simpl; [by right|done..].
  - simpl in Hnodup, Hnew. apply NoDup_cons in Hnodup as [Hfresh Hnodup].
    assert (tickets self !! x = None) as Hnone by (apply Hnew; left).
    apply IH; [| |done|].
    + by apply place_well_placed.
    + by apply Hplace.
    + intros y Hy. rewrite place_tickets_other.
      * apply Hnew. by right.
      * intros ->. done.
  - simpl in Hnodup, Hnew. apply IH; [| |done|].
    + by apply drain_well_placed, release_well_placed.
    + by apply Hclose.
    + intros y Hy. apply drain_store_same. rewrite release_tickets.
      rewrite lookup_insert_ne; [by apply Hnew|].
      intros ->. by rewrite (Hnew y Hy) in Hx.
  - simpl in Hnodup, Hnew. apply IH; [| |done|].
    + by apply drain_well_placed.
    + by apply Hdrain.
    + intros y Hy. by apply drain_store_same, Hnew.
Qed.

Lemma well_placed_queued_NoDup self : well_placed self → NoDup (queued self).
Proof.
  intros (_ & Hnodup & _). unfold places in Hnodup.
  by apply NoDup_app in Hnodup as (_ & _ & ?).
Qed.

Lemma run_settled ops loaded :
  NoDup (created_ids ops) →
  well_placed (run ops (init loaded)) ∧ settled (run ops (init loaded)).
Proof.
  intros Hnodup. apply run_distinct; [| | | | |done|].
  - intros s now x p ty pr (Hcons & _) Hset Hnew _ _. by apply place_settled.
  - intros s x t Hwp _ Hx Hopen.
    pose proof (release_well_placed x t s Hwp Hx Hopen) as Hwp'.
    apply drain_settled; [apply Hwp'|by apply well_placed_queued_NoDup].
  - intros s Hwp _.
    apply drain_settled; [apply Hwp|by apply well_placed_queued_NoDup].
  - apply init_well_placed.
  - by intros x t ?%elem_of_nil.
  - intros x _. apply lookup_empty.
Qed.

(** In a history whose [create_ticket] calls have pairwise distinct ids,
    no ticket waits while the routing policy has an agent for it: after
    every call, [_find_available_agent] finds no agent for any queued
    id.  In particular a medium or low ticket waits only while no agent
    at all has spare capacity. *)
Theorem no_assignable_ticket_waits ops loaded x t :
  NoDup (created_ids ops) →
  x ∈ queued (run ops (init loaded)) →
  tickets (run ops (init loaded)) !! x = Some t →
  _find_available_agent (run ops (init loaded)) (priority t) (ticket_type t)
    = None ∧
  (priority t ≠ "high" → get_available_agents (run ops (init loaded)) = []).
Proof.
  intros Hnodup Hq Hx.
  destruct (run_settled ops loaded Hnodup) as [(Hcons & _) Hset].
  pose proof (Hset x t Hq Hx) as Hnone. split; [done|].
  intros Hp.
  apply (find_available_agent_None_non_urgent _ (priority t) (ticket_type t));
    [apply Hcons| |done].
  destruct (run_store_well_formed ops loaded x t Hx) as (_ & Hlevel & _).
  by rewrite lower_priority_level.
Qed.

Lemma no_assignable_ticket_waits_witness :
  _find_available_agent (run sixth_urgent_ticket (init None)) "high" "software"
    = None.
Proof.
  apply (no_assignable_ticket_waits sixth_urgent_ticket None "T6"
           (new_ticket 0 "T6" "high" "software" None)).
  - apply (bool_decide_unpack _). vm_compute. exact I.
  - vm_compute. left.
  - reflexivity.
Defined.

(** ** What a closure hands out *)

(** While no agent is freer than in [self'], a walk over ids that have
    no agent in [self'] assigns nothing. *)
Lemma walk_none l self self' :
  no_freer self self' →
  (∀ x t, x ∈ l → tickets self !! x = Some t →
          _find_available_agent self' (priority t) (ticket_type t) = None) →
  walk l self = ([], self).
Proof.
  intros Hle. induction l as [|y l IH]; intros Hall; [done|].
  rewrite walk_cons.
  assert (evaluate y self = (None, self)) as ->.
  { unfold evaluate. destruct (tickets self !! y) as [t|] eqn:Ht; [|done].
    rewrite (find_available_agent_None_mono self' self); [done..|].
    apply (Hall y t); [left|done]. }
  cbn [fst snd option_list]. rewrite IH; [done|].
  intros x t Hx. apply (Hall x t). by right.
Qed.

Lemma find_available_agent_Some_preference self p ty a :
  _find_available_agent self p ty = Some a →
  a ∈ preference self p ty ∧ is_agent_available self a = true.
Proof.
  rewrite find_available_agent_preference. intros [Hin Ha]%find_some.
  split; [by apply list_elem_of_In|done].
Qed.

(** When at most the agent [a] is freer than in [self'], and by one slot,
    a walk over distinct ids that have no agent in [self'] assigns at
    most one of them, to [a]. *)
Lemma walk_at_most_one l self self' a :
  registry_ok self → registry_ok self' → NoDup l →
  (∀ b, b ≠ a → is_agent_available self b = true →
        is_agent_available self' b = true) →
  length (workload self' a) ≤ length (workload self a) + 1 →
  (∀ x t, x ∈ l → tickets self !! x = Some t →
          _find_available_agent self' (priority t) (ticket_type t) = None) →
  (walk l self).1 = [] ∨
  ∃ y, y ∈ l ∧ (walk l self).1 = [mkAssignment y a (agent_id_of a)].
Proof.
  intros Hreg Hreg' Hnodup Hothers Hone.
  induction l as [|y l IH]; intros Hall; [by left|].
  apply NoDup_cons in Hnodup as [Hy Hnodup].
  rewrite walk_cons. unfold evaluate.
  destruct (tickets self !! y) as [t|] eqn:Ht; cbn [fst snd option_list].
  2:{ destruct IH as [?|(z & Hz & ?)]; [done|..|by left|].
      - intros x t0 Hx. apply (Hall x t0). by right.
      - right. exists z. split; [by right|done]. }
  destruct (_find_available_agent self (priority t) (ticket_type t))
    as [b|] eqn:Hfind; cbn [fst snd option_list].
  2:{ destruct IH as [?|(z & Hz & ?)]; [done|..|by left|].
      - intros x t' Hx. apply (Hall x t'). by right.
      - right. exists z. split; [by right|done]. }
  assert (b = a) as ->.
  { destruct (decide (b = a)) as [|Hne]; [done|]. exfalso.
    apply find_available_agent_Some_preference in Hfind as [Hin Hb].
    pose proof (Hall y t ltac:(left) Ht) as Hnone.
    rewrite find_available_agent_preference, find_None_all in Hnone.
    specialize (Hothers b Hne Hb). rewrite (Hnone b) in Hothers; [done|].
    rewrite (preference_ext self' self); [done|].
    unfold registry_ok in *. congruence. }
  pose proof (find_available_agent_known _ _ _ _ Hreg Hfind) as Ha.
  right. exists y. split; [left|].
  rewrite (walk_none l _ self'); [done| |].
  - split.
    + pose proof (assign_registry_ok y a t self Hreg Ha).
      unfold registry_ok in *. congruence.
    + intros b. rewrite !is_agent_available_workload.
      destruct (decide (a = b)) as [<-|Hne].
      * rewrite assign_workload_eq, length_app. simpl.
        intros Hb%bool_decide_eq_true. apply bool_decide_eq_true. lia.
      * rewrite assign_workload_ne by done.
        rewrite <- !is_agent_available_workload. by apply Hothers.
  - intros x t' Hx. simpl. rewrite lookup_insert_ne by by intros ->.
    apply (Hall x t'). by right.
Qed.

Lemma release_workload_ne x t self b :
  assigned_agent t ≠ Some b →
  workload (release x t self) b = workload self b.
Proof.
  intros Hne. unfold release. destruct (assigned_agent t) as [a|]; [|done].
  destruct (list_remove x (workload self a)) as [rest|]; [|done].
  unfold workload at 1. simpl. rewrite dict_get_set_ne; [done|congruence].
Qed.

Lemma release_workload_length x t self b :
  length (workload self b) ≤ length (workload (release x t self) b) + 1.
Proof.
  destruct (decide (assigned_agent t = Some b)) as [Hb|Hne];
    [|rewrite release_workload_ne by done; lia].
  unfold release. rewrite Hb.
  destruct (list_remove x (workload self b)) as [rest|] eqn:Hrest;
    [|unfold workload; simpl; lia].
  unfold workload at 2. simpl. rewrite dict_get_set_eq. simpl.
  apply list_remove_length in Hrest. lia.
Qed.

(** The assignments of a drain are those of one walk over the queues. *)
Lemma drain_made self : (drain self).1 = (walk (queued self) self).1.
Proof.
  pose proof (drain_walks self) as Hdrain. cbn zeta in Hdrain.
  rewrite Hdrain. unfold queued. by rewrite !walk_app.
Qed.

(** In a history whose [create_ticket] calls have pairwise distinct ids,
    the closure of a ticket hands the slot it frees to at most one
    waiting ticket: [close_ticket] returns, its [freed_agent] is the
    agent the ticket carried, and [newly_assigned_tickets] is empty or
    holds one queued id, assigned to that agent.  A ticket closed while
    it waited frees nothing and assigns nothing. *)
Theorem closure_assigns_at_most_one ops loaded x t :
  NoDup (created_ids ops) →
  tickets (run ops (init loaded)) !! x = Some t →
  status t ≠ TICKET_STATUS.CLOSED →
  ∃ made,
    (close_ticket x (run ops (init loaded))).1 =
      Returned (closure x TICKET_STATUS.CLOSED (assigned_agent t) made) ∧
    (made = [] ∨
     ∃ y a,
       assigned_agent t = Some a ∧ y ∈ queued (run ops (init loaded)) ∧
       made = [mkAssignment y a (agent_id_of a)]).
Proof.
  intros Hnodup Hx Hopen.
  destruct (run_settled ops loaded Hnodup) as [Hwp Hset].
  set (self := run ops (init loaded)) in *.
  pose proof Hwp as (Hcons & _ & _).
  pose proof Hcons as (Hreg & _ & Hknown).
  pose proof (release_consistent x t self Hcons Hx) as Hcons'.
  exists (drain (release x t self)).1. split.
  { rewrite (close_ticket_open _ t) by eauto.
    by erewrite bind_Returned by by apply process_queues_consistent. }
  rewrite drain_made, release_queued.
  assert (∀ z t', z ∈ queued self → tickets (release x t self) !! z = Some t' →
                  _find_available_agent self (priority t') (ticket_type t') = None)
    as Hnone.
  { intros z t' Hz. rewrite release_tickets.
    destruct (decide (x = z)) as [<-|Hne].
    - rewrite lookup_insert_eq. intros [= <-]. by apply (Hset x t).
    - rewrite lookup_insert_ne by done. by apply Hset. }
  destruct (assigned_agent t) as [a|] eqn:Hagent.
  - destruct (walk_at_most_one (queued self) (release x t self) self a)
      as [?|(y & Hy & ?)]; [apply Hcons'|done| | | |done|by left|].
    + by apply well_placed_queued_NoDup.
    + intros b Hne. rewrite !is_agent_available_workload.
      rewrite release_workload_ne; [done|]. rewrite Hagent. congruence.
    + apply release_workload_length.
    + right. by exists y, a.
  - left. rewrite (walk_none _ _ self); [done| |done].
    unfold release. rewrite Hagent. by split.
Qed.

Lemma closure_assigns_at_most_one_witness :
  ∃ made,
    (close_ticket "T3" (run sixth_urgent_ticket (init None))).1 =
      Returned (closure "T3" TICKET_STATUS.CLOSED (Some "Agent 1") made) ∧
    length made ≤ 1.
Proof.
  destruct (closure_assigns_at_most_one sixth_urgent_ticket None "T3"
              (assigned_ticket "Agent 1"
                 (new_ticket 0 "T3" "high" "software" None)))
    as (made & Hanswer & Hmade).
  - apply (bool_decide_unpack _). vm_compute. exact I.
  - reflexivity.
  - discriminate.
  - exists made. split; [exact Hanswer|].
    destruct Hmade as [->|(y & a & _ & _ & ->)]; simpl; lia.
Defined.

(** ** The queue of a waiting ticket *)

Lemma place_queue_get queue y t self x :
  x ∈ queue_get queue (place y t self) →
  x = y ∧ _get_queue_for_priority (priority t) = queue ∧
    _find_available_agent self (priority t) (ticket_type t) = None ∨
  x ∈ queue_get queue self.
Proof.
  unfold place. destruct (_find_available_agent _ _ _) as [a|].
  - rewrite assign_queue_get. by right.
  - unfold enqueue.
    destruct (_get_queue_for_priority _), queue; simpl;
      rewrite ?elem_of_app, ?list_elem_of_singleton; intuition.
Qed.

Lemma enqueue_tickets x t self :
  tickets (enqueue x t self) = <[x := t]> (tickets self).
Proof. unfold enqueue. by destruct (_get_queue_for_priority _). Qed.

Lemma drain_queued_by_priority self :
  consistent self → queued_by_priority self →
  queued_by_priority (drain self).2.
Proof.
  intros Hcons Hqp queue x t Hx Ht.
  assert (x ∈ queue_get queue self) as Hq.
  { eapply elem_of_sublist; [done|apply drain_queue_get_sublist]. }
  destruct (proj1 (store_covers_elem_of self) (proj1 (proj2 Hcons)) x)
    as [t0 Ht0].
  { apply queued_places, queued_elem_of. by exists queue. }
  destruct (drain_evolves self x t0 Ht0) as (t' & Ht' & (_ & Hp & _) & _).
  rewrite Ht in Ht'. injection Ht' as <-. rewrite <- Hp.
  by apply (Hqp queue x t0).
Qed.

Lemma run_queued_by_priority ops loaded :
  NoDup (created_ids ops) → queued_by_priority (run ops (init loaded)).
Proof.
  intros Hnodup.
  cut (well_placed (run ops (init loaded))
       ∧ queued_by_priority (run ops (init loaded))); [by intros [_ ?]|].
  apply run_distinct; [| | | | |done|].
  - intros s now x p ty pr (Hcons & _) Hqp Hnew _ _ queue y t Hy Ht.
    apply place_queue_get in Hy as [(-> & Hq & Hfind)|Hy].
    + unfold place in Ht.
      rewrite Hfind, enqueue_tickets, lookup_insert_eq in Ht.
      by injection Ht as <-.
    + rewrite place_tickets_other in Ht; [by apply (Hqp queue y t)|].
      intros ->. apply (not_stored_not_placed s y Hcons Hnew).
      apply queued_places, queued_elem_of. by exists queue.
  - intros s x t (Hcons & _) Hqp Hx _.
    apply drain_queued_by_priority; [by apply release_consistent|].
    intros queue y t'. rewrite release_queue_get, release_tickets.
    intros Hy. destruct (decide (x = y)) as [<-|Hne].
    + rewrite lookup_insert_eq. intros [= <-]. by apply (Hqp queue x t).
    + rewrite lookup_insert_ne by done. by apply Hqp.
  - intros s (Hcons & _) Hqp. by apply drain_queued_by_priority.
  - apply init_well_placed.
  - intros queue x t Hx. by destruct queue; apply elem_of_nil in Hx.
  - intros x _. apply lookup_empty.
Qed.

(** In a history whose [create_ticket] calls have pairwise distinct ids,
    every id in the high queue belongs to a high ticket, every id in the
    medium queue to a medium ticket and every id in the low queue to a
    low ticket: an id waits in the queue that [_get_queue_for_priority]
    gives for the priority of its ticket. *)
Theorem waiting_ticket_in_queue_of_priority ops loaded queue x t :
  NoDup (created_ids ops) →
  x ∈ queue_get queue (run ops (init loaded)) →
  tickets (run ops (init loaded)) !! x = Some t →
  _get_queue_for_priority (priority t) = queue ∧
  priority t =
    match queue with
    | high_priority_queue_ref => "high"
    | medium_priority_queue_ref => "medium"
    | low_priority_queue_ref => "low"
    end.
Proof.
  intros Hnodup Hq Hx.
  pose proof (run_queued_by_priority ops loaded Hnodup queue x t Hq Hx) as Hqueue.
  split; [done|].
  destruct (run_store_well_formed ops loaded x t Hx) as (_ & Hlevel & _).
  unfold PRIORITY_LEVELS in Hlevel. rewrite <- Hqueue.
  apply elem_of_cons in Hlevel as [->|Hlevel]; [done|].
  apply elem_of_cons in Hlevel as [->|Hlevel]; [done|].
  by apply list_elem_of_singleton in Hlevel as ->.
Qed.

Lemma waiting_ticket_in_queue_of_priority_witness :
  _get_queue_for_priority "high" = high_priority_queue_ref.
Proof.
  apply (waiting_ticket_in_queue_of_priority sixth_urgent_ticket None
           high_priority_queue_ref "T6"
           (new_ticket 0 "T6" "high" "software" None)).
  - apply (bool_decide_unpack _). vm_compute. exact I.
  - vm_compute. left.
  - reflexivity.
Defined.

(** ** The status report *)

(** On the registry of [__init__], [get_status] returns and changes
    nothing.  Its report lists the three agents in the order of the
    registry; for each of them the ticket ids are the workload, the
    count is what [get_agent_load] gives, the availability is what
    [is_agent_available] gives, and the id and the specialization are
    those of the configuration.  Each of the three queues is reported
    under its own key as it is, [pending_in_queue] is the number of
    queued ids and [total_tickets] the number of stored tickets. *)
Theorem get_status_reports_instance self :
  registry_ok self →
  ∃ report,
    get_status self = (Returned report, self) ∧
    report_model_loaded report = model_loaded self ∧
    dict_keys (report_agent_workloads report) = agents ∧
    (∀ agent, agent ∈ agents →
       ∃ st,
         dict_get (report_agent_workloads report) agent = Some st ∧
         status_ticket_ids st = workload self agent ∧
         status_current_tickets st = get_agent_load self agent ∧
         status_max_capacity st = MAX_TICKETS_PER_AGENT ∧
         status_available st = is_agent_available self agent ∧
         status_agent_id st = agent_id_of agent ∧
         dict_get AGENT_SPECIALIZATIONS agent = Some (status_specialization st)) ∧
    report_high_priority report = high_priority_queue self ∧
    report_medium_priority report = medium_priority_queue self ∧
    report_low_priority report = low_priority_queue self ∧
    report_pending_in_queue report = length (queued self) ∧
    report_total_tickets report = size (tickets self).
Proof.
  intros Hreg. destruct (registry_shape self Hreg) as (l1 & l2 & l3 & Hshape).
  eexists. split.
  { unfold get_status. rewrite !bind_gets, Hshape.
    erewrite bind_Returned by reflexivity. reflexivity. }
  cbn [report_model_loaded report_agent_workloads report_high_priority
       report_medium_priority report_low_priority report_total_tickets
       report_pending_in_queue].
  split_and!; try done.
  - intros agent Ha. unfold workload, is_agent_available, get_agent_load.
    rewrite Hshape. unfold agents in Ha.
    apply elem_of_cons in Ha as [->|Ha];
      [|apply elem_of_cons in Ha as [->|Ha];
        [|apply elem_of_cons in Ha as [->|Ha]; [|by apply elem_of_nil in Ha]]];
      (eexists; split; [reflexivity|]; by split_and!).
  - unfold queued. rewrite !length_app. lia.
Qed.

Lemma get_status_reports_instance_witness :
  ∃ report,
    get_status waiting_instance = (Returned report, waiting_instance) ∧
    report_pending_in_queue report = 3.
Proof.
  destruct (get_status_reports_instance waiting_instance)
    as (report & Hreturned & _ & _ & _ & _ & _ & _ & Hpending & _).
  - reflexivity.
  - exists report. split; [exact Hreturned|exact Hpending].
Defined.

(** ** The report over a history *)

Lemma NoDup_length_size (l : list string) (m : gmap string Ticket) :
  NoDup l → (∀ x, x ∈ l → is_Some (m !! x)) → length l ≤ size m.
Proof.
  intros Hnodup Hin. rewrite <- size_dom, <- (size_list_to_set (C := gset string) l)
    by done.
  apply subseteq_size. intros x Hx. apply elem_of_list_to_set in Hx.
  by apply elem_of_dom, Hin.
Qed.

Lemma held_registry self :
  registry_ok self →
  held self =
    workload self "Agent 1" ++ workload self "Agent 2" ++ workload self "Agent 3".
Proof.
  intros Hreg. destruct (registry_shape self Hreg) as (l1 & l2 & l3 & Hshape).
  unfold held, workload. rewrite Hshape. simpl. by rewrite app_nil_r.
Qed.

(** In a history whose [create_ticket] calls have pairwise distinct ids,
    the report of [get_status] never accounts for more tickets than are
    stored: the three ticket counts and [pending_in_queue] add up to at
    most [total_tickets], which is at most the number of [create_ticket]
    calls. *)
Theorem get_status_accounts_for_stored ops loaded :
  NoDup (created_ids ops) →
  ∃ report s1 s2 s3,
    (get_status (run ops (init loaded))).1 = Returned report ∧
    (report_agent_workloads report).*2 = [s1; s2; s3] ∧
    status_current_tickets s1 + status_current_tickets s2
      + status_current_tickets s3 + report_pending_in_queue report
      ≤ report_total_tickets report ∧
    report_total_tickets report ≤ length (created_ids ops).
Proof.
  intros Hnodup.
  destruct (run_settled ops loaded Hnodup) as [(Hcons & Hplaces & _) _].
  set (self := run ops (init loaded)) in *.
  pose proof Hcons as (Hreg & Hcov & _).
  destruct (registry_shape self Hreg) as (l1 & l2 & l3 & Hshape).
  eexists _, _, _, _. split.
  { unfold get_status. rewrite !bind_gets, Hshape.
    erewrite bind_Returned by reflexivity. reflexivity. }
  cbn [report_agent_workloads report_total_tickets report_pending_in_queue].
  split; [reflexivity|]. cbn [status_current_tickets snd]. split.
  - pose proof (NoDup_length_size (places self) (tickets self) Hplaces
                  (proj1 (store_covers_elem_of self) Hcov)) as Hle.
    unfold places in Hle. rewrite held_registry in Hle by done.
    unfold workload, queued in Hle. rewrite Hshape in Hle. simpl in Hle.
    rewrite !length_app in Hle. lia.
  - rewrite <- size_dom,
      <- (size_list_to_set (C := gset string) (created_ids ops)) by done.
    apply subseteq_size. intros x Hx%elem_of_dom.
    apply elem_of_list_to_set. by apply stored_created with loaded.
Qed.

Lemma get_status_accounts_for_stored_witness :
  ∃ report,
    (get_status (run sixth_urgent_ticket (init None))).1 = Returned report ∧
    report_total_tickets report ≤ 6.
Proof.
  destruct (get_status_accounts_for_stored sixth_urgent_ticket None)
    as (report & s1 & s2 & s3 & Hreturned & _ & _ & Htotal).
  - apply (bool_decide_unpack _). vm_compute. exact I.
  - exists report. split; [exact Hreturned|exact Htotal].
Defined.

(** ** Classification without a ticket *)

Lemma predict_agent_lower p ty :
  predict_agent p ty = predict_agent (lower p) (lower ty).
Proof.
  unfold predict_agent, _encode_input. by rewrite !lower_idempotent.
Qed.

(** What [predict_agent] returns with a loaded three-class network. *)
Lemma predict_agent_value p ty self :
  model_loaded self = true → model_ok self →
  p ∈ PRIORITY_LEVELS → ty ∈ TICKET_TYPES →
  ∃ a c probabilities,
    predict_agent p ty self = (Returned (a, c, probabilities), self) ∧
    a ∈ agents ∧ dict_keys probabilities = agents ∧
    dict_get probabilities a = Some c.
Proof.
  intros Hloaded Hok Hp Hty.
  destruct (Hok Hloaded) as (net & Hnet & Hclasses).
  destruct (encode_input_returns p ty self Hp Hty) as [x Hx].
  unfold predict_agent. rewrite bind_gets, Hloaded. cbn [negb].
  rewrite (bind_Returned _ _ _ _ _ Hx), bind_gets, Hnet.
  destruct (Hclasses x) as [Hclass Hlen].
  destruct (index_returns (predict_proba net x) (predict net x) self)
    as [c Hc]; [lia|].
  destruct (index_returns (predict_proba net x) 0 self) as [p0 Hp0]; [lia|].
  destruct (index_returns (predict_proba net x) 1 self) as [p1 Hp1]; [lia|].
  destruct (index_returns (predict_proba net x) 2 self) as [p2 Hp2]; [lia|].
  destruct (predict net x) as [|[|[|n]]] eqn:Hclass'; [..|lia];
    match goal with
    | |- context [dict_get AGENT_DECODING ?n] =>
        let v := eval vm_compute in (dict_get AGENT_DECODING n) in
        change (dict_get AGENT_DECODING n) with v
    end;
    unfold getitem at 1; rewrite bind_ret;
    rewrite (bind_Returned _ _ _ _ _ Hc), (bind_Returned _ _ _ _ _ Hp0),
      (bind_Returned _ _ _ _ _ Hp1), (bind_Returned _ _ _ _ _ Hp2);
    eexists _, _, _; (split; [reflexivity|]);
    (split; [apply list_elem_of_In; simpl; tauto|]);
    (split; [reflexivity|]); simpl; f_equal; congruence.
Qed.

(** With a loaded three-class network and a priority and a type that are
    valid up to letter case, [classify_ticket] returns and changes
    nothing.  The answer repeats the priority and the type as they were
    given; the predicted agent is one of the registry, with its id and
    its specialization from the configuration; the probabilities are
    keyed by the three agents and the confidence is the probability
    listed for the predicted agent. *)
Theorem classify_ticket_answer p ty self :
  model_loaded self = true → model_ok self →
  lower p ∈ PRIORITY_LEVELS → lower ty ∈ TICKET_TYPES →
  ∃ c,
    classify_ticket p ty self = (Returned c, self) ∧
    classification_priority c = p ∧ classification_type c = ty ∧
    classification_predicted_agent c ∈ agents ∧
    classification_predicted_agent_id c
      = agent_id_of (classification_predicted_agent c) ∧
    dict_get AGENT_SPECIALIZATIONS (classification_predicted_agent c)
      = Some (classification_specialization c) ∧
    dict_keys (classification_probabilities c) = agents ∧
    dict_get (classification_probabilities c) (classification_predicted_agent c)
      = Some (classification_confidence c).
Proof.
  intros Hloaded Hok Hp Hty.
  destruct (predict_agent_value (lower p) (lower ty) self Hloaded Hok Hp Hty)
    as (a & c & probabilities & Hpredict & Ha & Hkeys & Hconfidence).
  unfold classify_ticket. rewrite bind_gets, Hloaded. cbn [negb].
  rewrite predict_agent_lower, (bind_Returned _ _ _ _ _ Hpredict).
  rewrite (agent_id_known a Ha). unfold getitem at 1. rewrite bind_ret.
  unfold agents in Ha.
  apply elem_of_cons in Ha as [->|Ha];
    [|apply elem_of_cons in Ha as [->|Ha];
      [|apply elem_of_cons in Ha as [->|Ha]; [|by apply elem_of_nil in Ha]]];
    (eexists; split; [reflexivity|]; split_and!; try done;
     apply list_elem_of_In; simpl; tauto).
Qed.

Lemma classify_ticket_answer_witness :
  let self := mkTicketClassifier (Some constant_network) true
                (agent_tickets waiting_instance) [] [] [] ∅ in
  ∃ c,
    classify_ticket "HIGH" "Network" self = (Returned c, self) ∧
    classification_priority c = "HIGH".
Proof.
  intros self.
  destruct (classify_ticket_answer "HIGH" "Network" self)
    as (c & Hreturned & Hpriority & _).
  - reflexivity.
  - intros _. exists constant_network. split; [reflexivity|].
    intros x. simpl. lia.
  - vm_compute. left.
  - vm_compute. right. right. left.
  - exists c. split; [exact Hreturned|exact Hpriority].
Defined.

(** [classify_ticket] never changes the instance.  Without a loaded
    model it raises [RuntimeError], and so does [classify_and_route]
    when no model file could be loaded.  With a loaded model it does not
    validate its arguments as [create_ticket] does: a priority or a type
    outside the configuration makes the encoding raise [KeyError]. *)
Theorem classify_ticket_errors p ty self :
  (classify_ticket p ty self).2 = self ∧
  (model_loaded self = false →
   (classify_ticket p ty self).1 = Raised RuntimeError) ∧
  classify_and_route p ty None = Raised RuntimeError ∧
  (model_loaded self = true →
   lower p ∉ PRIORITY_LEVELS ∨ lower ty ∉ TICKET_TYPES →
   (classify_ticket p ty self).1 = Raised KeyError).
Proof.
  split_and!.
  - revert self. change (reads (classify_ticket p ty)). unfold classify_ticket.
    apply reads_bind; [apply reads_gets|]. intros loaded.
    destruct loaded; cbn [negb]; [|apply reads_raise].
    apply reads_bind; [intros s; apply predict_agent_state|].
    intros [[a c] probabilities].
    apply reads_bind; [apply reads_getitem|]. intros agent_id.
    apply reads_bind; [apply reads_getitem|]. intros specialization.
    apply reads_ret.
  - intros Hloaded. unfold classify_ticket. by rewrite bind_gets, Hloaded.
  - done.
  - intros Hloaded Hinvalid. unfold classify_ticket.
    rewrite bind_gets, Hloaded. cbn [negb].
    erewrite bind_Raised; [done|].
    unfold predict_agent. rewrite bind_gets, Hloaded. cbn [negb].
    erewrite bind_Raised; [done|]. unfold _encode_input.
    destruct (dict_get PRIORITY_ENCODING (lower p)) as [n|] eqn:Hn.
    + destruct (dict_get TYPE_ENCODING (lower ty)) as [m|] eqn:Hm; [|done].
      exfalso. destruct Hinvalid as [Hp|Hty].
      * apply Hp. apply dict_get_Some_key in Hn.
        unfold PRIORITY_LEVELS. unfold dict_keys in Hn. simpl in Hn.
        apply list_elem_of_In in Hn. apply list_elem_of_In. simpl in *. tauto.
      * apply Hty. apply dict_get_Some_key in Hm.
        unfold TICKET_TYPES. unfold dict_keys in Hm. simpl in Hm.
        apply list_elem_of_In in Hm. apply list_elem_of_In. simpl in *. tauto.
    + done.
Qed.

Lemma classify_ticket_errors_witness :
  let self := mkTicketClassifier (Some constant_network) true
                (agent_tickets waiting_instance) [] [] [] ∅ in
  (classify_ticket "urgent" "software" self).1 = Raised KeyError.
Proof.
  intros self.
  destruct (classify_ticket_errors "urgent" "software" self)
    as (_ & _ & _ & Hkey).
  apply Hkey; [reflexivity|]. left.
  apply (bool_decide_unpack _). vm_compute. exact I.
Defined.

(** ** The tables of config.py *)

Lemma dict_get_elem_of {K V} `{EqDecision K} (d : list (K * V)) k v :
  NoDup d.*1 → dict_get d k = Some v ↔ (k, v) ∈ d.
Proof.
  induction d as [|[k' v'] d IH]; simpl; intros Hnodup.
  - split; [done|by intros ?%elem_of_nil].
  - apply NoDup_cons in Hnodup as [Hk' Hnodup].
    rewrite elem_of_cons. destruct (decide (k = k')) as [->|Hne].
    + split; [intros [= ->]; by left|].
      intros [Heq|Hin]; [congruence|]. exfalso. apply Hk'.
      apply list_elem_of_fmap. by exists (k', v).
    + rewrite IH by done. split; [by right|].
      intros [Heq|?]; [congruence|done].
Qed.

Lemma dict_invert_snoc {K V} `{EqDecision V} (d : list (K * V)) k v :
  dict_invert (d ++ [(k, v)]) = dict_set (dict_invert d) v k.
Proof. unfold dict_invert. by rewrite foldl_snoc. Qed.

(** The inverse of a table without repeated values. *)
Lemma dict_get_invert {K V} `{EqDecision V} (d : list (K * V)) k v :
  NoDup d.*2 → dict_get (dict_invert d) v = Some k ↔ (k, v) ∈ d.
Proof.
  induction d as [|[k0 v0] d IH] using rev_ind; intros Hnodup.
  - split; [done|by intros ?%elem_of_nil].
  - rewrite fmap_app in Hnodup. apply NoDup_app in Hnodup as (Hnodup & Hv0 & _).
    rewrite dict_invert_snoc, elem_of_app, list_elem_of_singleton.
    destruct (decide (v0 = v)) as [->|Hne].
    + rewrite dict_get_set_eq. split; [intros [= ->]; by right|].
      intros [Hin|Heq]; [|congruence]. exfalso. apply (Hv0 v); [|left].
      apply list_elem_of_fmap. by exists (k, v).
    + rewrite dict_get_set_ne, IH by done. split; [by left|].
      intros [?|Heq]; [done|congruence].
Qed.

(** A table without repeated keys or values and the table that
    [{v: k for k, v in d.items()}] builds from it are inverse to each
    other. *)
Lemma dict_invert_round_trip {K V} `{EqDecision K, EqDecision V}
    (d : list (K * V)) k v :
  NoDup d.*1 → NoDup d.*2 →
  dict_get (dict_invert d) v = Some k ↔ dict_get d k = Some v.
Proof. intros Hk Hv. by rewrite dict_get_invert, dict_get_elem_of. Qed.

(** Decoding inverts encoding: in each of the three pairs of tables, a
    code is decoded to a name exactly when the name is encoded as that
    code.  The class index that [predict_agent] decodes therefore names
    the agent at that position of the probability list. *)
Theorem decoding_inverts_encoding :
  AGENT_DECODING = dict_invert AGENT_ENCODING ∧
  (∀ agent n,
     dict_get AGENT_DECODING n = Some agent ↔
     dict_get AGENT_ENCODING agent = Some n) ∧
  (∀ p n,
     dict_get PRIORITY_DECODING n = Some p ↔
     dict_get PRIORITY_ENCODING p = Some n) ∧
  (∀ ty n,
     dict_get TYPE_DECODING n = Some ty ↔
     dict_get TYPE_ENCODING ty = Some n).
Proof.
  split; [reflexivity|].
  split_and!; intros name n;
    [change AGENT_DECODING with (dict_invert AGENT_ENCODING)|..];
    apply dict_invert_round_trip;
    apply (bool_decide_unpack _); vm_compute; exact I.
Qed.

(** The tables that name the specialist of a ticket type agree:
    [TYPE_TO_PRIMARY_AGENT] is the inverse of [AGENT_SPECIALIZATIONS],
    and [LOAD_DISTRIBUTION] gives, for every priority and type of the
    configuration and for no other pair, the primary agent of the
    type. *)
Theorem primary_agent_tables_agree :
  (∀ ty agent,
     dict_get TYPE_TO_PRIMARY_AGENT ty = Some agent ↔
     dict_get AGENT_SPECIALIZATIONS agent = Some ty) ∧
  (∀ p ty agent,
     dict_get LOAD_DISTRIBUTION (p, ty) = Some agent ↔
     p ∈ PRIORITY_LEVELS ∧ dict_get TYPE_TO_PRIMARY_AGENT ty = Some agent).
Proof.
  split.
  - intros ty agent.
    change TYPE_TO_PRIMARY_AGENT with (dict_invert AGENT_SPECIALIZATIONS).
    apply dict_invert_round_trip;
      apply (bool_decide_unpack _); vm_compute; exact I.
  - intros p ty agent.
    rewrite !dict_get_elem_of
      by (apply (bool_decide_unpack _); vm_compute; exact I).
    unfold LOAD_DISTRIBUTION, TYPE_TO_PRIMARY_AGENT, PRIORITY_LEVELS.
    rewrite !list_elem_of_In. simpl. split.
    + intros H. repeat destruct H as [H|H]; try done;
        injection H as <- <- <-; tauto.
    + intros [Hp H].
      repeat destruct Hp as [<-|Hp]; try done;
        repeat destruct H as [H|H]; try done;
        injection H as <- <-; tauto.
Qed.

(** ** Calls that find nothing to do *)

Lemma drain_idle self :
  settled self → drain self = ([], self).
Proof.
  intros Hset.
  assert (∀ l, (∀ x, x ∈ l → x ∈ queued self) → walk l self = ([], self))
    as Hwalk.
  { intros l Hl. apply (walk_none l self self); [apply no_freer_refl|].
    intros x t Hx Ht. apply (Hset x t); [by apply Hl|done]. }
  pose proof (drain_walks self) as Hdrain. cbn zeta in Hdrain.
  rewrite Hdrain. clear Hdrain.
  rewrite (Hwalk (high_priority_queue self)); cbn [fst snd].
  2:{ intros x Hx. unfold queued. rewrite !elem_of_app. auto. }
  rewrite (Hwalk (medium_priority_queue self)); cbn [fst snd].
  2:{ intros x Hx. unfold queued. rewrite !elem_of_app. auto. }
  rewrite (Hwalk (low_priority_queue self)); cbn [fst snd].
  2:{ intros x Hx. unfold queued. rewrite !elem_of_app. auto. }
  by destruct self.
Qed.

(** In a history whose [create_ticket] calls have pairwise distinct ids,
    every call leaves the queues drained: [_process_queues], called on
    its own after any such history, returns the empty list and changes
    nothing. *)
Theorem process_queues_idle_after_history ops loaded :
  NoDup (created_ids ops) →
  _process_queues (run ops (init loaded)) = (Returned [], run ops (init loaded)).
Proof.
  intros Hnodup.
  destruct (run_settled ops loaded Hnodup) as [(Hcons & _) Hset].
  rewrite (process_queues_consistent _ Hcons).
  by rewrite (drain_idle _ Hset).
Qed.

Lemma process_queues_idle_after_history_witness :
  (_process_queues (run sixth_urgent_ticket (init None))).1 = Returned [].
Proof.
  rewrite (process_queues_idle_after_history sixth_urgent_ticket None).
  - reflexivity.
  - apply (bool_decide_unpack _). vm_compute. exact I.
Defined.

(** In a history whose [create_ticket] calls have pairwise distinct ids,
    [close_ticket] on a pending ticket retires it: afterwards the ticket
    is stored as it was but with status closed, and its id is in no
    workload and in no queue. *)
Theorem closing_pending_ticket_retires_it ops loaded x t :
  NoDup (created_ids ops) →
  tickets (run ops (init loaded)) !! x = Some t →
  status t = TICKET_STATUS.PENDING →
  let after := (close_ticket x (run ops (init loaded))).2 in
  tickets after !! x = Some (set_status TICKET_STATUS.CLOSED t) ∧
  x ∉ places after.
Proof.
  intros Hnodup Hx Hpending after.
  destruct (run_settled ops loaded Hnodup) as [Hwp _].
  set (self := run ops (init loaded)) in *.
  pose proof Hwp as (Hcons & Hplaces & Hplaced).
  pose proof Hcons as (Hreg & _ & Hknown).
  assert (status t ≠ TICKET_STATUS.CLOSED) as Hopen by by rewrite Hpending.
  assert (after = (drain (release x t self)).2) as ->.
  { unfold after. rewrite (close_ticket_open _ t) by eauto.
    by erewrite bind_Returned
      by by apply process_queues_consistent, release_consistent. }
  assert (x ∉ queued self) as Hq.
  { destruct (Hplaced x t Hx) as [[Hst _]|[[_ (a & _ & Hw)]|[Hst _]]].
    - by rewrite Hpending in Hst.
    - unfold places in Hplaces. apply NoDup_app in Hplaces as (_ & Hd & _).
      by eapply Hd, workload_held.
    - by rewrite Hpending in Hst. }
  assert (tickets (drain (release x t self)).2 !! x
          = Some (set_status TICKET_STATUS.CLOSED t)) as Hafter.
  { rewrite drain_not_queued by by rewrite release_queued.
    by rewrite release_tickets, lookup_insert_eq. }
  split; [done|].
  pose proof (drain_well_placed _ (release_well_placed x t self Hwp Hx Hopen))
    as (_ & _ & Hplaced').
  unfold places. apply not_elem_of_app. split.
  - destruct (Hplaced' x _ Hafter) as [[Hst _]|[[Hst _]|[_ ?]]]; done.
  - intros Hin%drain_queued_subset. by rewrite release_queued in Hin.
Qed.

Lemma closing_pending_ticket_retires_it_witness :
  let after := (close_ticket "T4" (run sixth_urgent_ticket (init None))).2 in
  status_of after "T4" = Some TICKET_STATUS.CLOSED ∧ "T4" ∉ places after.
Proof.
  intros after.
  destruct (closing_pending_ticket_retires_it sixth_urgent_ticket None "T4"
              (assigned_ticket "Agent 1"
                 (new_ticket 0 "T4" "high" "software" None)))
    as [Hstored Hplaces].
  - apply (bool_decide_unpack _). vm_compute. exact I.
  - reflexivity.
  - reflexivity.
  - split; [|exact Hplaces]. unfold status_of, after.
    cbn zeta in Hstored. rewrite Hstored. reflexivity.
Defined.
